(** * Single-server queue simulators (Lab01): a shallow embedding

    The repository holds three discrete-event simulators of one FIFO
    link: [Lab1partA.py] (synthetic arrivals, count-bounded),
    [Lab1partB.py] (trace-driven) and [001.py] (synthetic, packet
    objects).  Each is embedded below as an explicit state record, one
    function per method, and an error monad for the Python exceptions
    the methods can raise.

    Conventions.
    - Python [float] and [numpy.float64] values are modelled as exact
      rationals [Q] (finite values, no rounding); Python [int] values
      as [Z]; [numpy.int64] values as [Z] with the wrap-around of 64-bit
      arithmetic written out.
    - A division by zero raises [ZeroDivisionError] on Python numbers
      and returns an infinity or nan on a [numpy.float64]; where a
      float can be either, the state records which it is.
    - [heapq] is embedded as the array algorithm of CPython
      ([_siftdown], [_siftup]) over a list, so ties between events are
      resolved exactly as the Python heap resolves them.
    - [random.expovariate] is an external source: the k-th call of a
      run returns [rand k], where [rand : nat -> Q] is a parameter and
      the state counts the calls made so far. *)

From Stdlib Require Import ZArith QArith Qround Lia Lqa ZifyNat.
From stdpp Require Import base list sorting.

Ltac Zify.zify_post_hook ::= Z.div_mod_to_equations.

(** ** Python exceptions as an error monad *)

Inductive PyError : Type :=
| IndexError
| KeyError
| TypeError
| AttributeError
| ZeroDivisionError.

Inductive result (A : Type) : Type :=
| Ok (a : A)
| Raise (e : PyError).

Arguments Ok {A} a.
Arguments Raise {A} e.

#[global] Instance result_ret : MRet result := fun _ a => Ok a.
#[global] Instance result_bind : MBind result := fun _ _ k m =>
  match m with
  | Ok a => k a
  | Raise e => Raise e
  end.

(** ** heapq *)

Module Heapq.
Section Heap.
Context {A : Type} (lt : A -> A -> bool).

(** [(pos - 1) >> 1] *)
Definition parent (pos : nat) : nat := (pos - 1) / 2.

(** The [while pos > startpos] loop of [_siftdown]; [newitem] is held
    aside and written at the end.  The loop runs at most [pos] times. *)
Fixpoint siftdown_loop (fuel : nat) (heap : list A) (newitem : A)
         (startpos pos : nat) : list A :=
  match fuel with
  | O => <[pos := newitem]> heap
  | S fuel' =>
      if decide (startpos < pos) then
        let parentpos := parent pos in
        match heap !! parentpos with
        | Some parent_ =>
            if lt newitem parent_
            then siftdown_loop fuel' (<[pos := parent_]> heap) newitem
                               startpos parentpos
            else <[pos := newitem]> heap
        | None => <[pos := newitem]> heap
        end
      else <[pos := newitem]> heap
  end.

Definition siftdown (heap : list A) (startpos pos : nat) : list A :=
  match heap !! pos with
  | Some newitem => siftdown_loop pos heap newitem startpos pos
  | None => heap
  end.

(** The choice of the smaller child in [_siftup]:
    [if rightpos < endpos and not heap[childpos] < heap[rightpos]]. *)
Definition smaller_child (heap : list A) (childpos : nat) : nat :=
  let rightpos := childpos + 1 in
  match heap !! childpos, heap !! rightpos with
  | Some l, Some r => if negb (lt l r) then rightpos else childpos
  | _, _ => childpos
  end.

(** The [while childpos < endpos] loop of [_siftup]: the smaller child
    moves up until the hole reaches a leaf.  Returns the heap and the
    position of the hole. *)
Fixpoint siftup_loop (fuel : nat) (heap : list A) (pos : nat)
  : list A * nat :=
  match fuel with
  | O => (heap, pos)
  | S fuel' =>
      let childpos := 2 * pos + 1 in
      if decide (childpos < length heap) then
        let childpos := smaller_child heap childpos in
        match heap !! childpos with
        | Some c => siftup_loop fuel' (<[pos := c]> heap) childpos
        | None => (heap, pos)
        end
      else (heap, pos)
  end.

Definition siftup (heap : list A) (pos : nat) : list A :=
  let startpos := pos in
  match heap !! pos with
  | Some newitem =>
      let '(heap, pos) := siftup_loop (length heap) heap pos in
      siftdown (<[pos := newitem]> heap) startpos pos
  | None => heap
  end.

Definition heappush (heap : list A) (item : A) : list A :=
  let heap := heap ++ [item] in
  siftdown heap 0 (length heap - 1).

(** [heappop] raises [IndexError] on the empty list ([heap.pop()]). *)
Definition heappop (heap : list A) : result (A * list A) :=
  match last heap with
  | None => Raise IndexError
  | Some lastelt =>
      let heap := removelast heap in
      match heap with
      | [] => Ok (lastelt, [])
      | returnitem :: _ =>
          Ok (returnitem, siftup (<[0 := lastelt]> heap) 0)
      end
  end.

(** The heap invariant: no element is smaller than its parent. *)
Definition le (x y : A) : Prop := lt y x = false.

Definition ordered_at (h : list A) (i : nat) : Prop :=
  forall x p, 0 < i -> h !! i = Some x -> h !! parent i = Some p -> le p x.

Definition heap_ok (h : list A) : Prop := forall i, ordered_at h i.

(** The array while an item travels through it at [pos]: every edge
    that does not touch [pos] is ordered, and the children of [pos] are
    not smaller than the parent of [pos]. *)
Definition hole_ok (h : list A) (pos : nat) : Prop :=
  (forall i, i <> pos -> parent i <> pos -> ordered_at h i) /\
  (forall c x g, 0 < pos -> 0 < c -> parent c = pos ->
                 h !! c = Some x -> h !! parent pos = Some g -> le g x).

(** The item at [pos] is not larger than its children. *)
Definition below_ok (h : list A) (pos : nat) : Prop :=
  forall c x y, 0 < c -> parent c = pos ->
                h !! c = Some x -> h !! pos = Some y -> le y x.

End Heap.
End Heapq.

(** ** Python arithmetic and list primitives *)

(** [x < y] on floats. *)
Definition Qltb (x y : Q) : bool :=
  match (x ?= y)%Q with
  | Lt => true
  | _ => false
  end.

(** True division [x / y]: [ZeroDivisionError] when [y] is zero. *)
Definition truediv (x y : Q) : result Q :=
  if Qeq_bool y 0 then Raise ZeroDivisionError else Ok (x / y)%Q.

(** [l[i]] with Python's index rule: [-len <= i < 0] counts from the
    end, anything outside [-len, len) raises [IndexError]. *)
Definition py_index (n : nat) (i : Z) : result nat :=
  if decide (0 <= i < Z.of_nat n)%Z then Ok (Z.to_nat i)
  else if decide (- Z.of_nat n <= i < 0)%Z then Ok (Z.to_nat (Z.of_nat n + i))
  else Raise IndexError.

Definition getitem {A : Type} (l : list A) (i : Z) : result A :=
  k ← py_index (length l) i;
  match l !! k with
  | Some x => Ok x
  | None => Raise IndexError
  end.

(** [l[i] += 1] on a list of ints. *)
Definition incr_item (l : list Z) (i : Z) : result (list Z) :=
  k ← py_index (length l) i;
  match l !! k with
  | Some x => Ok (<[k := (x + 1)%Z]> l)
  | None => Raise IndexError
  end.

(** [sum(l)] for ints and for floats. *)
Definition sumZ (l : list Z) : Z := foldr Z.add 0%Z l.
Definition sumQ (l : list Q) : Q := foldr Qplus 0%Q l.

(** [random.expovariate(lambd)]: the value comes from the external
    source; a zero rate raises [ZeroDivisionError] inside the library. *)
Definition expovariate (sample lambd : Q) : result Q :=
  if Qeq_bool lambd 0 then Raise ZeroDivisionError else Ok sample.

(** ** numpy scalars (Lab1partB.py reads its trace with pandas) *)

(** An element of a column of the data frame: [numpy.int64] when the
    column holds integers, [numpy.float64] otherwise. *)
Inductive Scalar : Type :=
| int64 (n : Z)
| float64 (x : Q).

(** The value of a 64-bit signed integer after an overflow. *)
Definition wrap_int64 (n : Z) : Z :=
  ((n + 2 ^ 63) mod 2 ^ 64 - 2 ^ 63)%Z.

(** [x * k] for a numpy scalar [x] and a Python int [k]: the product has
    the type of [x]; on [int64] it wraps around (numpy warns, it does
    not raise). *)
Definition scalar_mul (x : Scalar) (k : Z) : Scalar :=
  match x with
  | int64 n => int64 (wrap_int64 (n * k))
  | float64 x => float64 (x * inject_Z k)
  end.

(** The [numpy.float64] a scalar is converted to by a true division or
    by an addition to a float. *)
Definition scalar_float (x : Scalar) : Q :=
  match x with
  | int64 n => inject_Z n
  | float64 x => x
  end.

(** The dynamic type of a float. *)
Inductive FloatKind : Type :=
| py_float
| np_float64.

(** The type of [x op y] on floats: a [numpy.float64] as soon as one
    operand is one. *)
Definition op_kind (a b : FloatKind) : FloatKind :=
  match a, b with
  | py_float, py_float => py_float
  | _, _ => np_float64
  end.

(** What a true division returns: a finite value or, from numpy, an
    infinity or nan. *)
Inductive Float : Type :=
| finite (x : Q)
| pos_inf
| neg_inf
| nan.

(** [x / y] on [numpy.float64]: a zero divisor gives nan or an infinity
    of the sign of [x], with a warning and no exception. *)
Definition np_truediv (x y : Q) : Float :=
  if Qeq_bool y 0 then
    if Qeq_bool x 0 then nan
    else if Qltb 0 x then pos_inf else neg_inf
  else finite (x / y)%Q.

(** [x / y] on floats of which one at least has kind [k]. *)
Definition float_div (k : FloatKind) (x y : Q) : result Float :=
  match k with
  | py_float => q ← truediv x y; Ok (finite q)
  | np_float64 => Ok (np_truediv x y)
  end.

(** ** Events of Lab1partA.py and Lab1partB.py (the same class in both) *)

Inductive EventType : Type :=
| arrival
| departure.

Record Event : Type := mkEvent {
  time : Q;
  type : EventType;
  pkt_id : Z
}.

(** [Event.__lt__] *)
Definition Event_lt (self other : Event) : bool :=
  Qltb (time self) (time other).

Definition LINK_RATE_BPS : Q := 10000000000%Q.
Definition MEAN_PKT_SIZE_BITS : Q := 10000%Q.

(** ** Lab1partA.py: [MM1Simulator] *)

Module Lab1partA.

Record MM1Simulator : Type := mkSim {
  npkts : Z;
  lambd : Q;
  queue : list (Z * Q);          (* (pkt_id, arrival time) *)
  event_list : list Event;
  curr_time : Q;
  next_pkt_id : Z;
  in_service : bool;
  total_delay : Q;
  total_pkts : Z;
  queue_len_record : list Z;
  pkts_in_system : Z;
  area_under_q : Q;
  last_event_time : Q;
  draws : nat                    (* calls made to random.expovariate *)
}.

(** [__init__] *)
Definition init (npkts : Z) (lambd : Q) : MM1Simulator :=
  {| npkts := npkts; lambd := lambd; queue := []; event_list := [];
     curr_time := 0%Q; next_pkt_id := 0%Z; in_service := false;
     total_delay := 0%Q; total_pkts := 0%Z;
     queue_len_record := replicate 12 0%Z; pkts_in_system := 0%Z;
     area_under_q := 0%Q; last_event_time := 0%Q; draws := 0%nat |}.

Definition set_queue (q : list (Z * Q)) (s : MM1Simulator) :=
  mkSim (npkts s) (lambd s) q (event_list s) (curr_time s) (next_pkt_id s)
        (in_service s) (total_delay s) (total_pkts s) (queue_len_record s)
        (pkts_in_system s) (area_under_q s) (last_event_time s) (draws s).

Definition set_event_list (h : list Event) (s : MM1Simulator) :=
  mkSim (npkts s) (lambd s) (queue s) h (curr_time s) (next_pkt_id s)
        (in_service s) (total_delay s) (total_pkts s) (queue_len_record s)
        (pkts_in_system s) (area_under_q s) (last_event_time s) (draws s).

Definition set_curr_time (t : Q) (s : MM1Simulator) :=
  mkSim (npkts s) (lambd s) (queue s) (event_list s) t (next_pkt_id s)
        (in_service s) (total_delay s) (total_pkts s) (queue_len_record s)
        (pkts_in_system s) (area_under_q s) (last_event_time s) (draws s).

Definition set_next_pkt_id (n : Z) (s : MM1Simulator) :=
  mkSim (npkts s) (lambd s) (queue s) (event_list s) (curr_time s) n
        (in_service s) (total_delay s) (total_pkts s) (queue_len_record s)
        (pkts_in_system s) (area_under_q s) (last_event_time s) (draws s).

Definition set_in_service (b : bool) (s : MM1Simulator) :=
  mkSim (npkts s) (lambd s) (queue s) (event_list s) (curr_time s)
        (next_pkt_id s) b (total_delay s) (total_pkts s) (queue_len_record s)
        (pkts_in_system s) (area_under_q s) (last_event_time s) (draws s).

Definition set_total_delay (d : Q) (s : MM1Simulator) :=
  mkSim (npkts s) (lambd s) (queue s) (event_list s) (curr_time s)
        (next_pkt_id s) (in_service s) d (total_pkts s) (queue_len_record s)
        (pkts_in_system s) (area_under_q s) (last_event_time s) (draws s).

Definition set_total_pkts (n : Z) (s : MM1Simulator) :=
  mkSim (npkts s) (lambd s) (queue s) (event_list s) (curr_time s)
        (next_pkt_id s) (in_service s) (total_delay s) n (queue_len_record s)
        (pkts_in_system s) (area_under_q s) (last_event_time s) (draws s).

Definition set_queue_len_record (r : list Z) (s : MM1Simulator) :=
  mkSim (npkts s) (lambd s) (queue s) (event_list s) (curr_time s)
        (next_pkt_id s) (in_service s) (total_delay s) (total_pkts s) r
        (pkts_in_system s) (area_under_q s) (last_event_time s) (draws s).

Definition set_pkts_in_system (n : Z) (s : MM1Simulator) :=
  mkSim (npkts s) (lambd s) (queue s) (event_list s) (curr_time s)
        (next_pkt_id s) (in_service s) (total_delay s) (total_pkts s)
        (queue_len_record s) n (area_under_q s) (last_event_time s) (draws s).

Definition set_area_under_q (a : Q) (s : MM1Simulator) :=
  mkSim (npkts s) (lambd s) (queue s) (event_list s) (curr_time s)
        (next_pkt_id s) (in_service s) (total_delay s) (total_pkts s)
        (queue_len_record s) (pkts_in_system s) a (last_event_time s) (draws s).

Definition set_last_event_time (t : Q) (s : MM1Simulator) :=
  mkSim (npkts s) (lambd s) (queue s) (event_list s) (curr_time s)
        (next_pkt_id s) (in_service s) (total_delay s) (total_pkts s)
        (queue_len_record s) (pkts_in_system s) (area_under_q s) t (draws s).

Definition set_draws (n : nat) (s : MM1Simulator) :=
  mkSim (npkts s) (lambd s) (queue s) (event_list s) (curr_time s)
        (next_pkt_id s) (in_service s) (total_delay s) (total_pkts s)
        (queue_len_record s) (pkts_in_system s) (area_under_q s)
        (last_event_time s) n.

Section WithRandom.
Variable rand : nat -> Q.

(** One call [random.expovariate(rate)]: the next value of the source. *)
Definition draw (rate : Q) (s : MM1Simulator) : result (Q * MM1Simulator) :=
  x ← expovariate (rand (draws s)) rate;
  Ok (x, set_draws (S (draws s)) s).

Definition schedule_event (event : Event) (s : MM1Simulator) : MM1Simulator :=
  set_event_list (Heapq.heappush Event_lt (event_list s) event) s.

Definition start_service (s : MM1Simulator) : result MM1Simulator :=
  let s := set_in_service true s in
  '(pkt_id, _) ← getitem (queue s) 0;
  '(pkt_size_bits, s) ← draw (1 / MEAN_PKT_SIZE_BITS)%Q s;
  let service_time := ((pkt_size_bits / LINK_RATE_BPS) * 1000000)%Q in
  let departure_time := (curr_time s + service_time)%Q in
  Ok (schedule_event (mkEvent departure_time departure pkt_id) s).

Definition handle_arrival (event : Event) (s : MM1Simulator)
  : result MM1Simulator :=
  let index := if decide (pkts_in_system s <= 10)%Z
               then pkts_in_system s else 11%Z in
  r ← incr_item (queue_len_record s) index;
  let s := set_queue_len_record r s in
  let s := set_pkts_in_system (pkts_in_system s + 1)%Z s in
  '(gap, s) ← draw (lambd s) s;
  let next_arrival_time := (curr_time s + gap)%Q in
  let s := schedule_event (mkEvent next_arrival_time arrival (next_pkt_id s)) s in
  let s := set_next_pkt_id (next_pkt_id s + 1)%Z s in
  let s := set_queue (queue s ++ [(pkt_id event, curr_time s)]) s in
  if negb (in_service s) then start_service s else Ok s.

Definition handle_departure (event : Event) (s : MM1Simulator)
  : result MM1Simulator :=
  match queue s with
  | [] => Raise IndexError
  | (pkt_id, arrival_time) :: rest =>
      let s := set_queue rest s in
      let delay := (curr_time s - arrival_time)%Q in
      let s := set_total_delay (total_delay s + delay)%Q s in
      let s := set_total_pkts (total_pkts s + 1)%Z s in
      let s := set_pkts_in_system (pkts_in_system s - 1)%Z s in
      match queue s with
      | _ :: _ => start_service s
      | [] => Ok (set_in_service false s)
      end
  end.

(** The two statements of [run] before the loop. *)
Definition prime (s : MM1Simulator) : result MM1Simulator :=
  '(first_arrival_time, s) ← draw (lambd s) s;
  let s := schedule_event (mkEvent first_arrival_time arrival (next_pkt_id s)) s in
  Ok (set_next_pkt_id (next_pkt_id s + 1)%Z s).

(** One iteration of the [while] loop; the popped event is returned
    with the new state. *)
Definition loop_body (s : MM1Simulator) : result (Event * MM1Simulator) :=
  '(event, heap) ← Heapq.heappop Event_lt (event_list s);
  let s := set_event_list heap s in
  let s := set_curr_time (time event) s in
  let s := set_area_under_q
             (area_under_q s
              + inject_Z (pkts_in_system s) * (curr_time s - last_event_time s))%Q
             s in
  let s := set_last_event_time (curr_time s) s in
  s ← match type event with
      | arrival => handle_arrival event s
      | departure => handle_departure event s
      end;
  Ok (event, s).

(** [while self.total_pkts < self.npkts], cut after [fuel] iterations.
    Returns the events popped, in order, and the state reached. *)
Fixpoint loop (fuel : nat) (s : MM1Simulator)
  : result (list Event * MM1Simulator) :=
  match fuel with
  | O => Ok ([], s)
  | S fuel' =>
      if decide (total_pkts s < npkts s)%Z then
        '(event, s) ← loop_body s;
        '(events, s) ← loop fuel' s;
        Ok (event :: events, s)
      else Ok ([], s)
  end.

Definition run (fuel : nat) (s : MM1Simulator)
  : result (list Event * MM1Simulator) :=
  s ← prime s;
  loop fuel s.

End WithRandom.

(** What [print_stats] computes before plotting. *)
Record Stats : Type := mkStats {
  N : Q;
  T : Q;
  pn_probs : list Q;
  total_prob : Q
}.

(** [for n in range(11): p = self.queue_len_record[n] / total_arrivals] *)
Fixpoint pn_loop (record : list Z) (total_arrivals : Z) (ns : list Z)
  : result (list Q) :=
  match ns with
  | [] => Ok []
  | n :: ns' =>
      c ← getitem record n;
      p ← truediv (inject_Z c) (inject_Z total_arrivals);
      ps ← pn_loop record total_arrivals ns';
      Ok (p :: ps)
  end.

Definition distribution (record : list Z) : result (list Q) :=
  let total_arrivals := sumZ record in
  pn_probs ← pn_loop record total_arrivals (map Z.of_nat (seq 0 11));
  c ← getitem record 11;
  p_over_10 ← truediv (inject_Z c) (inject_Z total_arrivals);
  Ok (pn_probs ++ [p_over_10]).

Definition print_stats (s : MM1Simulator) : result Stats :=
  N ← truediv (area_under_q s) (curr_time s);
  T ← truediv (total_delay s) (inject_Z (total_pkts s));
  pn_probs ← distribution (queue_len_record s);
  Ok (mkStats N T pn_probs (sumQ pn_probs)).

End Lab1partA.

(** ** Lab1partB.py: [TraceSimulator] *)

Module Lab1partB.

(** A row of the trace: ([inter_arrival_us], [pkt_size_bytes]).  The
    data frame has the default index 0, 1, 2, ...  The inter-arrival
    value is only ever added to a float, so it is kept as the float it
    is converted to; the size is multiplied in its own type, so it is
    kept as the scalar it is.  (pandas gives a column one type: in a
    frame read from a file all sizes are [int64] or all are [float64];
    nothing below depends on it.  Columns of other types, such as
    [uint64] or strings, are not modelled.) *)
Definition Row : Type := (Q * Scalar)%type.

Record TraceSimulator : Type := mkSim {
  trace : list Row;
  queue : list (Z * Q * Q);      (* (pkt_id, arrival time, service time) *)
  event_list : list Event;
  curr_time : Q;
  in_service : bool;
  total_delay : Q;
  total_pkts : Z;
  queue_len_record : list Z;
  pkts_in_system : Z;
  area_under_q : Q;
  last_event_time : Q;
  (* the dynamic types of [curr_time], [total_delay] and [area_under_q]:
     Python floats after [__init__], numpy.float64 once assigned from
     an event time *)
  curr_time_kind : FloatKind;
  total_delay_kind : FloatKind;
  area_kind : FloatKind
}.

(** [__init__], after [pd.read_csv] has produced the rows. *)
Definition init (trace : list Row) : TraceSimulator :=
  {| trace := trace; queue := []; event_list := []; curr_time := 0%Q;
     in_service := false; total_delay := 0%Q; total_pkts := 0%Z;
     queue_len_record := replicate 12 0%Z; pkts_in_system := 0%Z;
     area_under_q := 0%Q; last_event_time := 0%Q;
     curr_time_kind := py_float; total_delay_kind := py_float;
     area_kind := py_float |}.

Definition set_queue (q : list (Z * Q * Q)) (s : TraceSimulator) :=
  mkSim (trace s) q (event_list s) (curr_time s) (in_service s)
        (total_delay s) (total_pkts s) (queue_len_record s)
        (pkts_in_system s) (area_under_q s) (last_event_time s)
        (curr_time_kind s) (total_delay_kind s) (area_kind s).

Definition set_event_list (h : list Event) (s : TraceSimulator) :=
  mkSim (trace s) (queue s) h (curr_time s) (in_service s) (total_delay s)
        (total_pkts s) (queue_len_record s) (pkts_in_system s)
        (area_under_q s) (last_event_time s) (curr_time_kind s)
        (total_delay_kind s) (area_kind s).

(** Assignments to a float field store the value and its type. *)
Definition set_curr_time (k : FloatKind) (t : Q) (s : TraceSimulator) :=
  mkSim (trace s) (queue s) (event_list s) t (in_service s) (total_delay s)
        (total_pkts s) (queue_len_record s) (pkts_in_system s)
        (area_under_q s) (last_event_time s) k (total_delay_kind s)
        (area_kind s).

Definition set_in_service (b : bool) (s : TraceSimulator) :=
  mkSim (trace s) (queue s) (event_list s) (curr_time s) b (total_delay s)
        (total_pkts s) (queue_len_record s) (pkts_in_system s)
        (area_under_q s) (last_event_time s) (curr_time_kind s)
        (total_delay_kind s) (area_kind s).

Definition set_total_delay (k : FloatKind) (d : Q) (s : TraceSimulator) :=
  mkSim (trace s) (queue s) (event_list s) (curr_time s) (in_service s) d
        (total_pkts s) (queue_len_record s) (pkts_in_system s)
        (area_under_q s) (last_event_time s) (curr_time_kind s) k
        (area_kind s).

Definition set_total_pkts (n : Z) (s : TraceSimulator) :=
  mkSim (trace s) (queue s) (event_list s) (curr_time s) (in_service s)
        (total_delay s) n (queue_len_record s) (pkts_in_system s)
        (area_under_q s) (last_event_time s) (curr_time_kind s)
        (total_delay_kind s) (area_kind s).

Definition set_queue_len_record (r : list Z) (s : TraceSimulator) :=
  mkSim (trace s) (queue s) (event_list s) (curr_time s) (in_service s)
        (total_delay s) (total_pkts s) r (pkts_in_system s) (area_under_q s)
        (last_event_time s) (curr_time_kind s) (total_delay_kind s)
        (area_kind s).

Definition set_pkts_in_system (n : Z) (s : TraceSimulator) :=
  mkSim (trace s) (queue s) (event_list s) (curr_time s) (in_service s)
        (total_delay s) (total_pkts s) (queue_len_record s) n
        (area_under_q s) (last_event_time s) (curr_time_kind s)
        (total_delay_kind s) (area_kind s).

Definition set_area_under_q (k : FloatKind) (a : Q) (s : TraceSimulator) :=
  mkSim (trace s) (queue s) (event_list s) (curr_time s) (in_service s)
        (total_delay s) (total_pkts s) (queue_len_record s)
        (pkts_in_system s) a (last_event_time s) (curr_time_kind s)
        (total_delay_kind s) k.

Definition set_last_event_time (t : Q) (s : TraceSimulator) :=
  mkSim (trace s) (queue s) (event_list s) (curr_time s) (in_service s)
        (total_delay s) (total_pkts s) (queue_len_record s)
        (pkts_in_system s) (area_under_q s) t (curr_time_kind s)
        (total_delay_kind s) (area_kind s).

Definition schedule_event (event : Event) (s : TraceSimulator)
  : TraceSimulator :=
  set_event_list (Heapq.heappush Event_lt (event_list s) event) s.

(** [self.trace.loc[pkt_id, 'pkt_size_bytes']]: [KeyError] when the
    label is not in the index. *)
Definition loc_pkt_size_bytes (trace : list Row) (pkt_id : Z)
  : result Scalar :=
  if decide (0 <= pkt_id)%Z then
    match trace !! Z.to_nat pkt_id with
    | Some row => Ok (snd row)
    | None => Raise KeyError
    end
  else Raise KeyError.

Definition start_service (s : TraceSimulator) : result TraceSimulator :=
  let s := set_in_service true s in
  '(pkt_id, _, service_time) ← getitem (queue s) 0;
  let departure_time := (curr_time s + service_time)%Q in
  Ok (schedule_event (mkEvent departure_time departure pkt_id) s).

Definition handle_arrival (event : Event) (s : TraceSimulator)
  : result TraceSimulator :=
  pkt_size_bytes ← loc_pkt_size_bytes (trace s) (pkt_id event);
  let service_time_us :=
    ((scalar_float (scalar_mul pkt_size_bytes 8) / LINK_RATE_BPS)
     * 1000000)%Q in
  let index := if decide (pkts_in_system s <= 10)%Z
               then pkts_in_system s else 11%Z in
  r ← incr_item (queue_len_record s) index;
  let s := set_queue_len_record r s in
  let s := set_pkts_in_system (pkts_in_system s + 1)%Z s in
  let s := set_queue (queue s ++ [(pkt_id event, curr_time s, service_time_us)]) s in
  if negb (in_service s) then start_service s else Ok s.

Definition handle_departure (event : Event) (s : TraceSimulator)
  : result TraceSimulator :=
  match queue s with
  | [] => Raise IndexError
  | (pkt_id, arrival_time, _) :: rest =>
      let s := set_queue rest s in
      let delay := (curr_time s - arrival_time)%Q in
      (* [arrival_time] is an event time, so [delay] is a numpy.float64 *)
      let s := set_total_delay (op_kind np_float64 (total_delay_kind s))
                               (total_delay s + delay)%Q s in
      let s := set_total_pkts (total_pkts s + 1)%Z s in
      let s := set_pkts_in_system (pkts_in_system s - 1)%Z s in
      match queue s with
      | _ :: _ => start_service s
      | [] => Ok (set_in_service false s)
      end
  end.

(** [for pkt_id, row in self.trace.iterrows()]: every row is scheduled
    at the running sum of the inter-arrival values. *)
Fixpoint schedule_rows (rows : list Row) (pkt_id : Z) (arrival_time : Q)
         (s : TraceSimulator) : TraceSimulator :=
  match rows with
  | [] => s
  | row :: rows' =>
      let inter_arrival := fst row in
      let arrival_time := (arrival_time + inter_arrival)%Q in
      let s := schedule_event (mkEvent arrival_time arrival pkt_id) s in
      schedule_rows rows' (pkt_id + 1)%Z arrival_time s
  end.

Definition prime (s : TraceSimulator) : TraceSimulator :=
  schedule_rows (trace s) 0%Z 0%Q s.

(** One iteration of the [while] loop.  The event times of this file
    are numpy.float64 values: an arrival time is [0.0] plus values of
    the data frame, a departure time is an event time plus a service
    time computed from the data frame. *)
Definition loop_body (s : TraceSimulator) : result (Event * TraceSimulator) :=
  '(event, heap) ← Heapq.heappop Event_lt (event_list s);
  let s := set_event_list heap s in
  let s := set_curr_time np_float64 (time event) s in
  let s := set_area_under_q
             (op_kind (curr_time_kind s) (area_kind s))
             (area_under_q s
              + inject_Z (pkts_in_system s) * (curr_time s - last_event_time s))%Q
             s in
  let s := set_last_event_time (curr_time s) s in
  s ← match type event with
      | arrival => handle_arrival event s
      | departure => handle_departure event s
      end;
  Ok (event, s).

(** [while self.event_list], cut after [fuel] iterations. *)
Fixpoint loop (fuel : nat) (s : TraceSimulator)
  : result (list Event * TraceSimulator) :=
  match fuel with
  | O => Ok ([], s)
  | S fuel' =>
      match event_list s with
      | _ :: _ =>
          '(event, s) ← loop_body s;
          '(events, s) ← loop fuel' s;
          Ok (event :: events, s)
      | [] => Ok ([], s)
      end
  end.

(** [run]: the early [return] on an empty event list leaves the state
    as it is, which is also what the loop does there. *)
Definition run (fuel : nat) (s : TraceSimulator)
  : result (list Event * TraceSimulator) :=
  let s := prime s in
  match event_list s with
  | [] => Ok ([], s)
  | _ :: _ => loop fuel s
  end.

(** What [print_stats] computes before plotting; [N] and [T] may come
    from a numpy division. *)
Record Stats : Type := mkStats {
  N : Float;
  T : Float;
  pn_probs : list Q;
  total_prob : Q
}.

Fixpoint pn_loop (record : list Z) (total_arrivals : Z) (ns : list Z)
  : result (list Q) :=
  match ns with
  | [] => Ok []
  | n :: ns' =>
      c ← getitem record n;
      p ← truediv (inject_Z c) (inject_Z total_arrivals);
      ps ← pn_loop record total_arrivals ns';
      Ok (p :: ps)
  end.

Definition distribution (record : list Z) : result (list Q) :=
  let total_arrivals := sumZ record in
  pn_probs ← pn_loop record total_arrivals (map Z.of_nat (seq 0 11));
  c ← getitem record 11;
  p_over_10 ← truediv (inject_Z c) (inject_Z total_arrivals);
  Ok (pn_probs ++ [p_over_10]).

(** [print_stats].  [area_under_q / curr_time] is a numpy division as
    soon as one of the two is a numpy.float64, [total_delay /
    total_pkts] when [total_delay] is one ([total_pkts] is a Python
    int); the probabilities are quotients of Python ints. *)
Definition print_stats (s : TraceSimulator) : result Stats :=
  N ← float_div (op_kind (area_kind s) (curr_time_kind s))
                (area_under_q s) (curr_time s);
  T ← float_div (total_delay_kind s)
                (total_delay s) (inject_Z (total_pkts s));
  pn_probs ← distribution (queue_len_record s);
  Ok (mkStats N T pn_probs (sumQ pn_probs)).

End Lab1partB.

(** ** 001.py: [Packet], [Event], [Queue], [Server], [Simulator] *)

Module Sim001.

Record Packet : Type := mkPacket {
  number : Z;
  arrival_time : Q;
  size : Z;                       (* in Bytes *)
  departure_time : option Q       (* None until service begins *)
}.

Record Event : Type := mkEvent {
  time : Q;
  event_type : EventType;
  packet : Packet
}.

(** [Event.__lt__] *)
Definition Event_lt (self other : Event) : bool :=
  Qltb (time self) (time other).

(** [Queue]: the buffer of waiting packets. *)
Definition Queue : Type := list Packet.

Definition insert (packet : Packet) (buffer : Queue) : Queue :=
  buffer ++ [packet].

(** [Queue.remove]: [self.buffer.pop(0) if self.buffer else None] *)
Definition remove (buffer : Queue) : option Packet * Queue :=
  match buffer with
  | [] => (None, [])
  | p :: rest => (Some p, rest)
  end.

Record Server : Type := mkServer {
  service_rate_bps : Z;
  current_time : Z;
  busy : bool
}.

Record Simulator : Type := mkSim {
  npkts : Z;
  lambd : Q;
  event_list : list Event;
  queue : Queue;
  server : Server;
  sim_time : Q;                   (* self.time *)
  packet_count : Z;
  total_delay : Q;
  total_packets_in_system : Z;
  pn_counter : list Z;
  generated_packets : Z;
  draws : nat                     (* calls made to random.expovariate *)
}.

Definition init (npkts : Z) (lambd : Q) : Simulator :=
  {| npkts := npkts; lambd := lambd; event_list := []; queue := [];
     server := mkServer (10 * 10 ^ 9)%Z 0%Z false;
     sim_time := 0%Q; packet_count := 0%Z; total_delay := 0%Q;
     total_packets_in_system := 0%Z; pn_counter := replicate 11 0%Z;
     generated_packets := 0%Z; draws := 0%nat |}.

Definition set_event_list (h : list Event) (s : Simulator) :=
  mkSim (npkts s) (lambd s) h (queue s) (server s) (sim_time s)
        (packet_count s) (total_delay s) (total_packets_in_system s)
        (pn_counter s) (generated_packets s) (draws s).

Definition set_queue (q : Queue) (s : Simulator) :=
  mkSim (npkts s) (lambd s) (event_list s) q (server s) (sim_time s)
        (packet_count s) (total_delay s) (total_packets_in_system s)
        (pn_counter s) (generated_packets s) (draws s).

Definition set_busy (b : bool) (s : Simulator) :=
  mkSim (npkts s) (lambd s) (event_list s) (queue s)
        (mkServer (service_rate_bps (server s)) (current_time (server s)) b)
        (sim_time s) (packet_count s) (total_delay s)
        (total_packets_in_system s) (pn_counter s) (generated_packets s)
        (draws s).

Definition set_time (t : Q) (s : Simulator) :=
  mkSim (npkts s) (lambd s) (event_list s) (queue s) (server s) t
        (packet_count s) (total_delay s) (total_packets_in_system s)
        (pn_counter s) (generated_packets s) (draws s).

Definition set_packet_count (n : Z) (s : Simulator) :=
  mkSim (npkts s) (lambd s) (event_list s) (queue s) (server s) (sim_time s)
        n (total_delay s) (total_packets_in_system s)
        (pn_counter s) (generated_packets s) (draws s).

Definition set_total_delay (d : Q) (s : Simulator) :=
  mkSim (npkts s) (lambd s) (event_list s) (queue s) (server s) (sim_time s)
        (packet_count s) d (total_packets_in_system s)
        (pn_counter s) (generated_packets s) (draws s).

Definition set_total_packets_in_system (n : Z) (s : Simulator) :=
  mkSim (npkts s) (lambd s) (event_list s) (queue s) (server s) (sim_time s)
        (packet_count s) (total_delay s) n
        (pn_counter s) (generated_packets s) (draws s).

Definition set_pn_counter (c : list Z) (s : Simulator) :=
  mkSim (npkts s) (lambd s) (event_list s) (queue s) (server s) (sim_time s)
        (packet_count s) (total_delay s) (total_packets_in_system s)
        c (generated_packets s) (draws s).

Definition set_draws (n : nat) (s : Simulator) :=
  mkSim (npkts s) (lambd s) (event_list s) (queue s) (server s) (sim_time s)
        (packet_count s) (total_delay s) (total_packets_in_system s)
        (pn_counter s) (generated_packets s) n.

(** [int(x)] on a float: truncation toward zero. *)
Definition py_int (x : Q) : Z :=
  if Qltb x 0 then Qceiling x else Qfloor x.

(** [(size * 8) / service_rate_bps * 1e6], in microseconds. *)
Definition service_time_of (server : Server) (size : Z) : result Q :=
  x ← truediv (inject_Z (size * 8)) (inject_Z (service_rate_bps server));
  Ok (x * 1000000)%Q.

Section WithRandom.
Variable rand : nat -> Q.

Definition draw (rate : Q) (s : Simulator) : result (Q * Simulator) :=
  x ← expovariate (rand (draws s)) rate;
  Ok (x, set_draws (S (draws s)) s).

Definition schedule_event (event : Event) (s : Simulator) : Simulator :=
  set_event_list (Heapq.heappush Event_lt (event_list s) event) s.

Definition generate_packet (s : Simulator) : result (Packet * Simulator) :=
  '(x, s) ← draw (1 / 1250)%Q s;
  let size := py_int x in
  '(inter_arrival_time, s) ← draw (lambd s) s;
  let arrival_time := (sim_time s + inter_arrival_time)%Q in
  let packet := mkPacket (packet_count s) arrival_time size None in
  Ok (packet, set_packet_count (packet_count s + 1)%Z s).

(** Service start, as written twice in the source (in [handle_arrival]
    and in [handle_departure]): stamp the departure time on the packet
    and schedule its departure event. *)
Definition begin_service (p : Packet) (s : Simulator) : result Simulator :=
  service_time ← service_time_of (server s) (size p);
  let d := (sim_time s + service_time)%Q in
  let p := mkPacket (number p) (arrival_time p) (size p) (Some d) in
  Ok (schedule_event (mkEvent d departure p) s).

Definition handle_arrival (event : Event) (s : Simulator) : result Simulator :=
  let packet := packet event in
  let num_in_system := Z.of_nat (length (queue s)) in
  c ← incr_item (pn_counter s) (Z.min num_in_system 10);
  let s := set_pn_counter c s in
  s ← (if negb (busy (server s)) then
         let s := set_busy true s in
         begin_service packet s
       else Ok (set_queue (insert packet (queue s)) s));
  if decide (packet_count s < npkts s)%Z then
    '(new_packet, s) ← generate_packet s;
    Ok (schedule_event (mkEvent (arrival_time new_packet) arrival new_packet) s)
  else Ok s.

Definition handle_departure (event : Event) (s : Simulator) : result Simulator :=
  let packet := packet event in
  match departure_time packet with
  | None => Raise TypeError
  | Some departure_time =>
      let delay := (departure_time - arrival_time packet)%Q in
      let s := set_total_delay (total_delay s + delay)%Q s in
      let s := set_total_packets_in_system (total_packets_in_system s + 1)%Z s in
      if decide (0 < length (queue s))%nat then
        match remove (queue s) with
        | (Some next_packet, rest) =>
            let s := set_queue rest s in
            begin_service next_packet s
        | (None, _) => Raise AttributeError
        end
      else Ok (set_busy false s)
  end.

(** The statements of [run] before the loop. *)
Definition prime (s : Simulator) : result Simulator :=
  '(first_packet, s) ← generate_packet s;
  Ok (schedule_event (mkEvent (arrival_time first_packet) arrival first_packet) s).

Definition loop_body (s : Simulator) : result (Event * Simulator) :=
  '(event, heap) ← Heapq.heappop Event_lt (event_list s);
  let s := set_event_list heap s in
  let s := set_time (time event) s in
  s ← match event_type event with
      | arrival => handle_arrival event s
      | departure => handle_departure event s
      end;
  Ok (event, s).

(** [while self.packet_count < self.npkts or self.event_list:] with the
    [break] on an empty event list, cut after [fuel] iterations. *)
Fixpoint loop (fuel : nat) (s : Simulator) : result (list Event * Simulator) :=
  match fuel with
  | O => Ok ([], s)
  | S fuel' =>
      if decide ((packet_count s < npkts s)%Z \/ event_list s <> []) then
        match event_list s with
        | [] => Ok ([], s)
        | _ :: _ =>
            '(event, s) ← loop_body s;
            '(events, s) ← loop fuel' s;
            Ok (event :: events, s)
        end
      else Ok ([], s)
  end.

Definition run_events (fuel : nat) (s : Simulator)
  : result (list Event * Simulator) :=
  s ← prime s;
  loop fuel s.

End WithRandom.

Record Summary : Type := mkSummary {
  avg_packets : Q;                (* printed as N *)
  avg_delay : Q;                  (* printed as T *)
  probs : list Q;                 (* printed as P(0) .. P(10) *)
  bars : list Q                   (* heights passed to plt.bar *)
}.

(** [for n in range(11): prob = pn_counter[n] / total if total > 0 else 0] *)
Fixpoint prob_loop (counter : list Z) (total_arrivals : Z) (ns : list Z)
  : result (list Q) :=
  match ns with
  | [] => Ok []
  | n :: ns' =>
      prob ← (if decide (total_arrivals > 0)%Z then
                c ← getitem counter n;
                truediv (inject_Z c) (inject_Z total_arrivals)
              else Ok 0%Q);
      ps ← prob_loop counter total_arrivals ns';
      Ok (prob :: ps)
  end.

(** [[x / total_arrivals for x in self.pn_counter]] *)
Fixpoint bar_heights (counter : list Z) (total_arrivals : Z) : result (list Q) :=
  match counter with
  | [] => Ok []
  | x :: rest =>
      h ← truediv (inject_Z x) (inject_Z total_arrivals);
      hs ← bar_heights rest total_arrivals;
      Ok (h :: hs)
  end.

Definition print_summary (s : Simulator) : result Summary :=
  avg_delay ← truediv (total_delay s) (inject_Z (total_packets_in_system s));
  avg_packets ← truediv (total_delay s) (sim_time s);
  let total_arrivals := sumZ (pn_counter s) in
  probs ← prob_loop (pn_counter s) total_arrivals (map Z.of_nat (seq 0 11));
  bars ← bar_heights (pn_counter s) total_arrivals;
  Ok (mkSummary avg_packets avg_delay probs bars).

(** [run]: the event loop, then the summary. *)
Definition run (rand : nat -> Q) (fuel : nat) (s : Simulator)
  : result (list Event * Simulator * Summary) :=
  '(events, s) ← run_events rand fuel s;
  summary ← print_summary s;
  Ok (events, s, summary).

End Sim001.

(** ** The history of a run, read off the popped events *)

#[global] Instance EventType_eq_dec : EqDecision EventType.
Proof. solve_decision. Defined.

Module History.

Definition of_type (ty : EventType) (events : list Event) : list Event :=
  filter (fun e => type e = ty) events.

(** Packet ids of the events of one type, in list order. *)
Definition ids (ty : EventType) (events : list Event) : list Z :=
  map pkt_id (of_type ty events).

(** Number of events of one type. *)
Definition count (ty : EventType) (events : list Event) : Z :=
  Z.of_nat (length (of_type ty events)).

(** Packets in the system after the given events: arrivals minus
    departures. *)
Definition in_system (events : list Event) : Z :=
  (count arrival events - count departure events)%Z.

(** The simulated time after the given events (0 before the first). *)
Definition clock (events : list Event) : Q :=
  match last events with
  | Some e => time e
  | None => 0%Q
  end.

(** Area under the number-in-system step function: between two
    consecutive events the system holds [in_system] of the events seen
    so far. *)
Fixpoint area_from (seen rest : list Event) : Q :=
  match rest with
  | [] => 0%Q
  | e :: rest' =>
      (inject_Z (in_system seen) * (time e - clock seen)
       + area_from (seen ++ [e]) rest')%Q
  end.

Definition area (events : list Event) : Q := area_from [] events.

(** The time at which a packet arrived: the time of the first arrival
    event that carries its id. *)
Fixpoint arrival_stamp (events : list Event) (id : Z) : option Q :=
  match events with
  | [] => None
  | e :: rest =>
      if decide (type e = arrival /\ pkt_id e = id) then Some (time e)
      else arrival_stamp rest id
  end.

(** Sum over the departure events of departure time minus arrival
    time of the departing packet. *)
Fixpoint delay_from (seen rest : list Event) : Q :=
  match rest with
  | [] => 0%Q
  | e :: rest' =>
      ((match type e, arrival_stamp seen (pkt_id e) with
        | departure, Some t => time e - t
        | _, _ => 0
        end)
       + delay_from (seen ++ [e]) rest')%Q
  end.

Definition sojourn_sum (events : list Event) : Q := delay_from [] events.

(** Event times never decrease along the list. *)
Definition time_le (a b : Event) : Prop := (time a <= time b)%Q.

End History.

(** ** Reachable states and invariants of Lab1partA *)

Module InvA.
Import Lab1partA History.

(** [reach rand s0 events s]: from [s0] the loop pops [events], in
    this order, and arrives at [s] with the loop condition checked
    before every iteration. *)
Inductive reach (rand : nat -> Q) (s0 : MM1Simulator)
  : list Event -> MM1Simulator -> Prop :=
| reach_nil : reach rand s0 [] s0
| reach_snoc events s e s' :
    reach rand s0 events s ->
    (total_pkts s < npkts s)%Z ->
    loop_body rand s = Ok (e, s') ->
    reach rand s0 (events ++ [e]) s'.

(** The server and the event list agree: a departure is pending exactly
    when a packet is in service, and it carries the id of the head of
    the queue. *)
Definition service_ok (s : MM1Simulator) : Prop :=
  if in_service s then
    exists id t rest,
      queue s = (id, t) :: rest /\ ids departure (event_list s) = [id]
  else queue s = [] /\ ids departure (event_list s) = [].

Record inv (s : MM1Simulator) : Prop := mkInv {
  inv_rate : ~ (lambd s == 0)%Q;
  inv_arrival : ids arrival (event_list s) = [(next_pkt_id s - 1)%Z];
  inv_service : service_ok s;
  inv_count : pkts_in_system s = Z.of_nat (length (queue s));
  inv_record : length (queue_len_record s) = 12%nat;
  inv_heap : Heapq.heap_ok Event_lt (event_list s)
}.

(** The accumulators and the queue agree with the history. *)
Record hist (events : list Event) (s : MM1Simulator) : Prop := mkHist {
  hist_fifo : ids arrival events = ids departure events ++ map fst (queue s);
  hist_ids : ids arrival events
             = map Z.of_nat (seq 0 (length (of_type arrival events)));
  hist_next : next_pkt_id s = (count arrival events + 1)%Z;
  hist_stamps : Forall (fun entry => arrival_stamp events (fst entry)
                                     = Some (snd entry)) (queue s);
  hist_clock : last_event_time s = clock events /\ curr_time s = clock events;
  hist_area : (area_under_q s == area events)%Q;
  hist_pkts : total_pkts s = count departure events;
  hist_delay : (total_delay s == sojourn_sum events)%Q;
  hist_record : sumZ (queue_len_record s) = count arrival events
}.

(** The service time computed by [start_service] from the drawn size. *)
Definition service_time (pkt_size_bits : Q) : Q :=
  ((pkt_size_bits / LINK_RATE_BPS) * 1000000)%Q.

(** What [start_service] adds to the event list when the head of the
    queue is [id] and the next value of the random source is the size. *)
Definition departure_of (rand : nat -> Q) (now : Q) (k : nat) (id : Z) : Event :=
  mkEvent (now + service_time (rand k))%Q departure id.

(** One iteration that pops the arrival [e] and leaves the heap [h]. *)
Record arrival_post (rand : nat -> Q) (s : MM1Simulator) (e : Event)
       (h : list Event) (s' : MM1Simulator) : Prop := mkArrivalPost {
  ap_npkts : npkts s' = npkts s;
  ap_lambd : lambd s' = lambd s;
  ap_queue : queue s' = queue s ++ [(pkt_id e, time e)];
  ap_curr : curr_time s' = time e;
  ap_last : last_event_time s' = time e;
  ap_area : area_under_q s'
            = (area_under_q s
               + inject_Z (pkts_in_system s) * (time e - last_event_time s))%Q;
  ap_count : pkts_in_system s' = (pkts_in_system s + 1)%Z;
  ap_next : next_pkt_id s' = (next_pkt_id s + 1)%Z;
  ap_delay : total_delay s' = total_delay s;
  ap_pkts : total_pkts s' = total_pkts s;
  ap_record :
    let index := if decide (pkts_in_system s <= 10)%Z
                 then pkts_in_system s else 11%Z in
    exists x, queue_len_record s !! Z.to_nat index = Some x /\
              queue_len_record s'
              = <[Z.to_nat index := (x + 1)%Z]> (queue_len_record s);
  ap_service : in_service s' = true;
  ap_events :
    let next := mkEvent (time e + rand (draws s))%Q arrival (next_pkt_id s) in
    if in_service s then
      event_list s' = Heapq.heappush Event_lt h next /\
      draws s' = S (draws s)
    else
      exists id t rest,
        queue s' = (id, t) :: rest /\
        event_list s'
        = Heapq.heappush Event_lt (Heapq.heappush Event_lt h next)
                         (departure_of rand (time e) (S (draws s)) id) /\
        draws s' = S (S (draws s))
}.

(** One iteration that pops the departure [e] and leaves the heap [h],
    when the queue is [(id, t) :: rest]. *)
Record departure_post (rand : nat -> Q) (s : MM1Simulator) (e : Event)
       (h : list Event) (t : Q) (rest : list (Z * Q))
       (s' : MM1Simulator) : Prop := mkDeparturePost {
  dp_npkts : npkts s' = npkts s;
  dp_lambd : lambd s' = lambd s;
  dp_queue : queue s' = rest;
  dp_curr : curr_time s' = time e;
  dp_last : last_event_time s' = time e;
  dp_area : area_under_q s'
            = (area_under_q s
               + inject_Z (pkts_in_system s) * (time e - last_event_time s))%Q;
  dp_count : pkts_in_system s' = (pkts_in_system s - 1)%Z;
  dp_next : next_pkt_id s' = next_pkt_id s;
  dp_delay : total_delay s' = (total_delay s + (time e - t))%Q;
  dp_pkts : total_pkts s' = (total_pkts s + 1)%Z;
  dp_record : queue_len_record s' = queue_len_record s;
  dp_events :
    match rest with
    | [] => in_service s' = false /\ event_list s' = h /\ draws s' = draws s
    | (id, _) :: _ =>
        in_service s' = true /\
        event_list s'
        = Heapq.heappush Event_lt h (departure_of rand (time e) (draws s) id) /\
        draws s' = S (draws s)
    end
}.

(** No pending event lies in the past. *)
Definition future_ok (s : MM1Simulator) : Prop :=
  Forall (fun e => (curr_time s <= time e)%Q) (event_list s).

(** Along a run: the popped events are sorted by time, none of them
    is later than the clock, and nothing pending is earlier. *)
Record timed (events : list Event) (s : MM1Simulator) : Prop := mkTimed {
  timed_sorted : StronglySorted time_le events;
  timed_start : Forall (fun e => (0 <= time e)%Q) events;
  timed_past : Forall (fun e => (time e <= curr_time s)%Q) events;
  timed_clock : (0 <= curr_time s)%Q;
  timed_future : future_ok s
}.

End InvA.

(** ** Reachable states and invariants of Lab1partB *)

Module InvB.
Import Lab1partB History.

Inductive reach (s0 : TraceSimulator)
  : list Event -> TraceSimulator -> Prop :=
| reach_nil : reach s0 [] s0
| reach_snoc events s e s' :
    reach s0 events s ->
    event_list s <> [] ->
    loop_body s = Ok (e, s') ->
    reach s0 (events ++ [e]) s'.

(** [(pkt_size_bytes * 8 / LINK_RATE_BPS) * 1e6], as computed in
    [handle_arrival]. *)
Definition service_time_us (pkt_size_bytes : Scalar) : Q :=
  ((scalar_float (scalar_mul pkt_size_bytes 8) / LINK_RATE_BPS)
   * 1000000)%Q.

Definition entry_id (entry : Z * Q * Q) : Z := entry.1.1.
Definition entry_arrival (entry : Z * Q * Q) : Q := entry.1.2.
Definition entry_service (entry : Z * Q * Q) : Q := entry.2.

Definition service_ok (s : TraceSimulator) : Prop :=
  if in_service s then
    exists entry rest,
      queue s = entry :: rest /\
      ids departure (event_list s) = [entry_id entry]
  else queue s = [] /\ ids departure (event_list s) = [].

(** A row label of the trace. *)
Definition label_ok (trace : list Row) (id : Z) : Prop :=
  (0 <= id < Z.of_nat (length trace))%Z.

Record inv (s : TraceSimulator) : Prop := mkInv {
  inv_labels : Forall (label_ok (trace s)) (ids arrival (event_list s));
  inv_service : service_ok s;
  inv_count : pkts_in_system s = Z.of_nat (length (queue s));
  inv_record : length (queue_len_record s) = 12%nat;
  inv_heap : Heapq.heap_ok Event_lt (event_list s)
}.

(** Every queue entry carries the service time of its row. *)
Definition entry_ok (trace : list Row) (entry : Z * Q * Q) : Prop :=
  exists row, trace !! Z.to_nat (entry_id entry) = Some row /\
              entry_service entry = service_time_us (snd row).

Record hist (events : list Event) (s : TraceSimulator) : Prop := mkHist {
  hist_fifo : ids arrival events
              = ids departure events ++ map entry_id (queue s);
  hist_rows : ids arrival events ++ ids arrival (event_list s)
              ≡ₚ map Z.of_nat (seq 0 (length (trace s)));
  hist_stamps : Forall (fun entry => arrival_stamp events (entry_id entry)
                                     = Some (entry_arrival entry)) (queue s);
  hist_service : Forall (entry_ok (trace s)) (queue s);
  hist_clock : last_event_time s = clock events /\ curr_time s = clock events;
  hist_area : (area_under_q s == area events)%Q;
  hist_pkts : total_pkts s = count departure events;
  hist_delay : (total_delay s == sojourn_sum events)%Q;
  hist_record : sumZ (queue_len_record s) = count arrival events
}.

(** One iteration that pops the arrival [e] of row [row]. *)
Record arrival_post (s : TraceSimulator) (e : Event) (h : list Event)
       (row : Row) (s' : TraceSimulator) : Prop := mkArrivalPost {
  ap_trace : trace s' = trace s;
  ap_queue : queue s'
             = queue s ++ [(pkt_id e, time e, service_time_us (snd row))];
  ap_curr : curr_time s' = time e;
  ap_last : last_event_time s' = time e;
  ap_area : area_under_q s'
            = (area_under_q s
               + inject_Z (pkts_in_system s) * (time e - last_event_time s))%Q;
  ap_count : pkts_in_system s' = (pkts_in_system s + 1)%Z;
  ap_delay : total_delay s' = total_delay s;
  ap_pkts : total_pkts s' = total_pkts s;
  ap_record :
    let index := if decide (pkts_in_system s <= 10)%Z
                 then pkts_in_system s else 11%Z in
    exists x, queue_len_record s !! Z.to_nat index = Some x /\
              queue_len_record s'
              = <[Z.to_nat index := (x + 1)%Z]> (queue_len_record s);
  ap_service : in_service s' = true;
  ap_kinds : curr_time_kind s' = np_float64 /\ area_kind s' = np_float64 /\
             total_delay_kind s' = total_delay_kind s;
  ap_events :
    if in_service s then event_list s' = h
    else
      exists entry rest,
        queue s' = entry :: rest /\
        event_list s'
        = Heapq.heappush Event_lt h
            (mkEvent (time e + entry_service entry)%Q departure
                     (entry_id entry))
}.

(** One iteration that pops the departure [e] when the queue is
    [entry :: rest]. *)
Record departure_post (s : TraceSimulator) (e : Event) (h : list Event)
       (entry : Z * Q * Q) (rest : list (Z * Q * Q))
       (s' : TraceSimulator) : Prop := mkDeparturePost {
  dp_trace : trace s' = trace s;
  dp_queue : queue s' = rest;
  dp_curr : curr_time s' = time e;
  dp_last : last_event_time s' = time e;
  dp_area : area_under_q s'
            = (area_under_q s
               + inject_Z (pkts_in_system s) * (time e - last_event_time s))%Q;
  dp_count : pkts_in_system s' = (pkts_in_system s - 1)%Z;
  dp_delay : total_delay s' = (total_delay s + (time e - entry_arrival entry))%Q;
  dp_pkts : total_pkts s' = (total_pkts s + 1)%Z;
  dp_record : queue_len_record s' = queue_len_record s;
  dp_kinds : curr_time_kind s' = np_float64 /\ area_kind s' = np_float64 /\
             total_delay_kind s' = np_float64;
  dp_events :
    match rest with
    | [] => in_service s' = false /\ event_list s' = h
    | next :: _ =>
        in_service s' = true /\
        event_list s'
        = Heapq.heappush Event_lt h
            (mkEvent (time e + entry_service next)%Q departure (entry_id next))
    end
}.


(** Events still to be popped before the event list is empty: every
    pending arrival will be popped and will depart, every queued packet
    will depart. *)
Definition remaining (s : TraceSimulator) : nat :=
  2 * length (ids arrival (event_list s)) + length (queue s).

End InvB.

(** ** Reachable states and invariants of 001.py *)

Module Inv001.

(** An event of 001.py seen as (time, type, packet number). *)
Definition plain (e : Sim001.Event) : Event :=
  mkEvent (Sim001.time e) (Sim001.event_type e)
          (Sim001.number (Sim001.packet e)).

Definition history (events : list Sim001.Event) : list Event :=
  map plain events.

Import Sim001.

Inductive reach (rand : nat -> Q) (s0 : Simulator)
  : list Sim001.Event -> Simulator -> Prop :=
| reach_nil : reach rand s0 [] s0
| reach_snoc events s e s' :
    reach rand s0 events s ->
    event_list s <> [] ->
    loop_body rand s = Ok (e, s') ->
    reach rand s0 (events ++ [e]) s'.

Definition of_type (ty : EventType) (events : list Sim001.Event)
  : list Sim001.Event :=
  filter (fun e => event_type e = ty) events.

(** [(size * 8) / service_rate_bps * 1e6] *)
Definition service_time (rate : Z) (size : Z) : Q :=
  ((inject_Z (size * 8) / inject_Z rate) * 1000000)%Q.

(** The departure event created when packet [p] begins service at
    time [now]. *)
Definition departure_ev (rate : Z) (now : Q) (p : Packet) : Sim001.Event :=
  let d := (now + service_time rate (size p))%Q in
  mkEvent d departure (mkPacket (number p) (arrival_time p) (size p) (Some d)).

(** The packet made by [generate_packet] and its arrival event. *)
Definition new_packet (rand : nat -> Q) (s : Simulator) (now : Q) : Packet :=
  mkPacket (packet_count s) (now + rand (S (draws s)))%Q
           (py_int (rand (draws s))) None.

Definition arrival_ev (p : Packet) : Sim001.Event :=
  mkEvent (arrival_time p) arrival p.

(** The packets in the system: the one in service, whose departure is
    pending, then the waiting ones. *)
Definition in_system_packets (s : Simulator) : list Packet :=
  map packet (of_type departure (event_list s)) ++ queue s.

Definition busy_ok (s : Simulator) : Prop :=
  if busy (server s) then
    exists d, of_type departure (event_list s) = [d] /\
              departure_time (packet d) = Some (time d)
  else of_type departure (event_list s) = [] /\ queue s = [].

Record inv (s : Simulator) : Prop := mkInv {
  inv_rate : ~ (lambd s == 0)%Q;
  inv_server : service_rate_bps (server s) <> 0%Z;
  inv_busy : busy_ok s;
  inv_arrivals : Forall (fun a => time a = arrival_time (packet a))
                        (of_type arrival (event_list s));
  inv_counter : length (pn_counter s) = 11%nat;
  inv_heap : Heapq.heap_ok Event_lt (event_list s)
}.

(** Sum of departure time minus arrival time over the departures. *)
Definition delays (events : list Sim001.Event) : Q :=
  sumQ (map (fun e => match event_type e with
                      | departure => (time e - arrival_time (packet e))%Q
                      | arrival => 0%Q
                      end) events).

(** Time spent so far by the packets that are still in the system. *)
Definition residence (now : Q) (ps : list Packet) : Q :=
  sumQ (map (fun p => (now - arrival_time p)%Q) ps).

Record hist (events : list Sim001.Event) (s : Simulator) : Prop := mkHist {
  hist_fifo : History.ids arrival (history events)
              = History.ids departure (history events)
                ++ map number (in_system_packets s);
  hist_clock : sim_time s = History.clock (history events);
  hist_delay : (total_delay s == delays events)%Q;
  hist_count : total_packets_in_system s
               = History.count departure (history events);
  hist_area : (History.area (history events)
               == total_delay s + residence (sim_time s) (in_system_packets s))%Q;
  hist_counter : sumZ (pn_counter s) = History.count arrival (history events)
}.

(** One iteration that pops the arrival [e]. *)
Record arrival_post (rand : nat -> Q) (s : Simulator) (e : Sim001.Event)
       (h : list Sim001.Event) (s' : Simulator) : Prop := mkArrivalPost {
  ap_npkts : npkts s' = npkts s;
  ap_lambd : lambd s' = lambd s;
  ap_rate : service_rate_bps (server s') = service_rate_bps (server s);
  ap_time : sim_time s' = time e;
  ap_delay : total_delay s' = total_delay s;
  ap_total : total_packets_in_system s' = total_packets_in_system s;
  ap_counter :
    let k := Z.to_nat (Z.min (Z.of_nat (length (queue s))) 10) in
    exists x, pn_counter s !! k = Some x /\
              pn_counter s' = <[k := (x + 1)%Z]> (pn_counter s);
  ap_busy : busy (server s') = true;
  ap_queue : queue s' = if busy (server s) then queue s ++ [packet e]
                        else queue s;
  ap_events :
    let h1 := if busy (server s) then h
              else Heapq.heappush Event_lt h
                     (departure_ev (service_rate_bps (server s)) (time e)
                                   (packet e)) in
    if decide (packet_count s < npkts s)%Z then
      event_list s'
      = Heapq.heappush Event_lt h1 (arrival_ev (new_packet rand s (time e))) /\
      packet_count s' = (packet_count s + 1)%Z /\
      draws s' = S (S (draws s))
    else
      event_list s' = h1 /\ packet_count s' = packet_count s /\
      draws s' = draws s
}.

(** One iteration that pops the departure [e], stamped [dt]. *)
Record departure_post (s : Simulator) (e : Sim001.Event)
       (h : list Sim001.Event) (dt : Q) (s' : Simulator) : Prop :=
  mkDeparturePost {
  dp_npkts : npkts s' = npkts s;
  dp_lambd : lambd s' = lambd s;
  dp_rate : service_rate_bps (server s') = service_rate_bps (server s);
  dp_time : sim_time s' = time e;
  dp_delay : total_delay s'
             = (total_delay s + (dt - arrival_time (packet e)))%Q;
  dp_total : total_packets_in_system s' = (total_packets_in_system s + 1)%Z;
  dp_counter : pn_counter s' = pn_counter s;
  dp_count : packet_count s' = packet_count s;
  dp_draws : draws s' = draws s;
  dp_events :
    match queue s with
    | [] => busy (server s') = false /\ queue s' = [] /\ event_list s' = h
    | p :: rest =>
        busy (server s') = busy (server s) /\ queue s' = rest /\
        event_list s'
        = Heapq.heappush Event_lt h
            (departure_ev (service_rate_bps (server s)) (time e) p)
    end
}.

(** What the history needs to know of a packet in the system. *)
Definition key (p : Packet) : Z * Q := (number p, arrival_time p).

End Inv001.

(** ** Concrete runs used to exercise the theorems *)

Module Scenario.

(** A random source for Lab1partA: gaps 1/2 and 3, a first packet of
    1/4 bit, a second of 20000 bits, then the call number. *)
Definition rand_a (k : nat) : Q :=
  match k with
  | 0%nat => (1 # 2)%Q
  | 1%nat => 3%Q
  | 2%nat => (1 # 4)%Q
  | 3%nat => 20000%Q
  | _ => inject_Z (Z.of_nat k)
  end.

(** A random source for 001.py: packets of 1250 bytes, gaps of 1/2. *)
Definition rand_001 (k : nat) : Q :=
  match k with
  | 0%nat => 1250%Q
  | 1%nat => (1 # 2)%Q
  | 2%nat => 1250%Q
  | 3%nat => (1 # 2)%Q
  | _ => inject_Z (Z.of_nat k)
  end.

(** Scenario A of the specification: three packets of 1000 bytes. *)
Definition trace_a : list Lab1partB.Row :=
  [(0%Q, int64 1000); (10%Q, int64 1000); (0%Q, int64 1000)].

(** A trace whose rows have non-positive fields. *)
Definition trace_bad : list Lab1partB.Row :=
  [(0%Q, int64 0); ((-1)%Q, int64 (-1000))].

(** A trace with one row of 2^60 bytes, in an integer column. *)
Definition trace_huge : list Lab1partB.Row :=
  [(0%Q, int64 (2 ^ 60))].


(** A random source for Lab1partA with gaps of 1 whose third value, the
    size drawn when the first packet starts service, is [bits]. *)
Definition rand_bits (bits : Q) (k : nat) : Q :=
  match k with
  | 2%nat => bits
  | _ => 1%Q
  end.

(** What [random.expovariate] can return at the rate -1: gaps of -1;
    the third value is a size of 10000 bits, drawn at a positive rate. *)
Definition rand_neg (k : nat) : Q :=
  match k with
  | 2%nat => 10000%Q
  | _ => (-1)%Q
  end.

End Scenario.

(** The runs of the scenarios.  They are notations, so that a statement
    about one of them is a statement about the run itself. *)

(** Six iterations of Lab1partA with three packets requested. *)
Abbreviation scenario_run_a :=
  (Lab1partA.run Scenario.rand_a 6 (Lab1partA.init 3 1)).

(** Lab1partA stopped after its first arrival: packet 0 is in service
    and its departure is pending. *)
Abbreviation scenario_run_a_busy :=
  (Lab1partA.run (fun _ => 1%Q) 1 (Lab1partA.init 3 1)).

(** Scenario A replayed by Lab1partB, to the end and up to the fourth
    event. *)
Abbreviation scenario_run_b :=
  (Lab1partB.run 6 (Lab1partB.init Scenario.trace_a)).

Abbreviation scenario_run_b_busy :=
  (Lab1partB.run 4 (Lab1partB.init Scenario.trace_a)).

(** 001.py with two packets, run until the event list is empty. *)
Abbreviation scenario_run_001 :=
  (Sim001.run_events Scenario.rand_001 10 (Sim001.init 2 1)).

(** 001.py after its first arrival has been handled: packet 0 is in
    service, nobody waits, and the arrival of packet 1 is pending. *)
Abbreviation scenario_busy_001 :=
  (Sim001.run_events Scenario.rand_001 1 (Sim001.init 2 1)).


(** * Properties *)

(** ** heapq keeps a heap and pops a minimum *)

Module HeapqFacts.
Import Heapq.

Section Order.
Context {A : Type} (lt : A -> A -> bool).
Hypothesis lt_irrefl : forall x, lt x x = false.
Hypothesis le_trans : forall x y z, le lt x y -> le lt y z -> le lt x z.
Hypothesis lt_asym : forall x y, lt x y = true -> le lt x y.

Lemma parent_lt pos : 0 < pos -> parent pos < pos.
Proof. unfold parent. lia. Qed.

Lemma parent_child c pos :
  0 < c -> parent c = pos <-> c = 2 * pos + 1 \/ c = 2 * pos + 2.
Proof. unfold parent. lia. Qed.

Lemma siftdown_loop_length fuel : forall (heap : list A) newitem startpos pos,
  length (siftdown_loop lt fuel heap newitem startpos pos) = length heap.
Proof.
  induction fuel as [|fuel IH]; intros heap newitem startpos pos; simpl.
  - by rewrite length_insert.
  - repeat case_match; rewrite ?IH, ?length_insert; done.
Qed.

Lemma siftdown_loop_perm fuel : forall (heap : list A) newitem pos,
  pos < length heap ->
  siftdown_loop lt fuel heap newitem 0 pos ≡ₚ <[pos := newitem]> heap.
Proof.
  induction fuel as [|fuel IH]; intros heap newitem pos Hpos; simpl; [done|].
  destruct (decide (0 < pos)) as [Hgt|]; [|done].
  destruct (heap !! parent pos) as [p|] eqn:Hp; [|done].
  destruct (lt newitem p); [|done].
  pose proof (parent_lt pos Hgt) as Hlt.
  rewrite IH by (rewrite length_insert; lia).
  rewrite <- (list_insert_insert_eq heap pos p newitem).
  apply Permutation_insert_swap.
  - by apply list_lookup_insert_eq.
  - rewrite list_lookup_insert_ne by lia. done.
Qed.

Lemma siftdown_perm (heap : list A) pos :
  siftdown lt heap 0 pos ≡ₚ heap.
Proof.
  unfold siftdown. destruct (heap !! pos) as [x|] eqn:Hx; [|done].
  rewrite siftdown_loop_perm by (by eapply lookup_lt_Some).
  by rewrite list_insert_id.
Qed.

Lemma heappush_perm (heap : list A) item :
  heappush lt heap item ≡ₚ item :: heap.
Proof.
  unfold heappush. rewrite siftdown_perm.
  symmetry. apply Permutation_cons_append.
Qed.

Lemma siftup_loop_length fuel : forall (heap : list A) pos,
  length (siftup_loop lt fuel heap pos).1 = length heap.
Proof.
  induction fuel as [|fuel IH]; intros heap pos; cbn [siftup_loop fst]; [done|].
  repeat case_match; cbn [fst]; rewrite ?IH, ?length_insert; done.
Qed.

Lemma smaller_child_cases (heap : list A) childpos :
  smaller_child lt heap childpos = childpos \/
  smaller_child lt heap childpos = childpos + 1 /\
  childpos + 1 < length heap.
Proof.
  unfold smaller_child.
  destruct (heap !! childpos) as [l|]; [|by left].
  destruct (heap !! (childpos + 1)) as [r|] eqn:Hr; [|by left].
  destruct (negb (lt l r)); [right|by left].
  split; [done|]. by eapply lookup_lt_Some.
Qed.

Lemma siftup_loop_pos fuel : forall (heap : list A) pos,
  pos < length heap ->
  (siftup_loop lt fuel heap pos).2 < length heap.
Proof.
  induction fuel as [|fuel IH]; intros heap pos Hpos; cbn [siftup_loop snd]; [done|].
  destruct (decide (2 * pos + 1 < length heap)) as [Hc|]; [|done].
  destruct (heap !! smaller_child lt heap _) as [c|] eqn:Hch; [|done].
  apply lookup_lt_Some in Hch.
  specialize (IH (<[pos := c]> heap) (smaller_child lt heap (2 * pos + 1))).
  rewrite length_insert in IH. by apply IH.
Qed.

Lemma siftup_loop_perm fuel : forall (heap : list A) newitem pos,
  pos < length heap ->
  <[(siftup_loop lt fuel heap pos).2 := newitem]>
    (siftup_loop lt fuel heap pos).1 ≡ₚ <[pos := newitem]> heap.
Proof.
  induction fuel as [|fuel IH]; intros heap newitem pos Hpos;
    cbn [siftup_loop fst snd]; [done|].
  destruct (decide (2 * pos + 1 < length heap)) as [Hc|]; [|done].
  set (cp := smaller_child lt heap (2 * pos + 1)).
  assert (pos < cp) as Hlt.
  { subst cp. destruct (smaller_child_cases heap (2 * pos + 1)); lia. }
  destruct (heap !! cp) as [c|] eqn:Hch; [|done].
  pose proof (lookup_lt_Some _ _ _ Hch) as Hcl.
  rewrite IH by (by rewrite length_insert).
  rewrite <- (list_insert_insert_eq heap pos c newitem).
  apply Permutation_insert_swap.
  - by apply list_lookup_insert_eq.
  - rewrite list_lookup_insert_ne by lia. done.
Qed.

Lemma siftup_perm (heap : list A) :
  siftup lt heap 0 ≡ₚ heap.
Proof.
  unfold siftup. destruct (heap !! 0) as [x|] eqn:Hx; [|done].
  pose proof (lookup_lt_Some _ _ _ Hx) as Hlen.
  pose proof (siftup_loop_perm (length heap) heap x 0 Hlen) as Hp.
  destruct (siftup_loop lt (length heap) heap 0) as [h pos]; simpl in *.
  rewrite siftdown_perm, Hp. by rewrite list_insert_id.
Qed.

Lemma heappop_perm (heap : list A) item heap' :
  heappop lt heap = Ok (item, heap') -> heap ≡ₚ item :: heap'.
Proof.
  unfold heappop. destruct (last heap) as [lastelt|] eqn:Hlast; [|done].
  apply last_Some in Hlast as [front ->].
  rewrite removelast_last.
  destruct front as [|returnitem rest]; intros [= <- <-]; [done|].
  simpl. rewrite siftup_perm.
  by rewrite <- Permutation_cons_append.
Qed.

Lemma heappop_nonempty (heap : list A) :
  heap <> [] -> exists item heap', heappop lt heap = Ok (item, heap').
Proof.
  intros Hne. unfold heappop.
  destruct (last heap) as [lastelt|] eqn:Hlast.
  - destruct (removelast heap); eauto.
  - apply last_None in Hlast. done.
Qed.

Lemma heappop_empty_inv (heap : list A) e :
  heappop lt heap = Raise e -> heap = [].
Proof.
  unfold heappop. destruct (last heap) eqn:Hlast.
  - by destruct (removelast heap).
  - intros _. by apply last_None.
Qed.

(** Reading an array after the two writes of one loop step. *)
Lemma lookup_swap (h : list A) i j a b k :
  i <> j -> i < length h -> j < length h ->
  <[i := a]> (<[j := b]> h) !! k =
  if decide (k = i) then Some a
  else if decide (k = j) then Some b else h !! k.
Proof.
  intros Hne Hi Hj. destruct (decide (k = i)) as [->|].
  - apply list_lookup_insert_eq. by rewrite length_insert.
  - rewrite list_lookup_insert_ne by done.
    destruct (decide (k = j)) as [->|].
    + by apply list_lookup_insert_eq.
    + by rewrite list_lookup_insert_ne.
Qed.

Lemma le_refl x : le lt x x.
Proof. apply lt_irrefl. Qed.

Lemma hole_closed (h : list A) pos :
  hole_ok lt h pos -> below_ok lt h pos -> ordered_at lt h pos ->
  heap_ok lt h.
Proof.
  intros [Hedges _] Hbelow Hpos i.
  destruct (decide (i = pos)) as [->|Hi]; [done|].
  destruct (decide (parent i = pos)) as [Hp|Hp]; [|by apply Hedges].
  intros x p Hgt Hx Hpx. rewrite Hp in Hpx. by eapply Hbelow.
Qed.

(** One step of [_siftdown]: the item moves from [pos] to its parent. *)
Lemma swap_up_ok (h : list A) pos n p :
  0 < pos -> h !! pos = Some n -> h !! parent pos = Some p ->
  lt n p = true ->
  hole_ok lt h pos -> below_ok lt h pos ->
  hole_ok lt (<[parent pos := n]> (<[pos := p]> h)) (parent pos) /\
  below_ok lt (<[parent pos := n]> (<[pos := p]> h)) (parent pos).
Proof.
  intros Hgt Hn Hp Hlt [Hedges Hgrand] Hbelow.
  pose proof (parent_lt pos Hgt) as Hpp.
  pose proof (lookup_lt_Some _ _ _ Hn) as Hlen.
  assert (forall k, <[parent pos := n]> (<[pos := p]> h) !! k =
            if decide (k = parent pos) then Some n
            else if decide (k = pos) then Some p else h !! k) as Hlook.
  { intros k. apply lookup_swap; lia. }
  assert (le lt n p) as Hnp by (by apply lt_asym).
  assert (0 < parent pos -> forall g, h !! parent (parent pos) = Some g ->
          le lt g p) as Hup.
  { intros Hgt' g Hg. pose proof (parent_lt _ Hgt').
    apply (Hedges (parent pos)); [lia|lia|done|done|done]. }
  split; [split|].
  - intros i Hi Hpi x q Hi0 Hx Hq. rewrite Hlook in Hx, Hq.
    pose proof (parent_lt i Hi0).
    destruct (decide (i = parent pos)); [done|].
    destruct (decide (parent i = parent pos)); [done|].
    destruct (decide (i = pos)) as [->|]; [done|].
    destruct (decide (parent i = pos)) as [Hip|].
    + simplify_eq. eapply (Hgrand i); eauto.
    + by eapply (Hedges i).
  - intros c x g Hgt' Hc0 Hc Hx Hg. rewrite Hlook in Hx, Hg.
    pose proof (parent_lt _ Hgt'). pose proof (parent_lt _ Hc0).
    destruct (decide (parent (parent pos) = parent pos)); [lia|].
    destruct (decide (parent (parent pos) = pos)); [lia|].
    destruct (decide (c = parent pos)); [lia|].
    destruct (decide (c = pos)) as [->|].
    + simplify_eq. by apply Hup.
    + apply (le_trans g p x); [by apply Hup|].
      apply (Hedges c); [done|lia|done|done|by rewrite Hc].
  - intros c x y Hc0 Hc Hx Hy. rewrite Hlook in Hx, Hy.
    pose proof (parent_lt _ Hc0).
    destruct (decide (parent pos = parent pos)); [|done].
    destruct (decide (c = parent pos)); [lia|].
    simplify_eq.
    destruct (decide (c = pos)) as [->|]; [by simplify_eq|].
    apply (le_trans y p x); [done|].
    apply (Hedges c); [done|lia|done|done|by rewrite Hc].
Qed.

Lemma siftdown_loop_ok fuel : forall (heap : list A) newitem pos,
  pos <= fuel -> pos < length heap ->
  hole_ok lt (<[pos := newitem]> heap) pos ->
  below_ok lt (<[pos := newitem]> heap) pos ->
  heap_ok lt (siftdown_loop lt fuel heap newitem 0 pos).
Proof.
  induction fuel as [|fuel IH]; intros heap newitem pos Hfuel Hpos Hhole Hbelow.
  - simpl. apply (hole_closed _ pos); [done|done|].
    intros x p Hgt. lia.
  - simpl. destruct (decide (0 < pos)) as [Hgt|Hz].
    2:{ apply (hole_closed _ pos); [done|done|]. intros x p ?. lia. }
    pose proof (parent_lt pos Hgt) as Hpp.
    destruct (heap !! parent pos) as [p|] eqn:Hp.
    2:{ apply lookup_ge_None in Hp. lia. }
    assert (<[pos := newitem]> heap !! pos = Some newitem) as Hn
      by (by apply list_lookup_insert_eq).
    assert (<[pos := newitem]> heap !! parent pos = Some p) as Hp'
      by (rewrite list_lookup_insert_ne by lia; done).
    destruct (lt newitem p) eqn:Hlt.
    + destruct (swap_up_ok _ pos newitem p Hgt Hn Hp' Hlt Hhole Hbelow)
        as [Hh Hb].
      rewrite list_insert_insert_eq in Hh, Hb.
      apply IH; [lia|rewrite length_insert; lia|done|done].
    + apply (hole_closed _ pos); [done|done|].
      intros x q _ Hx Hq. by simplify_eq.
Qed.

(** The child chosen by [_siftup] is not larger than its sibling. *)
Lemma smaller_child_least (h : list A) pos xc :
  2 * pos + 1 < length h ->
  h !! smaller_child lt h (2 * pos + 1) = Some xc ->
  forall c x, 0 < c -> parent c = pos -> h !! c = Some x -> le lt xc x.
Proof.
  intros Hlen Hxc c x Hc0 Hc Hx. apply parent_child in Hc; [|done].
  unfold smaller_child in Hxc.
  destruct (h !! (2 * pos + 1)) as [l|] eqn:Hl.
  2:{ apply lookup_ge_None in Hl. lia. }
  destruct (h !! (2 * pos + 1 + 1)) as [r|] eqn:Hr.
  - destruct (lt l r) eqn:Hlr; cbn [negb] in Hxc.
    + rewrite Hl in Hxc. simplify_eq. destruct Hc as [->| ->].
      * rewrite Hl in Hx. simplify_eq. apply le_refl.
      * replace (2 * pos + 2) with (2 * pos + 1 + 1) in Hx by lia.
        rewrite Hr in Hx. simplify_eq. by apply lt_asym.
    + rewrite Hr in Hxc. simplify_eq. destruct Hc as [->| ->].
      * rewrite Hl in Hx. by simplify_eq.
      * replace (2 * pos + 2) with (2 * pos + 1 + 1) in Hx by lia.
        rewrite Hr in Hx. simplify_eq. apply le_refl.
  - rewrite Hl in Hxc. simplify_eq. destruct Hc as [->| ->].
    + rewrite Hl in Hx. simplify_eq. apply le_refl.
    + replace (2 * pos + 2) with (2 * pos + 1 + 1) in Hx by lia.
      rewrite Hr in Hx. done.
Qed.

(** One step of [_siftup]: the item moves from [pos] to the child [c]. *)
Lemma swap_down_ok (h : list A) pos c n xc :
  0 < c -> parent c = pos ->
  h !! pos = Some n -> h !! c = Some xc ->
  (forall c' x', 0 < c' -> parent c' = pos -> h !! c' = Some x' -> le lt xc x') ->
  hole_ok lt h pos ->
  hole_ok lt (<[c := n]> (<[pos := xc]> h)) c.
Proof.
  intros Hc0 Hc Hn Hxc Hleast [Hedges Hgrand].
  pose proof (parent_lt c Hc0) as Hpc.
  pose proof (lookup_lt_Some _ _ _ Hn). pose proof (lookup_lt_Some _ _ _ Hxc).
  assert (forall k, <[c := n]> (<[pos := xc]> h) !! k =
            if decide (k = c) then Some n
            else if decide (k = pos) then Some xc else h !! k) as Hlook.
  { intros k. apply lookup_swap; lia. }
  split.
  - intros i Hi Hpi x q Hi0 Hx Hq. rewrite Hlook in Hx, Hq.
    pose proof (parent_lt i Hi0).
    destruct (decide (i = c)); [done|].
    destruct (decide (parent i = c)); [done|].
    destruct (decide (i = pos)) as [->|].
    + simplify_eq. destruct (decide (parent (parent c) = parent c)); [lia|].
      eapply (Hgrand c); eauto.
    + destruct (decide (parent i = pos)).
      * simplify_eq. by eapply Hleast.
      * by eapply (Hedges i).
  - intros c2 x g _ Hc20 Hc2 Hx Hg. rewrite Hlook in Hx, Hg.
    pose proof (parent_lt c2 Hc20).
    destruct (decide (parent c = c)); [lia|].
    destruct (decide (parent c = pos)); [|done].
    destruct (decide (c2 = c)); [lia|].
    destruct (decide (c2 = pos)); [lia|].
    injection Hg as <-.
    apply (Hedges c2); [lia|lia|done|done|by rewrite Hc2].
Qed.

Lemma siftup_loop_ok fuel : forall (heap : list A) newitem pos,
  length heap <= fuel + pos -> pos < length heap ->
  hole_ok lt (<[pos := newitem]> heap) pos ->
  let r := siftup_loop lt fuel heap pos in
  hole_ok lt (<[r.2 := newitem]> r.1) r.2 /\
  below_ok lt (<[r.2 := newitem]> r.1) r.2.
Proof.
  induction fuel as [|fuel IH]; intros heap newitem pos Hfuel Hpos Hhole;
    cbn [siftup_loop fst snd]; [lia|].
  destruct (decide (2 * pos + 1 < length heap)) as [Hlen|Hleaf].
  2:{ cbn [fst snd]. split; [done|].
      intros c x y Hc0 Hc Hx _. apply lookup_lt_Some in Hx.
      rewrite length_insert in Hx. apply parent_child in Hc; lia. }
  set (cp := smaller_child lt heap (2 * pos + 1)) in *.
  assert (0 < cp /\ parent cp = pos /\ cp < length heap) as (Hc0 & Hc & Hcl).
  { subst cp. destruct (smaller_child_cases heap (2 * pos + 1)) as [->|[-> ?]];
      (split; [lia|split; [apply parent_child; lia|lia]]). }
  pose proof (parent_lt cp Hc0).
  destruct (heap !! cp) as [xc|] eqn:Hxc.
  2:{ apply lookup_ge_None in Hxc. lia. }
  apply IH; [rewrite length_insert; lia|by rewrite length_insert|].
  rewrite <- (list_insert_insert_eq heap pos xc newitem).
  apply (swap_down_ok _ pos); try done.
  - by apply list_lookup_insert_eq.
  - rewrite list_lookup_insert_ne by lia. done.
  - intros c' x' Hc'0 Hc' Hx'. pose proof (parent_lt c' Hc'0).
    rewrite list_lookup_insert_ne in Hx' by lia.
    by eapply (smaller_child_least heap pos).
Qed.

Lemma heappush_ok (heap : list A) item :
  heap_ok lt heap -> heap_ok lt (heappush lt heap item).
Proof.
  intros Hok. unfold heappush, siftdown.
  rewrite length_app, Nat.add_sub. simpl.
  rewrite list_lookup_middle by done.
  assert (<[length heap := item]> (heap ++ [item]) = heap ++ [item]) as Hid.
  { apply list_insert_id. by apply list_lookup_middle. }
  apply siftdown_loop_ok; [done|rewrite length_app; simpl; lia|..];
    rewrite Hid.
  - split.
    + intros i Hi Hpi x p Hi0 Hx Hp.
      pose proof (parent_lt i Hi0).
      pose proof (lookup_lt_Some _ _ _ Hx) as Hlen.
      rewrite length_app in Hlen. simpl in Hlen.
      rewrite lookup_app_l in Hx, Hp by lia. by eapply Hok.
    + intros c x g _ Hc0 Hc Hx _. apply lookup_lt_Some in Hx.
      rewrite length_app in Hx. simpl in Hx. apply parent_child in Hc; lia.
  - intros c x y Hc0 Hc Hx _. apply lookup_lt_Some in Hx.
    rewrite length_app in Hx. simpl in Hx. apply parent_child in Hc; lia.
Qed.

Lemma siftup_ok (heap : list A) :
  hole_ok lt heap 0 -> heap_ok lt (siftup lt heap 0).
Proof.
  intros Hhole. unfold siftup.
  destruct (heap !! 0) as [newitem|] eqn:Hn.
  2:{ apply lookup_ge_None in Hn. intros i x p _ Hx.
      apply lookup_lt_Some in Hx. lia. }
  pose proof (lookup_lt_Some _ _ _ Hn) as Hlen.
  pose proof (siftup_loop_ok (length heap) heap newitem 0) as Hloop.
  pose proof (siftup_loop_pos (length heap) heap 0 Hlen) as Hpos.
  pose proof (siftup_loop_length (length heap) heap 0) as Hl.
  rewrite list_insert_id in Hloop by done.
  destruct Hloop as [Hh Hb]; [lia|done|done|].
  destruct (siftup_loop lt (length heap) heap 0) as [h pos]; simpl in *.
  unfold siftdown. rewrite list_lookup_insert_eq by lia.
  apply siftdown_loop_ok; rewrite ?length_insert, ?list_insert_insert_eq;
    done || lia.
Qed.

(** In a heap the first element is a minimum. *)
Lemma heap_root_min (h : list A) r :
  heap_ok lt h -> h !! 0 = Some r ->
  forall i x, h !! i = Some x -> le lt r x.
Proof.
  intros Hok Hr i. induction (lt_wf i) as [i _ IH]. intros x Hx.
  destruct (decide (i = 0)) as [->|Hi].
  - simplify_eq. apply le_refl.
  - pose proof (parent_lt i ltac:(lia)) as Hp.
    pose proof (lookup_lt_Some _ _ _ Hx).
    destruct (h !! parent i) as [p|] eqn:Hpi.
    2:{ apply lookup_ge_None in Hpi. lia. }
    apply (le_trans r p x); [by eapply IH|].
    apply (Hok i); [lia|done|done].
Qed.

Lemma heappop_head (heap : list A) item heap' :
  heappop lt heap = Ok (item, heap') -> heap !! 0 = Some item.
Proof.
  unfold heappop. destruct (last heap) as [lastelt|] eqn:Hlast; [|done].
  apply last_Some in Hlast as [front ->].
  rewrite removelast_last.
  by destruct front as [|returnitem rest]; intros [= <- <-].
Qed.

Lemma heappop_ok (heap : list A) item heap' :
  heap_ok lt heap -> heappop lt heap = Ok (item, heap') ->
  heap_ok lt heap' /\ forall y, y ∈ heap' -> le lt item y.
Proof.
  intros Hok Hpop. split.
  - revert Hpop. unfold heappop.
    destruct (last heap) as [lastelt|] eqn:Hlast; [|done].
    apply last_Some in Hlast as [front ->].
    rewrite removelast_last.
    destruct front as [|returnitem rest]; intros [= <- <-].
    { intros i x p _ Hx. done. }
    apply siftup_ok. split; [|intros; lia].
    intros i Hi Hpi x p Hi0 Hx Hp. simpl in Hx, Hp.
    pose proof (lookup_lt_Some _ _ _ Hx) as Hlen. simpl in Hlen.
    pose proof (parent_lt i Hi0).
    apply (Hok i x p Hi0).
    + destruct i; [done|]. simpl in *. by apply lookup_app_l_Some.
    + destruct (parent i) eqn:E; [done|]. simpl in *.
      by apply lookup_app_l_Some.
  - intros y Hy. pose proof (heappop_perm _ _ _ Hpop) as Hperm.
    assert (y ∈ heap) as Hin by (rewrite Hperm; by right).
    apply list_elem_of_lookup in Hin as [i Hi].
    apply (heap_root_min heap item Hok) with i; [|done].
    by apply heappop_head with heap'.
Qed.

End Order.
End HeapqFacts.

(** ** Events ordered by time *)

Module EventFacts.
Import Heapq History.

Lemma Qltb_true x y : Qltb x y = true <-> (x < y)%Q.
Proof.
  unfold Qltb. rewrite Qlt_alt. destruct (x ?= y)%Q; split; done.
Qed.

Lemma Qltb_false x y : Qltb x y = false <-> (y <= x)%Q.
Proof.
  rewrite <- not_true_iff_false, Qltb_true. split.
  - apply Qnot_lt_le.
  - apply Qle_not_lt.
Qed.

Lemma Event_le_time a b : le Event_lt a b <-> (time a <= time b)%Q.
Proof. unfold le, Event_lt. apply Qltb_false. Qed.

Lemma Event_lt_irrefl x : Event_lt x x = false.
Proof. apply Qltb_false. apply Qle_refl. Qed.

Lemma Event_le_trans x y z :
  le Event_lt x y -> le Event_lt y z -> le Event_lt x z.
Proof. rewrite !Event_le_time. apply Qle_trans. Qed.

Lemma Event_lt_asym x y : Event_lt x y = true -> le Event_lt x y.
Proof.
  unfold Event_lt. rewrite Qltb_true, Event_le_time. apply Qlt_le_weak.
Qed.

Lemma push_perm (h : list Event) e : heappush Event_lt h e ≡ₚ e :: h.
Proof. apply HeapqFacts.heappush_perm. Qed.

Lemma pop_perm (h : list Event) e h' :
  heappop Event_lt h = Ok (e, h') -> h ≡ₚ e :: h'.
Proof. apply HeapqFacts.heappop_perm. Qed.

Lemma push_ok (h : list Event) e :
  heap_ok Event_lt h -> heap_ok Event_lt (heappush Event_lt h e).
Proof.
  apply HeapqFacts.heappush_ok.
  - apply Event_le_trans.
  - apply Event_lt_asym.
Qed.

Lemma pop_ok (h : list Event) e h' :
  heap_ok Event_lt h -> heappop Event_lt h = Ok (e, h') ->
  heap_ok Event_lt h' /\ Forall (fun y => (time e <= time y)%Q) h'.
Proof.
  intros Hok Hpop.
  destruct (HeapqFacts.heappop_ok Event_lt Event_lt_irrefl Event_le_trans
              Event_lt_asym h e h' Hok Hpop) as [Hok' Hmin].
  split; [done|]. apply Forall_forall. intros y Hy.
  apply Event_le_time, Hmin, Hy.
Qed.

Lemma heap_ok_nil : heap_ok Event_lt [].
Proof. intros i x p _ Hx. done. Qed.

(** Ids of one type across the heap operations. *)
Lemma ids_cons ty e (h : list Event) :
  ids ty (e :: h) = if decide (type e = ty) then pkt_id e :: ids ty h
                    else ids ty h.
Proof.
  unfold ids, of_type. rewrite filter_cons. by destruct (decide _).
Qed.

Lemma ids_app ty (l1 l2 : list Event) :
  ids ty (l1 ++ l2) = ids ty l1 ++ ids ty l2.
Proof. unfold ids, of_type. by rewrite filter_app, map_app. Qed.

Lemma ids_perm ty (h h' : list Event) : h ≡ₚ h' -> ids ty h ≡ₚ ids ty h'.
Proof.
  intros Hp. unfold ids, of_type. apply Permutation_map.
  by apply filter_Permutation.
Qed.

Lemma ids_push ty (h : list Event) e :
  ids ty (heappush Event_lt h e) ≡ₚ ids ty (e :: h).
Proof. apply ids_perm, push_perm. Qed.

Lemma ids_pop ty (h : list Event) e h' :
  heappop Event_lt h = Ok (e, h') -> ids ty h ≡ₚ ids ty (e :: h').
Proof. intros Hpop. by apply ids_perm, pop_perm. Qed.

Lemma count_app ty (l1 l2 : list Event) :
  count ty (l1 ++ l2) = (count ty l1 + count ty l2)%Z.
Proof.
  unfold count, of_type. rewrite filter_app, length_app. lia.
Qed.

Lemma count_ids ty (l : list Event) : count ty l = Z.of_nat (length (ids ty l)).
Proof. unfold count, ids. by rewrite length_map. Qed.

Lemma clock_snoc (l : list Event) e : clock (l ++ [e]) = time e.
Proof. unfold clock. by rewrite last_snoc. Qed.

Lemma area_from_snoc (rest : list Event) : forall seen e,
  (area_from seen (rest ++ [e])
   == area_from seen rest
      + inject_Z (in_system (seen ++ rest)) * (time e - clock (seen ++ rest)))%Q.
Proof.
  induction rest as [|x rest IH]; intros seen e; simpl.
  - rewrite app_nil_r. ring.
  - rewrite IH. rewrite <- app_assoc. simpl. ring.
Qed.

Lemma area_snoc (events : list Event) e :
  (area (events ++ [e])
   == area events
      + inject_Z (in_system events) * (time e - clock events))%Q.
Proof. unfold area. by rewrite area_from_snoc. Qed.

Lemma delay_from_snoc (rest : list Event) : forall seen e,
  (delay_from seen (rest ++ [e])
   == delay_from seen rest
      + match type e, arrival_stamp (seen ++ rest) (pkt_id e) with
        | departure, Some t => time e - t
        | _, _ => 0
        end)%Q.
Proof.
  induction rest as [|x rest IH]; intros seen e; simpl.
  - rewrite app_nil_r. ring.
  - rewrite IH. rewrite <- app_assoc. simpl. ring.
Qed.

Lemma sojourn_sum_snoc (events : list Event) e :
  (sojourn_sum (events ++ [e])
   == sojourn_sum events
      + match type e, arrival_stamp events (pkt_id e) with
        | departure, Some t => time e - t
        | _, _ => 0
        end)%Q.
Proof. unfold sojourn_sum. by rewrite delay_from_snoc. Qed.

Lemma ids_snoc ty (l : list Event) e :
  ids ty (l ++ [e]) = if decide (type e = ty) then ids ty l ++ [pkt_id e]
                      else ids ty l.
Proof.
  rewrite ids_app, ids_cons. destruct (decide _); [done|].
  by rewrite app_nil_r.
Qed.

Lemma count_snoc ty (l : list Event) e :
  count ty (l ++ [e]) = if decide (type e = ty) then (count ty l + 1)%Z
                        else count ty l.
Proof.
  rewrite !count_ids, ids_snoc. destruct (decide _); [|done].
  rewrite length_app. simpl. lia.
Qed.

Lemma arrival_stamp_app_l (l1 l2 : list Event) id t :
  arrival_stamp l1 id = Some t -> arrival_stamp (l1 ++ l2) id = Some t.
Proof.
  induction l1 as [|e l1 IH]; simpl; [done|].
  destruct (decide _); [done|]. apply IH.
Qed.

Lemma arrival_stamp_fresh (l : list Event) id :
  id ∉ ids arrival l -> arrival_stamp l id = None.
Proof.
  induction l as [|e l IH]; simpl; [done|].
  rewrite ids_cons. intros Hnot.
  destruct (decide (type e = arrival /\ pkt_id e = id)) as [[Hty Hid]|Hne].
  - rewrite decide_True in Hnot by done. exfalso. apply Hnot.
    rewrite Hid. by left.
  - apply IH. intros Hin. apply Hnot.
    destruct (decide (type e = arrival)); [by right|done].
Qed.

Lemma arrival_stamp_snoc (l : list Event) e :
  type e = arrival -> pkt_id e ∉ ids arrival l ->
  arrival_stamp (l ++ [e]) (pkt_id e) = Some (time e).
Proof.
  intros Hty Hnot. induction l as [|x l IH]; simpl.
  - by rewrite decide_True.
  - rewrite ids_cons in Hnot.
    destruct (decide (type x = arrival /\ pkt_id x = pkt_id e)) as [[Hx Hid]|].
    + rewrite decide_True in Hnot by done. exfalso. apply Hnot.
      rewrite Hid. by left.
    + apply IH. intros Hin. apply Hnot.
      destruct (decide (type x = arrival)); [by right|done].
Qed.

Lemma ids_pop_same ty (h0 : list Event) e h :
  heappop Event_lt h0 = Ok (e, h) -> type e = ty ->
  ids ty h0 ≡ₚ pkt_id e :: ids ty h.
Proof.
  intros Hpop Hty. rewrite (ids_pop ty _ _ _ Hpop), ids_cons.
  by rewrite decide_True.
Qed.

Lemma ids_pop_other ty (h0 : list Event) e h :
  heappop Event_lt h0 = Ok (e, h) -> type e <> ty ->
  ids ty h0 ≡ₚ ids ty h.
Proof.
  intros Hpop Hty. rewrite (ids_pop ty _ _ _ Hpop), ids_cons.
  by rewrite decide_False.
Qed.

Lemma ids_push_same ty (h : list Event) e :
  type e = ty -> ids ty (heappush Event_lt h e) ≡ₚ pkt_id e :: ids ty h.
Proof. intros Hty. rewrite ids_push, ids_cons. by rewrite decide_True. Qed.

Lemma ids_push_other ty (h : list Event) e :
  type e <> ty -> ids ty (heappush Event_lt h e) ≡ₚ ids ty h.
Proof. intros Hty. rewrite ids_push, ids_cons. by rewrite decide_False. Qed.

(** Popping the only pending arrival. *)
Lemma pop_the_arrival (h0 : list Event) e h n :
  heappop Event_lt h0 = Ok (e, h) -> type e = arrival ->
  ids arrival h0 = [n] -> pkt_id e = n /\ ids arrival h = [].
Proof.
  intros Hpop Hty Hids.
  pose proof (ids_pop_same arrival _ _ _ Hpop Hty) as Hp.
  rewrite Hids in Hp.
  pose proof (Permutation_length Hp) as Hlen. simpl in Hlen.
  destruct (ids arrival h); [|done].
  apply Permutation_singleton_inj in Hp. done.
Qed.

Lemma Forall_push (P : Event -> Prop) (h : list Event) e :
  P e -> Forall P h -> Forall P (heappush Event_lt h e).
Proof.
  intros He Hh. rewrite push_perm. by constructor.
Qed.

(** An event list without arrivals and without departures is empty. *)
Lemma no_ids_nil (h : list Event) :
  ids arrival h = [] -> ids departure h = [] -> h = [].
Proof.
  destruct h as [|e h]; [done|]. rewrite !ids_cons.
  destruct (type e); simpl; done.
Qed.

Lemma elem_of_ids ty (h : list Event) d :
  d ∈ h -> type d = ty -> pkt_id d ∈ ids ty h.
Proof.
  intros Hin Hty. unfold ids, of_type. apply list_elem_of_fmap.
  exists d. split; [done|]. by apply list_elem_of_filter.
Qed.

Lemma length_of_type ty (h : list Event) :
  length (of_type ty h) = length (ids ty h).
Proof. unfold ids. by rewrite length_map. Qed.

End EventFacts.

(** ** Python primitives *)

Module PyFacts.

Lemma truediv_ok x y : ~ (y == 0)%Q -> truediv x y = Ok (x / y)%Q.
Proof.
  intros Hy. unfold truediv. destruct (Qeq_bool y 0) eqn:E; [|done].
  by apply Qeq_bool_iff in E.
Qed.

Lemma truediv_zero x y : (y == 0)%Q -> truediv x y = Raise ZeroDivisionError.
Proof.
  intros Hy. unfold truediv. apply Qeq_bool_iff in Hy. by rewrite Hy.
Qed.

Lemma expovariate_ok x rate : ~ (rate == 0)%Q -> expovariate x rate = Ok x.
Proof.
  intros Hy. unfold expovariate. destruct (Qeq_bool rate 0) eqn:E; [|done].
  by apply Qeq_bool_iff in E.
Qed.

Lemma sumZ_insert (l : list Z) k x y :
  l !! k = Some x -> sumZ (<[k := y]> l) = (sumZ l - x + y)%Z.
Proof.
  revert k. induction l as [|a l IH]; intros [|k] Hk; simplify_eq/=.
  - lia.
  - rewrite (IH k Hk). lia.
Qed.

Lemma getitem_ok {A} (l : list A) (i : Z) :
  (0 <= i < Z.of_nat (length l))%Z ->
  exists x, getitem l i = Ok x /\ l !! Z.to_nat i = Some x.
Proof.
  intros Hi. unfold getitem, py_index.
  destruct (decide _) as [_|]; [|lia]. simpl.
  destruct (l !! Z.to_nat i) as [x|] eqn:Hx; [eauto|].
  apply lookup_ge_None in Hx. lia.
Qed.

Lemma incr_item_ok (l : list Z) (i : Z) :
  (0 <= i < Z.of_nat (length l))%Z ->
  exists x, l !! Z.to_nat i = Some x /\
            incr_item l i = Ok (<[Z.to_nat i := (x + 1)%Z]> l).
Proof.
  intros Hi. unfold incr_item, py_index.
  destruct (decide _) as [_|]; [|lia]. simpl.
  destruct (l !! Z.to_nat i) as [x|] eqn:Hx; [eauto|].
  apply lookup_ge_None in Hx. lia.
Qed.

(** A list of a known length, written out. *)
Lemma list_of_length {A} (n : nat) (l : list A) :
  length l = n -> l = take n l /\ length l = n.
Proof. intros Hl. split; [|done]. by rewrite <- Hl, firstn_all. Qed.



Lemma inject_Z_nonzero (z : Z) : z <> 0%Z -> ~ (inject_Z z == 0)%Q.
Proof. intros Hz Heq. apply Hz. unfold Qeq in Heq. simpl in Heq. lia. Qed.

(** *** numpy scalars and float divisions *)

Lemma wrap_int64_small (n : Z) :
  (- 2 ^ 63 <= n < 2 ^ 63)%Z -> wrap_int64 n = n.
Proof.
  intros Hn. unfold wrap_int64.
  rewrite Z.mod_small by lia. lia.
Qed.

(** Out of range the wrapped value differs by a multiple of 2^64 and
    lies in the range. *)
Lemma wrap_int64_range (n : Z) :
  (- 2 ^ 63 <= wrap_int64 n < 2 ^ 63)%Z /\
  exists k, wrap_int64 n = (n - k * 2 ^ 64)%Z.
Proof.
  unfold wrap_int64. split.
  - pose proof (Z.mod_pos_bound (n + 2 ^ 63) (2 ^ 64) ltac:(lia)). lia.
  - exists ((n + 2 ^ 63) / 2 ^ 64)%Z.
    pose proof (Z.div_mod (n + 2 ^ 63) (2 ^ 64) ltac:(lia)). lia.
Qed.

Lemma float_div_ok k x y :
  ~ (y == 0)%Q -> float_div k x y = Ok (finite (x / y)%Q).
Proof.
  intros Hy. destruct k; simpl.
  - by rewrite truediv_ok.
  - unfold np_truediv. destruct (Qeq_bool y 0) eqn:E; [|done].
    by apply Qeq_bool_iff in E.
Qed.

Lemma float_div_py_zero x y :
  (y == 0)%Q -> float_div py_float x y = Raise ZeroDivisionError.
Proof. intros Hy. simpl. by rewrite truediv_zero. Qed.


End PyFacts.

(** ** Lab1partA: the invariants hold along every run *)

Module FactsA.
Import Heapq History Lab1partA InvA EventFacts PyFacts.

(** [pn_loop] divides the counters it visits by the total. *)
Lemma pn_loop_ok_a (record : list Z) total :
  ~ (inject_Z total == 0)%Q ->
  forall n k, (k + n <= length record)%nat ->
  pn_loop record total (map Z.of_nat (seq k n))
  = Ok (map (fun c => (inject_Z c / inject_Z total)%Q) (take n (drop k record))).
Proof.
  intros Hq. induction n as [|n IH]; intros k Hk; [done|].
  cbn [seq map pn_loop].
  destruct (getitem_ok record (Z.of_nat k) ltac:(lia)) as (x & -> & Hx).
  rewrite Nat2Z.id in Hx. cbn [mbind result_bind].
  rewrite truediv_ok by done. cbn [mbind result_bind].
  rewrite IH by lia. cbn [mbind result_bind].
  by rewrite (drop_S _ _ _ Hx).
Qed.

(** [distribution] divides every counter by the total. *)
Lemma distribution_ok_a (record : list Z) :
  length record = 12%nat -> sumZ record <> 0%Z ->
  distribution record
  = Ok (map (fun c => (inject_Z c / inject_Z (sumZ record))%Q) record).
Proof.
  intros Hlen Hsum. pose proof (inject_Z_nonzero _ Hsum) as Hq.
  unfold distribution.
  rewrite (pn_loop_ok_a record _ Hq 11 0) by lia. cbn [mbind result_bind].
  destruct (getitem_ok record 11 ltac:(lia)) as (x & -> & Hx).
  cbn [mbind result_bind]. rewrite truediv_ok by done.
  cbn [mbind result_bind]. f_equal.
  change (Z.to_nat 11) with 11%nat in Hx.
  rewrite drop_0.
  rewrite <- (firstn_all record) at 3. rewrite Hlen.
  rewrite (take_S_r _ _ _ Hx), map_app. done.
Qed.

Section WithRandom.
Variable rand : nat -> Q.

Lemma draw_ok_a rate s :
  ~ (rate == 0)%Q ->
  draw rand rate s = Ok (rand (draws s), set_draws (S (draws s)) s).
Proof. intros Hr. unfold draw. by rewrite expovariate_ok. Qed.

Lemma mean_rate_nonzero : ~ (1 / MEAN_PKT_SIZE_BITS == 0)%Q.
Proof. done. Qed.

(** The index used by [handle_arrival] is always inside the record. *)
Lemma arrival_index_ok_a s :
  inv s ->
  let index := if decide (pkts_in_system s <= 10)%Z
               then pkts_in_system s else 11%Z in
  (0 <= index < Z.of_nat (length (queue_len_record s)))%Z.
Proof.
  intros [_ _ _ Hc Hr _]. rewrite Hr, Hc. simpl.
  destruct (decide _); lia.
Qed.

(** An arrival iteration never raises and does what [arrival_post] says. *)
Lemma arrival_step_a s e h :
  inv s -> heappop Event_lt (event_list s) = Ok (e, h) ->
  type e = arrival ->
  exists s', loop_body rand s = Ok (e, s') /\ arrival_post rand s e h s'.
Proof.
  intros Hinv Hpop Hty.
  pose proof (arrival_index_ok_a s Hinv) as Hidx.
  destruct Hinv as [Hrate _ Hsvc _ _ _].
  unfold loop_body. rewrite Hpop. cbn [mbind result_bind]. rewrite Hty.
  unfold handle_arrival. cbn -[incr_item draw heappush start_service].
  destruct (incr_item_ok _ _ Hidx) as (x & Hx & ->).
  cbn -[draw heappush start_service]. rewrite draw_ok_a by done.
  cbn -[draw heappush start_service].
  unfold service_ok in Hsvc. destruct (in_service s) eqn:Hin.
  - cbn -[heappush]. eexists. split; [done|].
    split; cbn -[heappush]; rewrite ?Hin; eauto.
  - destruct Hsvc as [Hq _]. unfold start_service.
    cbn -[draw heappush]. rewrite Hq. cbn -[draw heappush].
    rewrite draw_ok_a by apply mean_rate_nonzero.
    cbn -[heappush]. eexists. split; [done|].
    split; cbn -[heappush]; rewrite ?Hin, ?Hq; eauto 10.
Qed.

(** A departure iteration on a non-empty queue. *)
Lemma departure_step_a s e h id t rest :
  heappop Event_lt (event_list s) = Ok (e, h) ->
  type e = departure ->
  queue s = (id, t) :: rest ->
  exists s', loop_body rand s = Ok (e, s') /\
             departure_post rand s e h t rest s'.
Proof.
  intros Hpop Hty Hq.
  unfold loop_body. rewrite Hpop. cbn [mbind result_bind]. rewrite Hty.
  unfold handle_departure. cbn -[draw heappush start_service]. rewrite Hq.
  destruct rest as [|[id' t'] rest'].
  - cbn. eexists. split; [done|]. by split.
  - cbn -[draw heappush start_service]. unfold start_service.
    cbn -[draw heappush].
    rewrite draw_ok_a by apply mean_rate_nonzero.
    cbn -[heappush]. eexists. split; [done|]. by split.
Qed.

(** A popped departure is the pending one: it carries the id of the
    head of the queue. *)
Lemma pop_the_departure_a s e h :
  service_ok s -> heappop Event_lt (event_list s) = Ok (e, h) ->
  type e = departure ->
  exists t rest, queue s = (pkt_id e, t) :: rest /\
                 in_service s = true /\ ids departure h = [].
Proof.
  intros Hsvc Hpop Hty.
  pose proof (ids_pop_same departure _ _ _ Hpop Hty) as Hp.
  unfold service_ok in Hsvc. destruct (in_service s).
  - destruct Hsvc as (id & t & rest & Hq & Hids). rewrite Hids in Hp.
    pose proof (Permutation_length Hp) as Hlen. simpl in Hlen.
    destruct (ids departure h); [|done].
    apply Permutation_singleton_inj in Hp. subst id. eauto.
  - destruct Hsvc as [_ Hids]. rewrite Hids in Hp.
    by apply Permutation_nil_cons in Hp.
Qed.

Lemma arrival_inv_a s e h s' :
  inv s -> heappop Event_lt (event_list s) = Ok (e, h) ->
  type e = arrival -> arrival_post rand s e h s' -> inv s'.
Proof.
  intros [Hrate Harr Hsvc Hcnt Hrec Hheap] Hpop Hty Hpost.
  destruct (pop_the_arrival _ _ _ _ Hpop Hty Harr) as [Hid Hnone].
  pose proof (ids_pop_other departure _ _ _ Hpop
                ltac:(by rewrite Hty)) as Hdep.
  destruct (pop_ok _ _ _ Hheap Hpop) as [Hheap' _].
  destruct Hpost as [_ Hl Hq _ _ _ Hc Hn _ _ Hr Hs He].
  set (next := mkEvent (time e + rand (draws s))%Q arrival (next_pkt_id s))
    in He.
  assert (ids arrival (heappush Event_lt h next) = [next_pkt_id s]) as Hnext.
  { apply Permutation_singleton_r.
    rewrite ids_push_same by done. by rewrite Hnone. }
  assert (ids departure (heappush Event_lt h next)
          ≡ₚ ids departure (event_list s)) as Hdep'.
  { rewrite ids_push_other by done. done. }
  unfold service_ok in Hsvc.
  split.
  - by rewrite Hl.
  - rewrite Hn. replace (next_pkt_id s + 1 - 1)%Z with (next_pkt_id s) by lia.
    destruct (in_service s).
    + destruct He as [-> _]. done.
    + destruct He as (id & t & rest & _ & -> & _).
      apply Permutation_singleton_r.
      rewrite ids_push_other by done. by rewrite Hnext.
  - unfold service_ok. rewrite Hs. destruct (in_service s).
    + destruct Hsvc as (id & t & rest & Hqs & Hids).
      destruct He as [-> _]. exists id, t, (rest ++ [(pkt_id e, time e)]).
      split; [by rewrite Hq, Hqs|].
      apply Permutation_singleton_r. by rewrite Hdep', Hids.
    + destruct Hsvc as [Hqs Hids].
      destruct He as (id & t & rest & Hq' & -> & _).
      exists id, t, rest. split; [done|].
      apply Permutation_singleton_r.
      rewrite ids_push_same by done. by rewrite Hdep', Hids.
  - rewrite Hc, Hq, Hcnt, length_app. simpl. lia.
  - destruct Hr as (x & _ & ->). by rewrite length_insert.
  - destruct (in_service s).
    + destruct He as [-> _]. by apply push_ok.
    + destruct He as (id & t & rest & _ & -> & _). by do 2 apply push_ok.
Qed.

Lemma departure_inv_a s e h t rest s' :
  inv s -> heappop Event_lt (event_list s) = Ok (e, h) ->
  type e = departure -> queue s = (pkt_id e, t) :: rest ->
  departure_post rand s e h t rest s' -> inv s'.
Proof.
  intros [Hrate Harr Hsvc Hcnt Hrec Hheap] Hpop Hty Hqs Hpost.
  destruct (pop_the_departure_a _ _ _ Hsvc Hpop Hty)
    as (t' & rest' & Hqs' & Hin & Hnone).
  pose proof (ids_pop_other arrival _ _ _ Hpop ltac:(by rewrite Hty)) as Harr'.
  destruct (pop_ok _ _ _ Hheap Hpop) as [Hheap' _].
  destruct Hpost as [_ Hl Hq _ _ _ Hc Hn _ _ Hr He].
  assert (ids arrival h = [(next_pkt_id s' - 1)%Z]) as Ha.
  { apply Permutation_singleton_r. by rewrite <- Harr', Harr, Hn. }
  split.
  - by rewrite Hl.
  - destruct rest as [|[id ?] ?].
    + destruct He as (_ & -> & _). done.
    + destruct He as (_ & -> & _). apply Permutation_singleton_r.
      rewrite ids_push_other by done. by rewrite Ha.
  - unfold service_ok. destruct rest as [|[id t0] rest0].
    + destruct He as (-> & -> & _). done.
    + destruct He as (-> & -> & _). exists id, t0, rest0.
      split; [done|]. apply Permutation_singleton_r.
      rewrite ids_push_same by done. by rewrite Hnone.
  - rewrite Hc, Hq, Hcnt, Hqs. simpl. lia.
  - by rewrite Hr.
  - destruct rest as [|[id ?] ?].
    + destruct He as (_ & -> & _). done.
    + destruct He as (_ & -> & _). by apply push_ok.
Qed.

(** Every iteration from a state that satisfies the invariant succeeds,
    in one of two ways. *)
Lemma step_cases_a s :
  inv s ->
  exists e h s',
    heappop Event_lt (event_list s) = Ok (e, h) /\
    loop_body rand s = Ok (e, s') /\
    (type e = arrival /\ arrival_post rand s e h s' \/
     type e = departure /\
     exists t rest, queue s = (pkt_id e, t) :: rest /\
                    departure_post rand s e h t rest s').
Proof.
  intros Hinv.
  destruct (HeapqFacts.heappop_nonempty Event_lt (event_list s))
    as (e & h & Hpop).
  { intros Hnil. pose proof (inv_arrival s Hinv) as Ha.
    rewrite Hnil in Ha. done. }
  destruct (type e) eqn:Hty.
  - destruct (arrival_step_a s e h Hinv Hpop Hty) as (s' & Hbody & Hpost).
    exists e, h, s'. eauto.
  - destruct (pop_the_departure_a _ _ _ (inv_service s Hinv) Hpop Hty)
      as (t & rest & Hq & _).
    destruct (departure_step_a s e h _ t rest Hpop Hty Hq)
      as (s' & Hbody & Hpost).
    exists e, h, s'. eauto 10.
Qed.

Lemma step_inv_a s e s' : inv s -> loop_body rand s = Ok (e, s') -> inv s'.
Proof.
  intros Hinv Hbody.
  destruct (step_cases_a s Hinv) as (e0 & h & s0 & Hpop & Hbody0 & Hcase).
  rewrite Hbody in Hbody0. injection Hbody0 as <- <-.
  destruct Hcase as [[Hty Hpost]|(Hty & t & rest & Hq & Hpost)].
  - by eapply arrival_inv_a.
  - by eapply departure_inv_a.
Qed.

(** The loop never raises from a state that satisfies the invariant. *)
Lemma loop_total_a fuel : forall s,
  inv s -> exists events s', loop rand fuel s = Ok (events, s') /\ inv s'.
Proof.
  induction fuel as [|fuel IH]; intros s Hinv; simpl; [eauto|].
  destruct (decide (total_pkts s < npkts s)%Z); [|eauto].
  destruct (step_cases_a s Hinv) as (e & h & s1 & _ & Hbody & _).
  rewrite Hbody. cbn [mbind result_bind].
  destruct (IH s1 (step_inv_a _ _ _ Hinv Hbody)) as (events & s' & -> & Hinv').
  cbn. eauto.
Qed.

Lemma prime_ok_a npkts lambd :
  ~ (lambd == 0)%Q ->
  exists s, prime rand (init npkts lambd) = Ok s /\ inv s /\
            event_list s = [mkEvent (rand 0) arrival 0%Z] /\
            curr_time s = 0%Q /\ last_event_time s = 0%Q /\
            queue s = [] /\ next_pkt_id s = 1%Z /\ total_pkts s = 0%Z /\
            area_under_q s = 0%Q /\ total_delay s = 0%Q /\
            queue_len_record s = replicate 12 0%Z /\
            Lab1partA.npkts s = npkts.
Proof.
  intros Hrate. unfold prime. rewrite draw_ok_a by done.
  cbn. eexists. split; [done|]. split; [|done].
  split; cbn; try done.
  intros [|i] x p Hi Hx Hp; [lia|done].
Qed.

Lemma reach_cons_a s0 e s1 events s :
  (total_pkts s0 < npkts s0)%Z -> loop_body rand s0 = Ok (e, s1) ->
  reach rand s1 events s -> reach rand s0 (e :: events) s.
Proof.
  intros Hguard Hbody Hreach. induction Hreach as [|events s e' s' _ IH Hg Hb].
  - apply (reach_snoc rand s0 [] s0 e s1); [constructor|done|done].
  - apply (reach_snoc rand s0 (e :: events) s e' s'); done.
Qed.

Lemma loop_reach_a fuel : forall s0 events s,
  loop rand fuel s0 = Ok (events, s) -> reach rand s0 events s.
Proof.
  induction fuel as [|fuel IH]; intros s0 events s; simpl.
  - intros [= <- <-]. constructor.
  - destruct (decide (total_pkts s0 < npkts s0)%Z) as [Hg|].
    2:{ intros [= <- <-]. constructor. }
    destruct (loop_body rand s0) as [[e s1]|] eqn:Hbody; [|done].
    cbn [mbind result_bind].
    destruct (loop rand fuel s1) as [[events' s']|] eqn:Hloop; [|done].
    cbn. intros [= <- <-]. eapply reach_cons_a; eauto.
Qed.

Lemma reach_inv_a s0 events s : inv s0 -> reach rand s0 events s -> inv s.
Proof.
  intros Hinv Hreach. induction Hreach; [done|]. by eapply step_inv_a.
Qed.

(** The number in the system is what the history says. *)
Lemma hist_in_system_a events s :
  inv s -> hist events s -> pkts_in_system s = in_system events.
Proof.
  intros Hinv Hh. rewrite (inv_count s Hinv). unfold in_system.
  rewrite !count_ids, (hist_fifo _ _ Hh), length_app, length_map. lia.
Qed.

Lemma arrival_hist_a events s e h s' :
  inv s -> hist events s ->
  heappop Event_lt (event_list s) = Ok (e, h) -> type e = arrival ->
  arrival_post rand s e h s' -> hist (events ++ [e]) s'.
Proof.
  intros Hinv Hh Hpop Hty Hpost.
  pose proof (hist_in_system_a _ _ Hinv Hh) as Hsys.
  destruct (pop_the_arrival _ _ _ _ Hpop Hty (inv_arrival s Hinv)) as [Hid _].
  destruct Hh as [Hfifo Hids Hnext Hst [Hlast Hcur] Harea Hpk Hdl Hrec].
  destruct Hpost as [_ _ Hq Hc Hl Ha _ Hn Hd Hp Hr _ _].
  assert (pkt_id e = count arrival events) as Hid' by lia.
  assert (pkt_id e ∉ ids arrival events) as Hfresh.
  { rewrite Hids, Hid'. unfold count. intros Hin.
    apply list_elem_of_fmap in Hin as (k & Hk & Hin).
    apply elem_of_seq in Hin. lia. }
  split.
  - rewrite !ids_snoc, Hty, decide_True, decide_False by done.
    rewrite Hq, map_app, Hfifo. simpl. by rewrite app_assoc.
  - rewrite ids_snoc, decide_True by done.
    unfold of_type. rewrite filter_app, filter_cons, decide_True by done.
    rewrite length_app. simpl. rewrite Nat.add_1_r, seq_S, map_app. simpl.
    rewrite Hids, Hid'. done.
  - rewrite count_snoc, decide_True by done. lia.
  - rewrite Hq. apply Forall_app. split.
    + eapply Forall_impl; [done|]. intros [id t] Hs. simpl in *.
      by apply arrival_stamp_app_l.
    + constructor; [|done]. simpl. by apply arrival_stamp_snoc.
  - by rewrite clock_snoc.
  - rewrite Ha, area_snoc, Harea, Hsys, Hlast. reflexivity.
  - rewrite count_snoc, decide_False by (by rewrite Hty). lia.
  - rewrite Hd, sojourn_sum_snoc, Hty, Hdl. ring.
  - destruct Hr as (x & Hx & ->).
    rewrite (sumZ_insert _ _ _ _ Hx), count_snoc, decide_True by done. lia.
Qed.

Lemma departure_hist_a events s e h t rest s' :
  inv s -> hist events s ->
  heappop Event_lt (event_list s) = Ok (e, h) -> type e = departure ->
  queue s = (pkt_id e, t) :: rest ->
  departure_post rand s e h t rest s' -> hist (events ++ [e]) s'.
Proof.
  intros Hinv Hh Hpop Hty Hqs Hpost.
  pose proof (hist_in_system_a _ _ Hinv Hh) as Hsys.
  destruct Hh as [Hfifo Hids Hnext Hst [Hlast Hcur] Harea Hpk Hdl Hrec].
  destruct Hpost as [_ _ Hq Hc Hl Ha _ Hn Hd Hp Hr _].
  rewrite Hqs in Hfifo, Hst. simpl in Hfifo.
  apply Forall_cons in Hst as [Hstamp Hst]. simpl in Hstamp.
  split.
  - rewrite !ids_snoc, Hty, decide_False, decide_True by done.
    rewrite Hq, Hfifo, <- app_assoc. done.
  - rewrite ids_snoc, decide_False by (by rewrite Hty).
    unfold of_type. rewrite filter_app, filter_cons, decide_False
      by (by rewrite Hty).
    simpl. by rewrite app_nil_r.
  - rewrite count_snoc, decide_False by (by rewrite Hty). lia.
  - rewrite Hq. eapply Forall_impl; [done|]. intros [id t0] Hs. simpl in *.
    by apply arrival_stamp_app_l.
  - by rewrite clock_snoc.
  - rewrite Ha, area_snoc, Harea, Hsys, Hlast. reflexivity.
  - rewrite count_snoc, decide_True by done. lia.
  - rewrite Hd, sojourn_sum_snoc, Hty, Hstamp, Hdl. reflexivity.
  - rewrite Hr, count_snoc, decide_False by (by rewrite Hty). done.
Qed.

Lemma reach_hist_a s0 events s :
  inv s0 -> hist [] s0 -> reach rand s0 events s -> hist events s.
Proof.
  intros Hinv Hh Hreach.
  induction Hreach as [|events s e s' Hreach IH Hg Hbody]; [done|].
  pose proof (reach_inv_a _ _ _ Hinv Hreach) as Hinvs.
  destruct (step_cases_a s Hinvs) as (e0 & h & s1 & Hpop & Hbody0 & Hcase).
  rewrite Hbody in Hbody0. injection Hbody0 as <- <-.
  destruct Hcase as [[Hty Hpost]|(Hty & t & rest & Hq & Hpost)].
  - by eapply arrival_hist_a.
  - by eapply departure_hist_a.
Qed.

Lemma prime_hist npkts lambd s :
  ~ (lambd == 0)%Q -> prime rand (init npkts lambd) = Ok s -> hist [] s.
Proof.
  intros Hrate Hprime.
  destruct (prime_ok_a npkts lambd Hrate)
    as (s1 & Hp & _ & _ & Hc & Hl & Hq & Hn & Hpk & Ha & Hd & Hr & _).
  rewrite Hprime in Hp. injection Hp as <-.
  split; rewrite ?Hq, ?Hn, ?Hc, ?Hl, ?Ha, ?Hd, ?Hpk, ?Hr; done.
Qed.

(** What [service_ok] says of the pending departures. *)
Lemma service_ok_pending_a s :
  service_ok s ->
  (length (of_type departure (event_list s)) <= 1)%nat /\
  forall d, d ∈ event_list s -> type d = departure ->
            exists t rest, queue s = (pkt_id d, t) :: rest.
Proof.
  unfold service_ok. intros Hsvc. rewrite length_of_type.
  destruct (in_service s).
  - destruct Hsvc as (id & t & rest & Hq & Hids). rewrite Hids.
    split; [done|]. intros d Hin Hty.
    pose proof (elem_of_ids departure _ _ Hin Hty) as Hd.
    rewrite Hids in Hd. apply list_elem_of_singleton in Hd as ->. eauto.
  - destruct Hsvc as [_ Hids]. rewrite Hids. split; [simpl; lia|].
    intros d Hin Hty.
    pose proof (elem_of_ids departure _ _ Hin Hty) as Hd.
    rewrite Hids in Hd. by apply not_elem_of_nil in Hd.
Qed.

(** A departure iteration removes the head of the queue, and the head
    is the packet of the popped event. *)
Lemma departure_pops_head_a s e s' :
  inv s -> loop_body rand s = Ok (e, s') -> type e = departure ->
  exists t rest, queue s = (pkt_id e, t) :: rest /\ queue s' = rest.
Proof.
  intros Hinv Hbody Hty.
  destruct (step_cases_a s Hinv) as (e0 & h & s0 & Hpop & Hbody0 & Hcase).
  rewrite Hbody in Hbody0. injection Hbody0 as <- <-.
  destruct Hcase as [[Hty' _]|(_ & t & rest & Hq & Hpost)].
  - by rewrite Hty in Hty'.
  - exists t, rest. split; [done|]. apply (dp_queue _ _ _ _ _ _ _ Hpost).
Qed.

(** The events one iteration adds to the event list: every departure
    among them is scheduled at the popped time plus the service time of
    the size drawn last in this iteration, by [start_service]. *)
Lemma added_events_drawn s e s' :
  inv s -> loop_body rand s = Ok (e, s') ->
  exists added,
    e :: event_list s' ≡ₚ added ++ event_list s /\
    Forall (fun d => type d = departure ->
                     exists k, (draws s <= k)%nat /\ draws s' = S k /\
                               time d = (time e + service_time (rand k))%Q)
           added.
Proof.
  intros Hinv Hbody.
  destruct (step_cases_a s Hinv) as (e0 & h & s0 & Hpop & Hbody0 & Hcase).
  rewrite Hbody in Hbody0. injection Hbody0 as <- <-.
  pose proof (pop_perm _ _ _ Hpop) as Hperm.
  destruct Hcase as [[Hty Hpost]|(Hty & t & rest & Hq & Hpost)].
  - pose proof (ap_events _ _ _ _ _ Hpost) as He. simpl in He.
    destruct (in_service s).
    + destruct He as [-> _]. eexists [_]. split.
      * rewrite push_perm, Hperm. simpl. apply perm_swap.
      * constructor; [|done]. done.
    + destruct He as (id & t & rest & _ & -> & ->). eexists [_; _]. split.
      * rewrite !push_perm, Hperm. simpl.
        rewrite perm_swap. apply perm_skip. apply perm_swap.
      * constructor; [|constructor; [done|done]].
        intros _. exists (S (draws s)). split; [lia|]. by split.
  - pose proof (dp_events _ _ _ _ _ _ _ Hpost) as He.
    destruct rest as [|[id ?] ?].
    + destruct He as (_ & -> & _). exists []. split; [by rewrite Hperm|done].
    + destruct He as (_ & -> & ->). eexists [_]. split.
      * rewrite push_perm, Hperm. simpl. apply perm_swap.
      * constructor; [|done].
        intros _. exists (draws s). split; [lia|]. by split.
Qed.

(** The events one iteration adds to the event list: every departure
    among them is scheduled at the popped time plus the service time of
    a size drawn from the random source. *)
Lemma added_events_a s e s' :
  inv s -> loop_body rand s = Ok (e, s') ->
  exists added,
    e :: event_list s' ≡ₚ added ++ event_list s /\
    Forall (fun d => type d = departure ->
                     exists k, time d = (time e + service_time (rand k))%Q)
           added.
Proof.
  intros Hinv Hbody.
  destruct (step_cases_a s Hinv) as (e0 & h & s0 & Hpop & Hbody0 & Hcase).
  rewrite Hbody in Hbody0. injection Hbody0 as <- <-.
  pose proof (pop_perm _ _ _ Hpop) as Hperm.
  destruct Hcase as [[Hty Hpost]|(Hty & t & rest & Hq & Hpost)].
  - pose proof (ap_events _ _ _ _ _ Hpost) as He. simpl in He.
    destruct (in_service s).
    + destruct He as [-> _]. eexists [_]. split.
      * rewrite push_perm, Hperm. simpl. apply perm_swap.
      * constructor; [|done]. done.
    + destruct He as (id & t & rest & _ & -> & _). eexists [_; _]. split.
      * rewrite !push_perm, Hperm. simpl.
        rewrite perm_swap. apply perm_skip. apply perm_swap.
      * constructor; [intros _; by eexists|]. constructor; [done|done].
  - pose proof (dp_events _ _ _ _ _ _ _ Hpost) as He.
    destruct rest as [|[id ?] ?].
    + destruct He as (_ & -> & _). exists []. split; [by rewrite Hperm|done].
    + destruct He as (_ & -> & _). eexists [_]. split.
      * rewrite push_perm, Hperm. simpl. apply perm_swap.
      * constructor; [intros _; by eexists|done].
Qed.

(** *** From a run to its invariants *)

Lemma prime_rate_a npkts lambd s :
  prime rand (init npkts lambd) = Ok s -> ~ (lambd == 0)%Q.
Proof.
  unfold prime, draw, expovariate. cbn -[heappush].
  destruct (Qeq_bool lambd 0) eqn:E; [done|]. intros _.
  by apply Qeq_bool_neq.
Qed.

Lemma run_reach npkts lambd fuel events s :
  run rand fuel (init npkts lambd) = Ok (events, s) ->
  exists s1, prime rand (init npkts lambd) = Ok s1 /\
             reach rand s1 events s.
Proof.
  unfold run.
  destruct (prime rand (init npkts lambd)) as [s1|] eqn:Hp; [|done].
  cbn [mbind result_bind]. intros Hloop.
  exists s1. split; [done|]. by eapply loop_reach_a.
Qed.

Lemma run_inv_a npkts lambd fuel events s :
  run rand fuel (init npkts lambd) = Ok (events, s) ->
  inv s /\ hist events s.
Proof.
  intros Hrun. destruct (run_reach _ _ _ _ _ Hrun) as (s1 & Hp & Hreach).
  pose proof (prime_rate_a _ _ _ Hp) as Hrate.
  destruct (prime_ok_a npkts lambd Hrate) as (s1' & Hp' & Hinv & _).
  rewrite Hp in Hp'. injection Hp' as <-.
  split; [by eapply reach_inv_a|].
  eapply reach_hist_a; [done| |done]. by eapply prime_hist.
Qed.

Lemma run_total_a npkts lambd fuel :
  ~ (lambd == 0)%Q ->
  exists events s, run rand fuel (init npkts lambd) = Ok (events, s).
Proof.
  intros Hrate. destruct (prime_ok_a npkts lambd Hrate) as (s1 & Hp & Hinv & _).
  destruct (loop_total_a fuel s1 Hinv) as (events & s & Hloop & _).
  exists events, s. unfold run. by rewrite Hp.
Qed.

(** *** Event times, when the random source yields non-negative values *)

Section NonNegative.
Hypothesis rand_nonneg : forall k, (0 <= rand k)%Q.

Lemma service_time_nonneg k : (0 <= service_time (rand k))%Q.
Proof.
  unfold service_time, LINK_RATE_BPS.
  pose proof (rand_nonneg k) as Hk.
  apply Qmult_le_0_compat; [|done].
  apply Qle_shift_div_l; [done|]. by rewrite Qmult_0_l.
Qed.

Lemma step_future s e s' :
  inv s -> future_ok s -> loop_body rand s = Ok (e, s') ->
  (curr_time s <= time e)%Q /\ curr_time s' = time e /\ future_ok s'.
Proof.
  intros Hinv Hfut Hbody.
  destruct (step_cases_a s Hinv) as (e0 & h & s0 & Hpop & Hbody0 & Hcase).
  rewrite Hbody in Hbody0. injection Hbody0 as <- <-.
  destruct (pop_ok _ _ _ (inv_heap s Hinv) Hpop) as [_ Hmin].
  assert (curr_time s <= time e)%Q as Hle.
  { unfold future_ok in Hfut. rewrite (pop_perm _ _ _ Hpop) in Hfut.
    by apply Forall_cons in Hfut as [? _]. }
  split; [done|].
  assert (forall k, time e <= time e + rand k)%Q as Hgap.
  { intros k. pose proof (rand_nonneg k). lra. }
  assert (forall k id, time e <= time (departure_of rand (time e) k id))%Q
    as Hdep.
  { intros k id. simpl. pose proof (service_time_nonneg k). lra. }
  destruct Hcase as [[Hty Hpost]|(Hty & t & rest & Hq & Hpost)].
  - destruct Hpost as [_ _ _ Hc _ _ _ _ _ _ _ _ He].
    split; [done|]. unfold future_ok. rewrite Hc.
    destruct (in_service s).
    + destruct He as [-> _]. apply Forall_push; [apply Hgap|done].
    + destruct He as (id & t & rest & _ & -> & _).
      apply Forall_push; [apply Hdep|].
      apply Forall_push; [apply Hgap|done].
  - destruct Hpost as [_ _ _ Hc _ _ _ _ _ _ _ He].
    split; [done|]. unfold future_ok. rewrite Hc.
    destruct rest as [|[id ?] ?].
    + destruct He as (_ & -> & _). done.
    + destruct He as (_ & -> & _). apply Forall_push; [apply Hdep|done].
Qed.

Lemma reach_timed s0 events s :
  inv s0 -> future_ok s0 -> (0 <= curr_time s0)%Q ->
  reach rand s0 events s -> timed events s.
Proof.
  intros Hinv Hfut H0 Hreach.
  induction Hreach as [|events s e s' Hreach IH Hg Hbody].
  - split; [constructor|constructor|constructor|done|done].
  - pose proof (reach_inv_a _ _ _ Hinv Hreach) as Hinvs.
    destruct IH as [Hsorted Hstart Hpast Hclock Hfuture].
    destruct (step_future _ _ _ Hinvs Hfuture Hbody) as (Hle & Hc & Hfut').
    assert (Forall (fun x => time x <= time e)%Q events) as Hbefore.
    { eapply Forall_impl; [done|]. intros x Hx. simpl in Hx. lra. }
    split.
    + apply StronglySorted_app_2; [|done|repeat constructor].
      intros x1 x2 Hx1 Hx2. apply list_elem_of_singleton in Hx2 as ->.
      rewrite Forall_forall in Hbefore. by apply Hbefore.
    + apply Forall_app. split; [done|]. constructor; [lra|done].
    + rewrite Hc. apply Forall_app. split; [done|].
      constructor; [apply Qle_refl|done].
    + rewrite Hc. lra.
    + done.
Qed.

Lemma run_timed npkts lambd fuel events s :
  run rand fuel (init npkts lambd) = Ok (events, s) -> timed events s.
Proof.
  intros Hrun. destruct (run_reach _ _ _ _ _ Hrun) as (s1 & Hp & Hreach).
  pose proof (prime_rate_a _ _ _ Hp) as Hrate.
  destruct (prime_ok_a npkts lambd Hrate)
    as (s1' & Hp' & Hinv & Hev & Hc & _).
  rewrite Hp in Hp'. injection Hp' as <-.
  eapply reach_timed; [done| |by rewrite Hc|done].
  unfold future_ok. rewrite Hev, Hc. constructor; [|done].
  apply rand_nonneg.
Qed.

End NonNegative.

End WithRandom.
End FactsA.

(** ** Lab1partB: the invariants hold along every run *)

Module FactsB.
Import Heapq History Lab1partB InvB EventFacts PyFacts.

Lemma arrival_index_ok_b s :
  inv s ->
  let index := if decide (pkts_in_system s <= 10)%Z
               then pkts_in_system s else 11%Z in
  (0 <= index < Z.of_nat (length (queue_len_record s)))%Z.
Proof.
  intros [_ _ Hc Hr _]. rewrite Hr, Hc. simpl.
  destruct (decide _); lia.
Qed.

Lemma loc_ok (trace : list Row) id :
  label_ok trace id ->
  exists row, trace !! Z.to_nat id = Some row /\
              loc_pkt_size_bytes trace id = Ok (snd row).
Proof.
  intros Hid. unfold label_ok in Hid. unfold loc_pkt_size_bytes.
  rewrite decide_True by lia.
  destruct (trace !! Z.to_nat id) as [row|] eqn:Hrow; [eauto|].
  apply lookup_ge_None in Hrow. unfold Row in *. lia.
Qed.

Lemma arrival_step_b s e h :
  inv s -> heappop Event_lt (event_list s) = Ok (e, h) ->
  type e = arrival -> label_ok (trace s) (pkt_id e) ->
  exists row s',
    trace s !! Z.to_nat (pkt_id e) = Some row /\
    loop_body s = Ok (e, s') /\ arrival_post s e h row s'.
Proof.
  intros Hinv Hpop Hty Hid.
  pose proof (arrival_index_ok_b s Hinv) as Hidx.
  destruct Hinv as [_ Hsvc _ _ _].
  destruct (loc_ok _ _ Hid) as (row & Hrow & Hloc).
  exists row.
  unfold loop_body. rewrite Hpop. cbn [mbind result_bind]. rewrite Hty.
  unfold handle_arrival. cbn -[incr_item heappush start_service].
  rewrite Hloc. cbn -[incr_item heappush start_service].
  destruct (incr_item_ok _ _ Hidx) as (x & Hx & ->).
  cbn -[heappush start_service].
  unfold service_ok in Hsvc. destruct (in_service s) eqn:Hin.
  - cbn -[heappush]. eexists. split; [done|]. split; [done|].
    split; cbn -[heappush]; rewrite ?Hin; eauto.
  - destruct Hsvc as [Hq _]. unfold start_service.
    cbn -[heappush]. rewrite Hq. cbn -[heappush].
    eexists. split; [done|]. split; [done|].
    split; cbn -[heappush]; rewrite ?Hin, ?Hq; eauto 10.
Qed.

Lemma departure_step_b s e h entry rest :
  heappop Event_lt (event_list s) = Ok (e, h) ->
  type e = departure ->
  queue s = entry :: rest ->
  exists s', loop_body s = Ok (e, s') /\
             departure_post s e h entry rest s'.
Proof.
  intros Hpop Hty Hq. destruct entry as [[id t] st].
  unfold loop_body. rewrite Hpop. cbn [mbind result_bind]. rewrite Hty.
  unfold handle_departure. cbn -[heappush start_service]. rewrite Hq.
  destruct rest as [|[[id' t'] st'] rest'].
  - cbn. eexists. split; [done|]. by split.
  - cbn -[heappush start_service]. unfold start_service.
    cbn -[heappush]. eexists. split; [done|]. by split.
Qed.

Lemma pop_the_departure_b s e h :
  service_ok s -> heappop Event_lt (event_list s) = Ok (e, h) ->
  type e = departure ->
  exists entry rest, queue s = entry :: rest /\ entry_id entry = pkt_id e /\
                     in_service s = true /\ ids departure h = [].
Proof.
  intros Hsvc Hpop Hty.
  pose proof (ids_pop_same departure _ _ _ Hpop Hty) as Hp.
  unfold service_ok in Hsvc. destruct (in_service s).
  - destruct Hsvc as (entry & rest & Hq & Hids). rewrite Hids in Hp.
    pose proof (Permutation_length Hp) as Hlen. simpl in Hlen.
    destruct (ids departure h); [|done].
    apply Permutation_singleton_inj in Hp. eauto 10.
  - destruct Hsvc as [_ Hids]. rewrite Hids in Hp.
    by apply Permutation_nil_cons in Hp.
Qed.

Lemma arrival_inv_b s e h row s' :
  inv s -> heappop Event_lt (event_list s) = Ok (e, h) ->
  type e = arrival -> arrival_post s e h row s' -> inv s'.
Proof.
  intros [Hlab Hsvc Hcnt Hrec Hheap] Hpop Hty Hpost.
  pose proof (ids_pop_same arrival _ _ _ Hpop Hty) as Harr.
  pose proof (ids_pop_other departure _ _ _ Hpop
                ltac:(by rewrite Hty)) as Hdep.
  destruct (pop_ok _ _ _ Hheap Hpop) as [Hheap' _].
  destruct Hpost as [Htr Hq _ _ _ Hc _ _ Hr Hs _ He].
  rewrite Harr in Hlab. apply Forall_cons in Hlab as [_ Hlab].
  unfold service_ok in Hsvc.
  split.
  - rewrite Htr. destruct (in_service s).
    + by rewrite He.
    + destruct He as (entry & rest & _ & ->).
      by rewrite ids_push_other.
  - unfold service_ok. rewrite Hs. destruct (in_service s).
    + destruct Hsvc as (entry & rest & Hqs & Hids). rewrite He.
      exists entry, (rest ++ [(pkt_id e, time e, service_time_us row.2)]).
      split; [by rewrite Hq, Hqs|].
      apply Permutation_singleton_r. by rewrite <- Hdep, Hids.
    + destruct Hsvc as [Hqs Hids].
      destruct He as (entry & rest & Hq' & ->).
      exists entry, rest. split; [done|].
      apply Permutation_singleton_r.
      rewrite ids_push_same by done. simpl. by rewrite <- Hdep, Hids.
  - rewrite Hc, Hq, Hcnt, length_app. simpl. lia.
  - destruct Hr as (x & _ & ->). by rewrite length_insert.
  - destruct (in_service s).
    + by rewrite He.
    + destruct He as (entry & rest & _ & ->). by apply push_ok.
Qed.

Lemma departure_inv_b s e h entry rest s' :
  inv s -> heappop Event_lt (event_list s) = Ok (e, h) ->
  type e = departure -> queue s = entry :: rest ->
  departure_post s e h entry rest s' -> inv s'.
Proof.
  intros [Hlab Hsvc Hcnt Hrec Hheap] Hpop Hty Hqs Hpost.
  destruct (pop_the_departure_b _ _ _ Hsvc Hpop Hty)
    as (entry' & rest' & Hqs' & _ & Hin & Hnone).
  pose proof (ids_pop_other arrival _ _ _ Hpop ltac:(by rewrite Hty)) as Harr'.
  destruct (pop_ok _ _ _ Hheap Hpop) as [Hheap' _].
  destruct Hpost as [Htr Hq _ _ _ Hc _ _ Hr _ He].
  rewrite Harr' in Hlab.
  split.
  - rewrite Htr. destruct rest as [|next ?].
    + destruct He as (_ & ->). done.
    + destruct He as (_ & ->). by rewrite ids_push_other.
  - unfold service_ok. destruct rest as [|next rest0].
    + destruct He as (-> & ->). done.
    + destruct He as (-> & ->). exists next, rest0.
      split; [done|]. apply Permutation_singleton_r.
      rewrite ids_push_same by done. by rewrite Hnone.
  - rewrite Hc, Hq, Hcnt, Hqs. simpl. lia.
  - by rewrite Hr.
  - destruct rest as [|next ?].
    + destruct He as (_ & ->). done.
    + destruct He as (_ & ->). by apply push_ok.
Qed.

(** Every iteration on a non-empty event list succeeds, in one of two
    ways. *)
Lemma step_cases_b s :
  inv s -> event_list s <> [] ->
  exists e h s',
    heappop Event_lt (event_list s) = Ok (e, h) /\
    loop_body s = Ok (e, s') /\
    (type e = arrival /\
     (exists row, trace s !! Z.to_nat (pkt_id e) = Some row /\
                  arrival_post s e h row s') \/
     type e = departure /\
     exists entry rest, queue s = entry :: rest /\ entry_id entry = pkt_id e /\
                        departure_post s e h entry rest s').
Proof.
  intros Hinv Hne.
  destruct (HeapqFacts.heappop_nonempty Event_lt (event_list s) Hne)
    as (e & h & Hpop).
  destruct (type e) eqn:Hty.
  - assert (label_ok (trace s) (pkt_id e)) as Hid.
    { pose proof (inv_labels s Hinv) as Hlab.
      rewrite (ids_pop_same arrival _ _ _ Hpop Hty) in Hlab.
      by apply Forall_cons in Hlab as [? _]. }
    destruct (arrival_step_b s e h Hinv Hpop Hty Hid)
      as (row & s' & Hrow & Hbody & Hpost).
    exists e, h, s'. eauto 10.
  - destruct (pop_the_departure_b _ _ _ (inv_service s Hinv) Hpop Hty)
      as (entry & rest & Hq & Hid & _).
    destruct (departure_step_b s e h entry rest Hpop Hty Hq)
      as (s' & Hbody & Hpost).
    exists e, h, s'. eauto 10.
Qed.

Lemma step_inv_b s e s' : inv s -> loop_body s = Ok (e, s') -> inv s'.
Proof.
  intros Hinv Hbody.
  assert (event_list s <> []) as Hne.
  { intros Hnil. unfold loop_body in Hbody. by rewrite Hnil in Hbody. }
  destruct (step_cases_b s Hinv Hne) as (e0 & h & s0 & Hpop & Hbody0 & Hcase).
  rewrite Hbody in Hbody0. injection Hbody0 as <- <-.
  destruct Hcase as [(Hty & row & _ & Hpost)|
                     (Hty & entry & rest & Hq & _ & Hpost)].
  - by eapply arrival_inv_b.
  - by eapply departure_inv_b.
Qed.

(** [pn_loop] divides the counters it visits by the total. *)
Lemma pn_loop_ok_b (record : list Z) total :
  ~ (inject_Z total == 0)%Q ->
  forall n k, (k + n <= length record)%nat ->
  pn_loop record total (map Z.of_nat (seq k n))
  = Ok (map (fun c => (inject_Z c / inject_Z total)%Q) (take n (drop k record))).
Proof.
  intros Hq. induction n as [|n IH]; intros k Hk; [done|].
  cbn [seq map pn_loop].
  destruct (getitem_ok record (Z.of_nat k) ltac:(lia)) as (x & -> & Hx).
  rewrite Nat2Z.id in Hx. cbn [mbind result_bind].
  rewrite truediv_ok by done. cbn [mbind result_bind].
  rewrite IH by lia. cbn [mbind result_bind].
  by rewrite (drop_S _ _ _ Hx).
Qed.

(** [distribution] divides every counter by the total. *)
Lemma distribution_ok_b (record : list Z) :
  length record = 12%nat -> sumZ record <> 0%Z ->
  distribution record
  = Ok (map (fun c => (inject_Z c / inject_Z (sumZ record))%Q) record).
Proof.
  intros Hlen Hsum. pose proof (inject_Z_nonzero _ Hsum) as Hq.
  unfold distribution.
  rewrite (pn_loop_ok_b record _ Hq 11 0) by lia. cbn [mbind result_bind].
  destruct (getitem_ok record 11 ltac:(lia)) as (x & -> & Hx).
  cbn [mbind result_bind]. rewrite truediv_ok by done.
  cbn [mbind result_bind]. f_equal.
  change (Z.to_nat 11) with 11%nat in Hx.
  rewrite drop_0.
  rewrite <- (firstn_all record) at 3. rewrite Hlen.
  rewrite (take_S_r _ _ _ Hx), map_app. done.
Qed.

(** [schedule_rows] only touches the event list: it adds one arrival
    per row, labelled from [id] upwards. *)
Lemma schedule_rows_spec (rows : list Row) : forall id t s,
  let s' := schedule_rows rows id t s in
  trace s' = trace s /\ queue s' = queue s /\ curr_time s' = curr_time s /\
  in_service s' = in_service s /\ total_delay s' = total_delay s /\
  total_pkts s' = total_pkts s /\
  queue_len_record s' = queue_len_record s /\
  pkts_in_system s' = pkts_in_system s /\
  area_under_q s' = area_under_q s /\
  last_event_time s' = last_event_time s /\
  ids arrival (event_list s')
    ≡ₚ map (fun k => (id + Z.of_nat k)%Z) (seq 0 (length rows))
       ++ ids arrival (event_list s) /\
  ids departure (event_list s') ≡ₚ ids departure (event_list s) /\
  (heap_ok Event_lt (event_list s) -> heap_ok Event_lt (event_list s')) /\
  length (event_list s') = (length rows + length (event_list s))%nat.
Proof.
  induction rows as [|row rows IH]; intros id t s; simpl.
  - repeat split; done.
  - specialize (IH (id + 1)%Z (t + row.1)%Q
                   (schedule_event (mkEvent (t + row.1)%Q arrival id) s)).
    simpl in IH.
    destruct IH as (-> & -> & -> & -> & -> & -> & -> & -> & -> & -> &
                    Ha & Hd & Hh & Hl).
    repeat split; try done.
    + rewrite Ha. cbn -[heappush]. rewrite ids_push_same by done.
      rewrite <- seq_shift, map_map. simpl.
      rewrite Z.add_0_r, <- Permutation_middle.
      apply perm_skip, Permutation_app_tail.
      apply reflexive_eq, map_ext. intros k. lia.
    + rewrite Hd. cbn -[heappush]. by rewrite ids_push_other.
    + intros Hok. apply Hh. cbn -[heappush]. by apply push_ok.
    + rewrite Hl. cbn -[heappush].
      rewrite (Permutation_length (push_perm _ _)). simpl. lia.
Qed.

Lemma prime_spec (trace : list Row) :
  let s := prime (init trace) in
  inv s /\ hist [] s /\ Lab1partB.trace s = trace /\
  length (event_list s) = length trace /\
  ids arrival (event_list s) ≡ₚ map Z.of_nat (seq 0 (length trace)) /\
  queue s = [] /\ total_pkts s = 0%Z /\ curr_time s = 0%Q /\
  area_under_q s = 0%Q /\ total_delay s = 0%Q.
Proof.
  unfold prime. change (Lab1partB.trace (init trace)) with trace.
  pose proof (schedule_rows_spec trace 0%Z 0%Q (init trace)) as Hs.
  simpl in Hs.
  destruct Hs as (Ht & Hq & Hc & Hi & Hd & Hp & Hr & Hn & Ha & Hl &
                  Harr & Hdep & Hheap & Hlen).
  rewrite app_nil_r in Harr. apply Permutation_nil_r in Hdep.
  assert (ids arrival (event_list (schedule_rows trace 0%Z 0%Q (init trace)))
          ≡ₚ map Z.of_nat (seq 0 (length trace))) as Harr'.
  { rewrite Harr. apply reflexive_eq, map_ext. intros k. lia. }
  rewrite Nat.add_0_r in Hlen.
  repeat split; try done.
  - rewrite Ht. simpl. rewrite Harr'. apply Forall_forall.
    intros id Hin. apply list_elem_of_fmap in Hin as (k & -> & Hk).
    apply elem_of_seq in Hk. unfold label_ok. unfold Row in *. lia.
  - unfold service_ok. by rewrite Hi, Hq.
  - by rewrite Hn, Hq.
  - by rewrite Hr.
  - apply Hheap, heap_ok_nil.
  - by rewrite Hq.
  - simpl. by rewrite Harr', Ht.
  - by rewrite Hq.
  - by rewrite Hq.
  - by rewrite Ha.
  - by rewrite Hd.
  - by rewrite Hr.
Qed.

Lemma hist_in_system_b events s :
  inv s -> hist events s -> pkts_in_system s = in_system events.
Proof.
  intros Hinv Hh. rewrite (inv_count s Hinv). unfold in_system.
  rewrite !count_ids, (hist_fifo _ _ Hh), length_app, length_map. lia.
Qed.

Lemma arrival_hist_b events s e h row s' :
  inv s -> hist events s ->
  heappop Event_lt (event_list s) = Ok (e, h) -> type e = arrival ->
  trace s !! Z.to_nat (pkt_id e) = Some row ->
  arrival_post s e h row s' -> hist (events ++ [e]) s'.
Proof.
  intros Hinv Hh Hpop Hty Hrow Hpost.
  pose proof (hist_in_system_b _ _ Hinv Hh) as Hsys.
  pose proof (ids_pop_same arrival _ _ _ Hpop Hty) as Hpa.
  destruct Hh as [Hfifo Hnd Hst Hsv [Hlast Hcur] Harea Hpk Hdl Hrec].
  destruct Hpost as [Htr Hq Hc Hl Ha _ Hd Hp Hr _ _ He].
  assert (ids arrival (event_list s') ≡ₚ ids arrival h) as Hpend.
  { destruct (in_service s).
    - by rewrite He.
    - destruct He as (entry & rest & _ & ->). by rewrite ids_push_other. }
  rewrite Hpa in Hnd.
  assert (pkt_id e ∉ ids arrival events) as Hfresh.
  { assert (NoDup (ids arrival events ++ pkt_id e :: ids arrival h)) as Hno.
    { rewrite Hnd. apply NoDup_fmap_2; [|apply NoDup_seq].
      intros x y Hxy. lia. }
    apply NoDup_app in Hno as (_ & Hdis & _). intros Hin.
    apply (Hdis _ Hin). by left. }
  split.
  - rewrite !ids_snoc, Hty, decide_True, decide_False by done.
    rewrite Hq, map_app, Hfifo. simpl. by rewrite app_assoc.
  - rewrite ids_snoc, decide_True by done.
    rewrite Hpend, <- app_assoc, Htr. done.
  - rewrite Hq. apply Forall_app. split.
    + eapply Forall_impl; [exact Hst|]. intros entry Hs. simpl in *.
      by apply arrival_stamp_app_l.
    + constructor; [|done]. simpl. by apply arrival_stamp_snoc.
  - rewrite Hq, Htr. apply Forall_app. split; [done|].
    constructor; [|done]. by exists row.
  - by rewrite clock_snoc.
  - rewrite Ha, area_snoc, Harea, Hsys, Hlast. reflexivity.
  - rewrite count_snoc, decide_False by (by rewrite Hty). lia.
  - rewrite Hd, sojourn_sum_snoc, Hty, Hdl. ring.
  - destruct Hr as (x & Hx & ->).
    rewrite (sumZ_insert _ _ _ _ Hx), count_snoc, decide_True by done. lia.
Qed.

Lemma departure_hist_b events s e h entry rest s' :
  inv s -> hist events s ->
  heappop Event_lt (event_list s) = Ok (e, h) -> type e = departure ->
  queue s = entry :: rest -> entry_id entry = pkt_id e ->
  departure_post s e h entry rest s' -> hist (events ++ [e]) s'.
Proof.
  intros Hinv Hh Hpop Hty Hqs Hid Hpost.
  pose proof (hist_in_system_b _ _ Hinv Hh) as Hsys.
  pose proof (ids_pop_other arrival _ _ _ Hpop ltac:(by rewrite Hty)) as Hpa.
  destruct Hh as [Hfifo Hnd Hst Hsv [Hlast Hcur] Harea Hpk Hdl Hrec].
  destruct Hpost as [Htr Hq Hc Hl Ha _ Hd Hp Hr _ He].
  assert (ids arrival (event_list s') ≡ₚ ids arrival h) as Hpend.
  { destruct rest as [|next ?].
    - destruct He as (_ & ->). done.
    - destruct He as (_ & ->). by rewrite ids_push_other. }
  rewrite Hqs in Hfifo, Hst, Hsv. simpl in Hfifo.
  apply Forall_cons in Hst as [Hstamp Hst].
  apply Forall_cons in Hsv as [_ Hsv].
  split.
  - rewrite !ids_snoc, Hty, decide_False, decide_True by done.
    rewrite Hq, Hfifo, <- app_assoc, Hid. done.
  - rewrite ids_snoc, decide_False by (by rewrite Hty).
    by rewrite Hpend, <- Hpa, Htr.
  - rewrite Hq. eapply Forall_impl; [exact Hst|]. intros x Hs. simpl in *.
    by apply arrival_stamp_app_l.
  - by rewrite Hq, Htr.
  - by rewrite clock_snoc.
  - rewrite Ha, area_snoc, Harea, Hsys, Hlast. reflexivity.
  - rewrite count_snoc, decide_True by done. lia.
  - rewrite Hd, sojourn_sum_snoc, Hty, <- Hid, Hstamp, Hdl. reflexivity.
  - rewrite Hr, count_snoc, decide_False by (by rewrite Hty). done.
Qed.

Lemma reach_cons_b s0 e s1 events s :
  event_list s0 <> [] -> loop_body s0 = Ok (e, s1) ->
  reach s1 events s -> reach s0 (e :: events) s.
Proof.
  intros Hguard Hbody Hreach. induction Hreach as [|events s e' s' _ IH Hg Hb].
  - apply (reach_snoc s0 [] s0 e s1); [constructor|done|done].
  - apply (reach_snoc s0 (e :: events) s e' s'); done.
Qed.

Lemma loop_reach_b fuel : forall s0 events s,
  loop fuel s0 = Ok (events, s) -> reach s0 events s.
Proof.
  induction fuel as [|fuel IH]; intros s0 events s; simpl.
  - intros [= <- <-]. constructor.
  - destruct (event_list s0) as [|x l] eqn:Hl.
    { intros [= <- <-]. constructor. }
    destruct (loop_body s0) as [[e s1]|] eqn:Hbody; [|done].
    cbn [mbind result_bind].
    destruct (loop fuel s1) as [[events' s']|] eqn:Hloop; [|done].
    cbn. intros [= <- <-]. eapply reach_cons_b; eauto. by rewrite Hl.
Qed.

Lemma reach_inv_b s0 events s : inv s0 -> reach s0 events s -> inv s.
Proof.
  intros Hinv Hreach. induction Hreach; [done|]. by eapply step_inv_b.
Qed.

Lemma reach_hist_b s0 events s :
  inv s0 -> hist [] s0 -> reach s0 events s -> hist events s.
Proof.
  intros Hinv Hh Hreach.
  induction Hreach as [|events s e s' Hreach IH Hg Hbody]; [done|].
  pose proof (reach_inv_b _ _ _ Hinv Hreach) as Hinvs.
  destruct (step_cases_b s Hinvs Hg) as (e0 & h & s1 & Hpop & Hbody0 & Hcase).
  rewrite Hbody in Hbody0. injection Hbody0 as <- <-.
  destruct Hcase as [(Hty & row & Hrow & Hpost)|
                     (Hty & entry & rest & Hq & Hid & Hpost)].
  - by eapply arrival_hist_b.
  - by eapply departure_hist_b.
Qed.

(** The loop never raises. *)
Lemma loop_total_b fuel : forall s,
  inv s -> exists events s', loop fuel s = Ok (events, s') /\ inv s'.
Proof.
  induction fuel as [|fuel IH]; intros s Hinv; simpl; [eauto|].
  destruct (event_list s) as [|x l] eqn:Hl; [eauto|].
  destruct (step_cases_b s Hinv ltac:(by rewrite Hl))
    as (e & h & s1 & _ & Hbody & _).
  rewrite Hbody. cbn [mbind result_bind].
  destruct (IH s1 (step_inv_b _ _ _ Hinv Hbody)) as (events & s' & -> & Hinv').
  cbn. eauto.
Qed.

(** *** The trace loop drains the event list *)

Lemma idle_nil s :
  inv s -> ids arrival (event_list s) = [] -> queue s = [] ->
  event_list s = [].
Proof.
  intros Hinv Ha Hq. apply no_ids_nil; [done|].
  pose proof (inv_service s Hinv) as Hsvc. unfold service_ok in Hsvc.
  destruct (in_service s).
  - destruct Hsvc as (entry & rest & Hq' & _). by rewrite Hq in Hq'.
  - by destruct Hsvc.
Qed.

Lemma nil_idle s :
  inv s -> event_list s = [] -> queue s = [] /\ remaining s = 0%nat.
Proof.
  intros Hinv Hnil.
  pose proof (inv_service s Hinv) as Hsvc. unfold service_ok in Hsvc.
  unfold remaining. rewrite Hnil in *. destruct (in_service s).
  - by destruct Hsvc as (entry & rest & _ & ?).
  - destruct Hsvc as [-> _]. done.
Qed.

Lemma step_remaining s e s' :
  inv s -> loop_body s = Ok (e, s') -> S (remaining s') = remaining s.
Proof.
  intros Hinv Hbody.
  assert (event_list s <> []) as Hne.
  { intros Hnil. unfold loop_body in Hbody. by rewrite Hnil in Hbody. }
  destruct (step_cases_b s Hinv Hne) as (e0 & h & s0 & Hpop & Hbody0 & Hcase).
  rewrite Hbody in Hbody0. injection Hbody0 as <- <-.
  unfold remaining.
  destruct Hcase as [(Hty & row & _ & Hpost)|
                     (Hty & entry & rest & Hq & _ & Hpost)].
  - rewrite (Permutation_length (ids_pop_same arrival _ _ _ Hpop Hty)).
    destruct Hpost as [_ Hq _ _ _ _ _ _ _ _ _ He].
    assert (ids arrival (event_list s') ≡ₚ ids arrival h) as ->.
    { destruct (in_service s).
      - by rewrite He.
      - destruct He as (entry & rest & _ & ->). by rewrite ids_push_other. }
    rewrite Hq, length_app. simpl. lia.
  - rewrite (Permutation_length
               (ids_pop_other arrival _ _ _ Hpop ltac:(by rewrite Hty))).
    destruct Hpost as [_ Hq' _ _ _ _ _ _ _ _ He].
    assert (ids arrival (event_list s') ≡ₚ ids arrival h) as ->.
    { destruct rest as [|next ?].
      - destruct He as (_ & ->). done.
      - destruct He as (_ & ->). by rewrite ids_push_other. }
    rewrite Hq, Hq'. simpl. lia.
Qed.

(** With enough fuel the loop ends by itself, on an empty event list,
    after exactly [remaining] iterations. *)
Lemma loop_drains fuel : forall s,
  inv s -> remaining s <= fuel ->
  exists events s',
    loop fuel s = Ok (events, s') /\ event_list s' = [] /\
    length events = remaining s.
Proof.
  induction fuel as [|fuel IH]; intros s Hinv Hfuel; cbn [loop].
  - assert (remaining s = 0)%nat as H0 by lia.
    exists [], s. split; [done|]. split; [|by rewrite H0].
    unfold remaining in H0. clear Hfuel.
    apply idle_nil; [done|..]; apply length_zero_iff_nil; lia.
  - destruct (event_list s) as [|x l] eqn:Hl.
    { destruct (nil_idle s Hinv Hl) as [_ ->]. by exists [], s. }
    destruct (step_cases_b s Hinv ltac:(by rewrite Hl))
      as (e & h & s1 & _ & Hbody & _).
    rewrite Hbody. cbn [mbind result_bind].
    pose proof (step_remaining _ _ _ Hinv Hbody) as Hrem.
    destruct (IH s1 (step_inv_b _ _ _ Hinv Hbody) ltac:(lia))
      as (events & s' & -> & Hnil & Hlen).
    cbn [mbind result_bind]. exists (e :: events), s'.
    repeat split; [done|]. cbn [length]. lia.
Qed.

Lemma service_ok_pending_b s :
  service_ok s ->
  (length (of_type departure (event_list s)) <= 1)%nat /\
  forall d, d ∈ event_list s -> type d = departure ->
            exists entry rest,
              queue s = entry :: rest /\ entry_id entry = pkt_id d.
Proof.
  unfold service_ok. intros Hsvc. rewrite length_of_type.
  destruct (in_service s).
  - destruct Hsvc as (entry & rest & Hq & Hids). rewrite Hids.
    split; [done|]. intros d Hin Hty.
    pose proof (elem_of_ids departure _ _ Hin Hty) as Hd.
    rewrite Hids in Hd. apply list_elem_of_singleton in Hd. eauto.
  - destruct Hsvc as [_ Hids]. rewrite Hids. split; [simpl; lia|].
    intros d Hin Hty.
    pose proof (elem_of_ids departure _ _ Hin Hty) as Hd.
    rewrite Hids in Hd. by apply not_elem_of_nil in Hd.
Qed.

Lemma departure_pops_head_b s e s' :
  inv s -> loop_body s = Ok (e, s') -> type e = departure ->
  exists entry rest,
    queue s = entry :: rest /\ entry_id entry = pkt_id e /\ queue s' = rest.
Proof.
  intros Hinv Hbody Hty.
  assert (event_list s <> []) as Hne.
  { intros Hnil. unfold loop_body in Hbody. by rewrite Hnil in Hbody. }
  destruct (step_cases_b s Hinv Hne) as (e0 & h & s0 & Hpop & Hbody0 & Hcase).
  rewrite Hbody in Hbody0. injection Hbody0 as <- <-.
  destruct Hcase as [[Hty' _]|(_ & entry & rest & Hq & Hid & Hpost)].
  - by rewrite Hty in Hty'.
  - exists entry, rest. repeat split; [done|done|].
    apply (dp_queue _ _ _ _ _ _ Hpost).
Qed.

(** The events one iteration adds to the event list: only departures,
    each at the popped time plus the service time of its row. *)
Lemma added_events_b events s e s' :
  inv s -> hist events s -> loop_body s = Ok (e, s') ->
  exists added,
    e :: event_list s' ≡ₚ added ++ event_list s /\
    Forall (fun d => type d = departure /\
                     exists row,
                       trace s !! Z.to_nat (pkt_id d) = Some row /\
                       time d = (time e + service_time_us (snd row))%Q)
           added.
Proof.
  intros Hinv Hh Hbody.
  assert (event_list s <> []) as Hne.
  { intros Hnil. unfold loop_body in Hbody. by rewrite Hnil in Hbody. }
  destruct (step_cases_b s Hinv Hne) as (e0 & h & s0 & Hpop & Hbody0 & Hcase).
  rewrite Hbody in Hbody0. injection Hbody0 as <- <-.
  pose proof (pop_perm _ _ _ Hpop) as Hperm.
  pose proof (hist_service _ _ Hh) as Hsv.
  destruct Hcase as [(Hty & row & Hrow & Hpost)|
                     (Hty & entry & rest & Hq & Hid & Hpost)].
  - pose proof (ap_events _ _ _ _ _ Hpost) as He.
    pose proof (ap_queue _ _ _ _ _ Hpost) as Hq'.
    pose proof (inv_service s Hinv) as Hsvc. unfold service_ok in Hsvc.
    destruct (in_service s).
    + rewrite He. exists []. split; [by rewrite Hperm|done].
    + destruct Hsvc as [Hq _].
      destruct He as (entry & rest & Hq'' & ->).
      rewrite Hq' , Hq in Hq''. injection Hq'' as <- <-.
      eexists [_]. split.
      * rewrite push_perm, Hperm. simpl. apply perm_swap.
      * constructor; [|done]. split; [done|]. by exists row.
  - pose proof (dp_events _ _ _ _ _ _ Hpost) as He.
    destruct rest as [|next ?].
    + destruct He as (_ & ->). exists []. split; [by rewrite Hperm|done].
    + destruct He as (_ & ->). rewrite Hq in Hsv.
      apply Forall_cons in Hsv as [_ Hsv].
      apply Forall_cons in Hsv as [(row & Hrow & Hst) _].
      eexists [_]. split.
      * rewrite push_perm, Hperm. simpl. apply perm_swap.
      * constructor; [|done]. split; [done|]. exists row.
        split; [done|]. simpl. by rewrite Hst.
Qed.

(** *** From a run to its invariants *)

Lemma reach_trace s0 events s :
  inv s0 -> reach s0 events s -> trace s = trace s0.
Proof.
  intros Hinv Hreach.
  induction Hreach as [|events s e s' Hreach IH Hg Hbody]; [done|].
  pose proof (reach_inv_b _ _ _ Hinv Hreach) as Hinvs.
  destruct (step_cases_b s Hinvs Hg) as (e0 & h & s1 & Hpop & Hbody0 & Hcase).
  rewrite Hbody in Hbody0. injection Hbody0 as <- <-.
  destruct Hcase as [(Hty & row & _ & Hpost)|
                     (Hty & entry & rest & Hq & _ & Hpost)].
  - by rewrite (ap_trace _ _ _ _ _ Hpost).
  - by rewrite (dp_trace _ _ _ _ _ _ Hpost).
Qed.

Lemma run_loop (trace : list Row) fuel :
  run fuel (init trace) = loop fuel (prime (init trace)).
Proof.
  unfold run. destruct (event_list (prime (init trace))) eqn:Hl; [|done].
  destruct fuel; simpl; [done|]. by rewrite Hl.
Qed.

Lemma run_inv_b (trace : list Row) fuel events s :
  run fuel (init trace) = Ok (events, s) ->
  inv s /\ hist events s /\ Lab1partB.trace s = trace.
Proof.
  rewrite run_loop. intros Hloop. apply loop_reach_b in Hloop.
  destruct (prime_spec trace) as (Hinv & Hh & Ht & _).
  split; [by eapply reach_inv_b|]. split; [by eapply reach_hist_b|].
  by rewrite (reach_trace _ _ _ Hinv Hloop).
Qed.

Lemma run_total_b (trace : list Row) fuel :
  exists events s, run fuel (init trace) = Ok (events, s).
Proof.
  rewrite run_loop. destruct (prime_spec trace) as (Hinv & _).
  destruct (loop_total_b fuel _ Hinv) as (events & s & Hloop & _). eauto.
Qed.

(** With fuel for two events per row the run ends on an empty event
    list, having popped exactly that many events. *)
Lemma run_drains (trace : list Row) fuel :
  2 * length trace <= fuel ->
  exists events s,
    run fuel (init trace) = Ok (events, s) /\ event_list s = [] /\
    length events = (2 * length trace)%nat.
Proof.
  intros Hfuel. rewrite run_loop.
  destruct (prime_spec trace) as (Hinv & _ & _ & _ & Hids & Hq & _).
  assert (remaining (prime (init trace)) = 2 * length trace)%nat as Hrem.
  { unfold remaining. rewrite Hq, (Permutation_length Hids), length_map,
      length_seq. simpl. lia. }
  destruct (loop_drains fuel _ Hinv ltac:(lia)) as (events & s & Hl & Hn & Hlen).
  exists events, s. by rewrite <- Hrem.
Qed.

(** *** The dynamic types of the float fields *)





End FactsB.

(** ** 001.py: the invariants hold along every run *)

Module Facts001.

Lemma plain_time e : time (Inv001.plain e) = Sim001.time e.
Proof. done. Qed.

Lemma plain_type e : type (Inv001.plain e) = Sim001.event_type e.
Proof. done. Qed.

Lemma plain_id e :
  pkt_id (Inv001.plain e) = Sim001.number (Sim001.packet e).
Proof. done. Qed.

Import Heapq Sim001 Inv001 PyFacts.

Lemma Event_le_time_001 a b : le Event_lt a b <-> (time a <= time b)%Q.
Proof. unfold le, Event_lt. apply EventFacts.Qltb_false. Qed.

Lemma Event_lt_irrefl_001 x : Event_lt x x = false.
Proof. apply EventFacts.Qltb_false. apply Qle_refl. Qed.

Lemma Event_le_trans_001 x y z :
  le Event_lt x y -> le Event_lt y z -> le Event_lt x z.
Proof. rewrite !Event_le_time_001. apply Qle_trans. Qed.

Lemma Event_lt_asym_001 x y : Event_lt x y = true -> le Event_lt x y.
Proof.
  unfold Event_lt. rewrite EventFacts.Qltb_true, Event_le_time_001.
  apply Qlt_le_weak.
Qed.

Lemma push_perm_001 (h : list Event) e : heappush Event_lt h e ≡ₚ e :: h.
Proof. apply HeapqFacts.heappush_perm. Qed.

Lemma pop_perm_001 (h : list Event) e h' :
  heappop Event_lt h = Ok (e, h') -> h ≡ₚ e :: h'.
Proof. apply HeapqFacts.heappop_perm. Qed.

Lemma push_ok_001 (h : list Event) e :
  heap_ok Event_lt h -> heap_ok Event_lt (heappush Event_lt h e).
Proof.
  apply HeapqFacts.heappush_ok.
  - apply Event_le_trans_001.
  - apply Event_lt_asym_001.
Qed.

Lemma pop_ok_001 (h : list Event) e h' :
  heap_ok Event_lt h -> heappop Event_lt h = Ok (e, h') ->
  heap_ok Event_lt h' /\ Forall (fun y => (time e <= time y)%Q) h'.
Proof.
  intros Hok Hpop.
  destruct (HeapqFacts.heappop_ok Event_lt Event_lt_irrefl_001 Event_le_trans_001
              Event_lt_asym_001 h e h' Hok Hpop) as [Hok' Hmin].
  split; [done|]. apply Forall_forall. intros y Hy.
  apply Event_le_time_001, Hmin, Hy.
Qed.

Lemma of_type_cons ty e (h : list Event) :
  of_type ty (e :: h) = if decide (event_type e = ty) then e :: of_type ty h
                        else of_type ty h.
Proof. unfold of_type. rewrite filter_cons. by destruct (decide _). Qed.

Lemma of_type_perm ty (h h' : list Event) :
  h ≡ₚ h' -> of_type ty h ≡ₚ of_type ty h'.
Proof. intros Hp. unfold of_type. by apply filter_Permutation. Qed.

Lemma of_type_push_same ty (h : list Event) e :
  event_type e = ty -> of_type ty (heappush Event_lt h e) ≡ₚ e :: of_type ty h.
Proof.
  intros Hty. rewrite (of_type_perm _ _ _ (push_perm_001 h e)), of_type_cons.
  by rewrite decide_True.
Qed.

Lemma of_type_push_other ty (h : list Event) e :
  event_type e <> ty -> of_type ty (heappush Event_lt h e) ≡ₚ of_type ty h.
Proof.
  intros Hty. rewrite (of_type_perm _ _ _ (push_perm_001 h e)), of_type_cons.
  by rewrite decide_False.
Qed.

Lemma of_type_pop_same ty (h0 : list Event) e h :
  heappop Event_lt h0 = Ok (e, h) -> event_type e = ty ->
  of_type ty h0 ≡ₚ e :: of_type ty h.
Proof.
  intros Hpop Hty. rewrite (of_type_perm _ _ _ (pop_perm_001 _ _ _ Hpop)).
  rewrite of_type_cons. by rewrite decide_True.
Qed.

Lemma of_type_pop_other ty (h0 : list Event) e h :
  heappop Event_lt h0 = Ok (e, h) -> event_type e <> ty ->
  of_type ty h0 ≡ₚ of_type ty h.
Proof.
  intros Hpop Hty. rewrite (of_type_perm _ _ _ (pop_perm_001 _ _ _ Hpop)).
  rewrite of_type_cons. by rewrite decide_False.
Qed.

Lemma service_time_of_ok server size :
  service_rate_bps server <> 0%Z ->
  service_time_of server size
  = Ok (service_time (service_rate_bps server) size).
Proof.
  intros Hrate. unfold service_time_of. rewrite truediv_ok; [done|].
  intros Heq. apply Hrate.
  unfold Qeq in Heq. simpl in Heq. lia.
Qed.

Lemma history_snoc events e : history (events ++ [e]) = history events ++ [plain e].
Proof. unfold history. by rewrite map_app. Qed.

Lemma sumQ_app (l1 l2 : list Q) : (sumQ (l1 ++ l2) == sumQ l1 + sumQ l2)%Q.
Proof.
  induction l1 as [|x l1 IH]; simpl; [ring|]. rewrite IH. ring.
Qed.

Lemma delays_snoc events e :
  (delays (events ++ [e])
   == delays events
      + match event_type e with
        | departure => time e - arrival_time (packet e)
        | arrival => 0
        end)%Q.
Proof. unfold delays. rewrite map_app, sumQ_app. simpl. ring. Qed.

Lemma residence_keys now ps :
  residence now ps = sumQ (map (fun k => (now - k.2)%Q) (map key ps)).
Proof. unfold residence. by rewrite map_map. Qed.

Lemma residence_shift now now' ps :
  (residence now' ps
   == residence now ps + inject_Z (Z.of_nat (length ps)) * (now' - now))%Q.
Proof.
  unfold residence. induction ps as [|p ps IH].
  - simpl. ring.
  - cbn [map sumQ foldr length]. fold (sumQ (map (fun p => (now' - arrival_time p)%Q) ps)).
    fold (sumQ (map (fun p => (now - arrival_time p)%Q) ps)).
    rewrite IH, Nat2Z.inj_succ. unfold Z.succ. rewrite inject_Z_plus. ring.
Qed.

(** [prob_loop] divides the counters it visits by a positive total. *)
Lemma prob_loop_ok (counter : list Z) total :
  (0 < total)%Z ->
  forall n k, (k + n <= length counter)%nat ->
  prob_loop counter total (map Z.of_nat (seq k n))
  = Ok (map (fun c => (inject_Z c / inject_Z total)%Q) (take n (drop k counter))).
Proof.
  intros Hpos. pose proof (inject_Z_nonzero total ltac:(lia)) as Hq.
  induction n as [|n IH]; intros k Hk; [done|].
  cbn [seq map prob_loop]. rewrite decide_True by lia.
  destruct (getitem_ok counter (Z.of_nat k) ltac:(lia)) as (x & -> & Hx).
  rewrite Nat2Z.id in Hx. cbn [mbind result_bind].
  rewrite truediv_ok by done. cbn [mbind result_bind].
  rewrite IH by lia. cbn [mbind result_bind].
  by rewrite (drop_S _ _ _ Hx).
Qed.

Lemma probs_ok (counter : list Z) :
  length counter = 11%nat -> (0 < sumZ counter)%Z ->
  prob_loop counter (sumZ counter) (map Z.of_nat (seq 0 11))
  = Ok (map (fun c => (inject_Z c / inject_Z (sumZ counter))%Q) counter).
Proof.
  intros Hlen Hsum. rewrite (prob_loop_ok counter _ Hsum 11 0) by lia.
  rewrite drop_0, <- Hlen, firstn_all. done.
Qed.

Lemma bar_heights_ok (counter : list Z) total :
  total <> 0%Z ->
  bar_heights counter total
  = Ok (map (fun c => (inject_Z c / inject_Z total)%Q) counter).
Proof.
  intros Hne. pose proof (inject_Z_nonzero _ Hne) as Hq.
  induction counter as [|x rest IH]; [done|].
  cbn [bar_heights map]. rewrite truediv_ok by done.
  cbn [mbind result_bind]. rewrite IH. done.
Qed.

Section WithRandom.
Variable rand : nat -> Q.

Lemma draw_ok_001 rate s :
  ~ (rate == 0)%Q ->
  draw rand rate s = Ok (rand (draws s), set_draws (S (draws s)) s).
Proof. intros Hr. unfold draw. by rewrite expovariate_ok. Qed.

Lemma size_rate_nonzero : ~ (1 / 1250 == 0)%Q.
Proof. done. Qed.

Lemma counter_index_ok s :
  inv s ->
  (0 <= Z.min (Z.of_nat (length (queue s))) 10
   < Z.of_nat (length (pn_counter s)))%Z.
Proof. intros Hinv. rewrite (inv_counter s Hinv). lia. Qed.

Lemma arrival_step_001 s e h :
  inv s -> heappop Event_lt (event_list s) = Ok (e, h) ->
  event_type e = arrival ->
  exists s', loop_body rand s = Ok (e, s') /\ arrival_post rand s e h s'.
Proof.
  intros Hinv Hpop Hty.
  pose proof (counter_index_ok s Hinv) as Hidx.
  destruct Hinv as [Hrate Hsrv _ _ _ _].
  unfold loop_body. rewrite Hpop. cbn [mbind result_bind]. rewrite Hty.
  unfold handle_arrival.
  cbn -[incr_item draw heappush begin_service generate_packet Z.min].
  destruct (incr_item_ok _ _ Hidx) as (x & Hx & ->).
  cbn -[draw heappush begin_service generate_packet Z.min].
  unfold begin_service, generate_packet.
  destruct (busy (server s)) eqn:Hbusy;
    cbn -[draw heappush service_time_of Z.min].
  - destruct (decide (packet_count s < npkts s)%Z) as [Hlt|Hge].
    + rewrite draw_ok_001 by apply size_rate_nonzero.
      cbn -[draw heappush Z.min]. rewrite draw_ok_001 by done.
      cbn -[heappush Z.min]. eexists. split; [done|].
      split; cbn -[heappush Z.min]; rewrite ?Hbusy, ?decide_True; eauto.
    + eexists. split; [done|].
      split; cbn -[heappush Z.min]; rewrite ?Hbusy, ?decide_False; eauto.
  - rewrite service_time_of_ok by done.
    cbn -[draw heappush Z.min].
    destruct (decide (packet_count s < npkts s)%Z) as [Hlt|Hge].
    + rewrite draw_ok_001 by apply size_rate_nonzero.
      cbn -[draw heappush Z.min]. rewrite draw_ok_001 by done.
      cbn -[heappush Z.min]. eexists. split; [done|].
      split; cbn -[heappush Z.min]; rewrite ?Hbusy, ?decide_True; eauto.
    + eexists. split; [done|].
      split; cbn -[heappush Z.min]; rewrite ?Hbusy, ?decide_False; eauto.
Qed.

Lemma departure_step_001 s e h dt :
  service_rate_bps (server s) <> 0%Z ->
  heappop Event_lt (event_list s) = Ok (e, h) ->
  event_type e = departure ->
  departure_time (packet e) = Some dt ->
  exists s', loop_body rand s = Ok (e, s') /\ departure_post s e h dt s'.
Proof.
  intros Hsrv Hpop Hty Hdt.
  unfold loop_body. rewrite Hpop. cbn [mbind result_bind]. rewrite Hty.
  unfold handle_departure. rewrite Hdt.
  cbn -[heappush begin_service].
  destruct (queue s) as [|p rest] eqn:Hq.
  - cbn. eexists. split; [done|]. split; cbn; rewrite ?Hq; done.
  - cbn -[heappush begin_service]. unfold begin_service.
    cbn -[heappush service_time_of].
    rewrite service_time_of_ok by done.
    cbn -[heappush]. eexists. split; [done|].
    split; cbn -[heappush]; rewrite ?Hq; done.
Qed.

Lemma pop_the_departure_001 s e h :
  busy_ok s -> heappop Event_lt (event_list s) = Ok (e, h) ->
  event_type e = departure ->
  busy (server s) = true /\ departure_time (packet e) = Some (time e) /\
  of_type departure (event_list s) = [e] /\ of_type departure h = [].
Proof.
  intros Hbusy Hpop Hty.
  pose proof (of_type_pop_same departure _ _ _ Hpop Hty) as Hp.
  unfold busy_ok in Hbusy. destruct (busy (server s)).
  - destruct Hbusy as (d & Hd & Hdt). rewrite Hd in Hp.
    pose proof (Permutation_length Hp) as Hlen. simpl in Hlen.
    destruct (of_type departure h); [|done].
    apply Permutation_singleton_inj in Hp. subst d. done.
  - destruct Hbusy as [Hd _]. rewrite Hd in Hp.
    by apply Permutation_nil_cons in Hp.
Qed.

Lemma arrival_inv_001 s e h s' :
  inv s -> heappop Event_lt (event_list s) = Ok (e, h) ->
  event_type e = arrival -> arrival_post rand s e h s' -> inv s'.
Proof.
  intros [Hrate Hsrv Hbusy Harr Hcnt Hheap] Hpop Hty Hpost.
  pose proof (of_type_pop_same arrival _ _ _ Hpop Hty) as Hpa.
  pose proof (of_type_pop_other departure _ _ _ Hpop
                ltac:(by rewrite Hty)) as Hpd.
  destruct (pop_ok_001 _ _ _ Hheap Hpop) as [Hheap' _].
  destruct Hpost as [_ Hl Hr _ _ _ Hc Hb Hq He].
  rewrite Hpa in Harr. apply Forall_cons in Harr as [_ Harr].
  set (rate := service_rate_bps (server s)) in *.
  set (h1 := if busy (server s) then h
             else heappush Event_lt h (departure_ev rate (time e) (packet e)))
    in He.
  assert (heap_ok Event_lt h1) as Hh1.
  { subst h1. destruct (busy (server s)); [done|by apply push_ok_001]. }
  assert (of_type arrival h1 ≡ₚ of_type arrival h) as Ha1.
  { subst h1. destruct (busy (server s)); [done|].
    by rewrite of_type_push_other. }
  assert (exists d, of_type departure h1 = [d] /\
                    departure_time (packet d) = Some (time d)) as Hd1.
  { subst h1. unfold busy_ok in Hbusy. destruct (busy (server s)).
    - destruct Hbusy as (d & Hd & Hdt). exists d. split; [|done].
      apply Permutation_singleton_r. by rewrite <- Hpd, Hd.
    - destruct Hbusy as [Hd _]. eexists. split.
      + apply Permutation_singleton_r.
        rewrite of_type_push_same by done. by rewrite <- Hpd, Hd.
      + done. }
  split.
  - by rewrite Hl.
  - by rewrite Hr.
  - unfold busy_ok. rewrite Hb. destruct Hd1 as (d & Hd & Hdt).
    exists d. split; [|done]. destruct (decide _).
    + destruct He as (-> & _). apply Permutation_singleton_r.
      rewrite of_type_push_other by done. by rewrite Hd.
    + destruct He as (-> & _). done.
  - destruct (decide _).
    + destruct He as (-> & _). rewrite of_type_push_same by done.
      constructor; [done|]. by rewrite Ha1.
    + destruct He as (-> & _). by rewrite Ha1.
  - destruct Hc as (x & _ & ->). by rewrite length_insert.
  - destruct (decide _).
    + destruct He as (-> & _). by apply push_ok_001.
    + destruct He as (-> & _). done.
Qed.

Lemma departure_inv_001 s e h dt s' :
  inv s -> heappop Event_lt (event_list s) = Ok (e, h) ->
  event_type e = departure -> departure_post s e h dt s' -> inv s'.
Proof.
  intros [Hrate Hsrv Hbusy Harr Hcnt Hheap] Hpop Hty Hpost.
  destruct (pop_the_departure_001 _ _ _ Hbusy Hpop Hty) as (Hb & _ & _ & Hnone).
  pose proof (of_type_pop_other arrival _ _ _ Hpop
                ltac:(by rewrite Hty)) as Hpa.
  destruct (pop_ok_001 _ _ _ Hheap Hpop) as [Hheap' _].
  destruct Hpost as [_ Hl Hr _ _ _ Hc _ _ He].
  rewrite Hpa in Harr.
  split.
  - by rewrite Hl.
  - by rewrite Hr.
  - unfold busy_ok. destruct (queue s) as [|p rest].
    + destruct He as (-> & -> & ->). done.
    + destruct He as (-> & _ & ->). rewrite Hb. eexists. split.
      * apply Permutation_singleton_r.
        rewrite of_type_push_same by done. by rewrite Hnone.
      * done.
  - destruct (queue s) as [|p rest].
    + destruct He as (_ & _ & ->). done.
    + destruct He as (_ & _ & ->). by rewrite of_type_push_other.
  - by rewrite Hc.
  - destruct (queue s) as [|p rest].
    + destruct He as (_ & _ & ->). done.
    + destruct He as (_ & _ & ->). by apply push_ok_001.
Qed.

Lemma step_cases_001 s :
  inv s -> event_list s <> [] ->
  exists e h s',
    heappop Event_lt (event_list s) = Ok (e, h) /\
    loop_body rand s = Ok (e, s') /\
    (event_type e = arrival /\ arrival_post rand s e h s' \/
     event_type e = departure /\ departure_post s e h (time e) s').
Proof.
  intros Hinv Hne.
  destruct (HeapqFacts.heappop_nonempty Event_lt (event_list s) Hne)
    as (e & h & Hpop).
  destruct (event_type e) eqn:Hty.
  - destruct (arrival_step_001 s e h Hinv Hpop Hty) as (s' & Hbody & Hpost).
    exists e, h, s'. eauto.
  - destruct (pop_the_departure_001 _ _ _ (inv_busy s Hinv) Hpop Hty)
      as (_ & Hdt & _).
    destruct (departure_step_001 s e h (time e) (inv_server s Hinv) Hpop Hty Hdt)
      as (s' & Hbody & Hpost).
    exists e, h, s'. eauto 10.
Qed.

Lemma step_inv_001 s e s' : inv s -> loop_body rand s = Ok (e, s') -> inv s'.
Proof.
  intros Hinv Hbody.
  assert (event_list s <> []) as Hne.
  { intros Hnil. unfold loop_body in Hbody. by rewrite Hnil in Hbody. }
  destruct (step_cases_001 s Hinv Hne) as (e0 & h & s0 & Hpop & Hbody0 & Hcase).
  rewrite Hbody in Hbody0. injection Hbody0 as <- <-.
  destruct Hcase as [[Hty Hpost]|[Hty Hpost]].
  - by eapply arrival_inv_001.
  - by eapply departure_inv_001.
Qed.

(** The packets in the system across an arrival and a departure. *)
Lemma arrival_in_system s e h s' :
  inv s -> heappop Event_lt (event_list s) = Ok (e, h) ->
  event_type e = arrival -> arrival_post rand s e h s' ->
  map key (in_system_packets s')
  = map key (in_system_packets s) ++ [key (packet e)].
Proof.
  intros Hinv Hpop Hty Hpost.
  pose proof (inv_busy s Hinv) as Hbusy.
  pose proof (of_type_pop_other departure _ _ _ Hpop
                ltac:(by rewrite Hty)) as Hpd.
  destruct Hpost as [_ _ _ _ _ _ _ _ Hq He].
  set (rate := service_rate_bps (server s)) in *.
  set (h1 := if busy (server s) then h
             else heappush Event_lt h (departure_ev rate (time e) (packet e)))
    in He.
  assert (of_type departure (event_list s') ≡ₚ of_type departure h1) as Hd.
  { destruct (decide _).
    - destruct He as (-> & _). by rewrite of_type_push_other.
    - destruct He as (-> & _). done. }
  unfold in_system_packets, busy_ok in *. subst h1.
  destruct (busy (server s)).
  - destruct Hbusy as (d & Hd' & _). rewrite <- Hpd, Hd' in Hd.
    apply Permutation_singleton_r in Hd.
    rewrite Hd, Hd', Hq, !map_app. by rewrite app_assoc.
  - destruct Hbusy as [Hd' Hq']. rewrite Hd' in Hpd.
    apply Permutation_nil_l in Hpd.
    rewrite of_type_push_same, <- Hpd in Hd by done.
    apply Permutation_singleton_r in Hd.
    rewrite Hd, Hd', Hq, Hq'. done.
Qed.

Lemma departure_in_system s e h s' :
  inv s -> heappop Event_lt (event_list s) = Ok (e, h) ->
  event_type e = departure -> departure_post s e h (time e) s' ->
  map key (in_system_packets s)
  = key (packet e) :: map key (in_system_packets s').
Proof.
  intros Hinv Hpop Hty Hpost.
  destruct (pop_the_departure_001 _ _ _ (inv_busy s Hinv) Hpop Hty)
    as (_ & _ & Hd & Hnone).
  destruct Hpost as [_ _ _ _ _ _ _ _ _ He].
  unfold in_system_packets. rewrite Hd. simpl.
  destruct (queue s) as [|p rest].
  - destruct He as (_ & -> & ->). by rewrite Hnone.
  - destruct He as (_ & -> & ->).
    assert (of_type departure
              (heappush Event_lt h
                 (departure_ev (service_rate_bps (server s)) (time e) p))
            = [departure_ev (service_rate_bps (server s)) (time e) p]) as ->.
    { apply Permutation_singleton_r.
      rewrite of_type_push_same by done. by rewrite Hnone. }
    done.
Qed.

Lemma hist_in_system_001 events s :
  hist events s ->
  History.in_system (history events)
  = Z.of_nat (length (in_system_packets s)).
Proof.
  intros Hh. unfold History.in_system.
  rewrite !EventFacts.count_ids, (hist_fifo _ _ Hh), length_app, length_map.
  lia.
Qed.

Lemma arrival_hist_001 events s e h s' :
  inv s -> hist events s ->
  heappop Event_lt (event_list s) = Ok (e, h) -> event_type e = arrival ->
  arrival_post rand s e h s' -> hist (events ++ [e]) s'.
Proof.
  intros Hinv Hh Hpop Hty Hpost.
  pose proof (hist_in_system_001 _ _ Hh) as Hsys.
  pose proof (arrival_in_system _ _ _ _ Hinv Hpop Hty Hpost) as Hkeys.
  assert (time e = arrival_time (packet e)) as Htime.
  { pose proof (inv_arrivals s Hinv) as Ha.
    rewrite (of_type_pop_same arrival _ _ _ Hpop Hty) in Ha.
    by apply Forall_cons in Ha as [? _]. }
  destruct Hh as [Hfifo Hclock Hdelay Hcount Harea Hctr].
  destruct Hpost as [_ _ _ Ht Hd Htot Hc _ _ _].
  assert (map number (in_system_packets s')
          = map number (in_system_packets s) ++ [number (packet e)]) as Hnum.
  { apply (f_equal (map fst)) in Hkeys.
    by rewrite map_app, !map_map in Hkeys. }
  split.
  - rewrite history_snoc, !EventFacts.ids_snoc. rewrite !plain_type, !plain_id.
    rewrite Hty, decide_True, decide_False by done.
    rewrite Hnum, Hfifo. by rewrite app_assoc.
  - by rewrite history_snoc, EventFacts.clock_snoc.
  - rewrite Hd, delays_snoc, Hty, Hdelay. ring.
  - rewrite history_snoc, EventFacts.count_snoc. rewrite !plain_type.
    rewrite Hty, decide_False by done. by rewrite Htot.
  - rewrite history_snoc, EventFacts.area_snoc. rewrite !plain_time.
    rewrite Harea, Hsys, <- Hclock, Hd, Ht.
    rewrite (residence_keys (time e) (in_system_packets s')), Hkeys.
    rewrite map_app, sumQ_app, <- residence_keys.
    rewrite (residence_shift (sim_time s) (time e)).
    simpl. rewrite Htime. ring.
  - destruct Hc as (x & Hx & ->).
    rewrite (sumZ_insert _ _ _ _ Hx), history_snoc, EventFacts.count_snoc.
    rewrite !plain_type. rewrite Hty, decide_True by done. lia.
Qed.

Lemma departure_hist_001 events s e h s' :
  inv s -> hist events s ->
  heappop Event_lt (event_list s) = Ok (e, h) -> event_type e = departure ->
  departure_post s e h (time e) s' -> hist (events ++ [e]) s'.
Proof.
  intros Hinv Hh Hpop Hty Hpost.
  pose proof (hist_in_system_001 _ _ Hh) as Hsys.
  pose proof (departure_in_system _ _ _ _ Hinv Hpop Hty Hpost) as Hkeys.
  destruct Hh as [Hfifo Hclock Hdelay Hcount Harea Hctr].
  destruct Hpost as [_ _ _ Ht Hd Htot Hc _ _ _].
  assert (map number (in_system_packets s)
          = number (packet e) :: map number (in_system_packets s')) as Hnum.
  { apply (f_equal (map fst)) in Hkeys. cbn [map] in Hkeys.
    by rewrite !map_map in Hkeys. }
  split.
  - rewrite history_snoc, !EventFacts.ids_snoc. rewrite !plain_type, !plain_id.
    rewrite Hty, decide_False, decide_True by done.
    rewrite Hfifo, Hnum, <- app_assoc. done.
  - by rewrite history_snoc, EventFacts.clock_snoc.
  - rewrite Hd, delays_snoc, Hty, Hdelay. ring.
  - rewrite history_snoc, EventFacts.count_snoc. rewrite !plain_type.
    rewrite Hty, decide_True by done. rewrite Htot, Hcount. done.
  - rewrite history_snoc, EventFacts.area_snoc. rewrite !plain_time.
    rewrite Harea, Hsys, <- Hclock, Hd, Ht.
    pose proof (residence_shift (sim_time s) (time e) (in_system_packets s))
      as Hshift.
    rewrite (residence_keys (time e) (in_system_packets s)), Hkeys in Hshift.
    cbn [map sumQ foldr snd key] in Hshift.
    fold (sumQ (map (fun k => (time e - k.2)%Q)
                    (map key (in_system_packets s')))) in Hshift.
    rewrite <- residence_keys in Hshift. lra.
  - rewrite Hc, history_snoc, EventFacts.count_snoc. rewrite !plain_type.
    rewrite Hty, decide_False by done. done.
Qed.

Lemma prime_ok_001 npkts lambd :
  ~ (lambd == 0)%Q ->
  exists s, prime rand (init npkts lambd) = Ok s /\ inv s /\ hist [] s /\
            Sim001.npkts s = npkts /\ packet_count s = 1%Z.
Proof.
  intros Hrate. unfold prime, generate_packet.
  rewrite draw_ok_001 by apply size_rate_nonzero.
  cbn -[draw heappush]. rewrite draw_ok_001 by done.
  cbn. eexists. split; [done|]. split; [|split; [|done]].
  - split; cbn; try done.
    + repeat constructor.
    + intros [|i] x p Hi Hx Hp; [lia|done].
  - split; cbn; done.
Qed.

Lemma reach_cons_001 s0 e s1 events s :
  event_list s0 <> [] -> loop_body rand s0 = Ok (e, s1) ->
  reach rand s1 events s -> reach rand s0 (e :: events) s.
Proof.
  intros Hguard Hbody Hreach. induction Hreach as [|events s e' s' _ IH Hg Hb].
  - apply (reach_snoc rand s0 [] s0 e s1); [constructor|done|done].
  - apply (reach_snoc rand s0 (e :: events) s e' s'); done.
Qed.

Lemma loop_reach_001 fuel : forall s0 events s,
  loop rand fuel s0 = Ok (events, s) -> reach rand s0 events s.
Proof.
  induction fuel as [|fuel IH]; intros s0 events s; simpl.
  - intros [= <- <-]. constructor.
  - destruct (decide _) as [_|_]; [|intros [= <- <-]; constructor].
    destruct (event_list s0) as [|x l] eqn:Hl.
    { intros [= <- <-]. constructor. }
    destruct (loop_body rand s0) as [[e s1]|] eqn:Hbody; [|done].
    cbn [mbind result_bind].
    destruct (loop rand fuel s1) as [[events' s']|] eqn:Hloop; [|done].
    cbn. intros [= <- <-]. eapply reach_cons_001; eauto. by rewrite Hl.
Qed.

Lemma reach_inv_001 s0 events s : inv s0 -> reach rand s0 events s -> inv s.
Proof.
  intros Hinv Hreach. induction Hreach; [done|]. by eapply step_inv_001.
Qed.

Lemma reach_hist_001 s0 events s :
  inv s0 -> hist [] s0 -> reach rand s0 events s -> hist events s.
Proof.
  intros Hinv Hh Hreach.
  induction Hreach as [|events s e s' Hreach IH Hg Hbody]; [done|].
  pose proof (reach_inv_001 _ _ _ Hinv Hreach) as Hinvs.
  destruct (step_cases_001 s Hinvs Hg) as (e0 & h & s1 & Hpop & Hbody0 & Hcase).
  rewrite Hbody in Hbody0. injection Hbody0 as <- <-.
  destruct Hcase as [[Hty Hpost]|[Hty Hpost]].
  - by eapply arrival_hist_001.
  - by eapply departure_hist_001.
Qed.

(** The loop never raises. *)
Lemma loop_total_001 fuel : forall s,
  inv s -> exists events s', loop rand fuel s = Ok (events, s') /\ inv s'.
Proof.
  induction fuel as [|fuel IH]; intros s Hinv; simpl; [eauto|].
  destruct (decide _) as [_|_]; [|eauto].
  destruct (event_list s) as [|x l] eqn:Hl; [eauto|].
  destruct (step_cases_001 s Hinv ltac:(by rewrite Hl))
    as (e & h & s1 & _ & Hbody & _).
  rewrite Hbody. cbn [mbind result_bind].
  destruct (IH s1 (step_inv_001 _ _ _ Hinv Hbody)) as (events & s' & -> & Hinv').
  cbn. eauto.
Qed.

(** When the event list is empty nobody is left in the system. *)
Lemma drained_empty s :
  inv s -> event_list s = [] -> in_system_packets s = [].
Proof.
  intros Hinv Hnil. pose proof (inv_busy s Hinv) as Hb.
  unfold busy_ok, in_system_packets in *. rewrite Hnil in *.
  destruct (busy (server s)).
  - by destruct Hb as (d & ? & _).
  - destruct Hb as [_ ->]. done.
Qed.

(** The events one iteration adds to the event list: every departure
    among them is scheduled at the popped time plus the service time of
    its packet's size, and the packet is stamped with that time. *)
Lemma added_events_001 s e s' :
  inv s -> loop_body rand s = Ok (e, s') ->
  exists added,
    e :: event_list s' ≡ₚ added ++ event_list s /\
    Forall (fun d => event_type d = departure ->
                     time d = (time e
                               + service_time (service_rate_bps (server s))
                                              (size (packet d)))%Q /\
                     departure_time (packet d) = Some (time d))
           added.
Proof.
  intros Hinv Hbody.
  assert (event_list s <> []) as Hne.
  { intros Hnil. unfold loop_body in Hbody. by rewrite Hnil in Hbody. }
  destruct (step_cases_001 s Hinv Hne) as (e0 & h & s0 & Hpop & Hbody0 & Hcase).
  rewrite Hbody in Hbody0. injection Hbody0 as <- <-.
  pose proof (pop_perm_001 _ _ _ Hpop) as Hperm.
  destruct Hcase as [[Hty Hpost]|[Hty Hpost]].
  - pose proof (ap_events _ _ _ _ _ Hpost) as He. simpl in He.
    destruct (busy (server s)); destruct (decide _).
    + destruct He as (-> & _). eexists [_]. split.
      * rewrite push_perm_001, Hperm. simpl. apply perm_swap.
      * constructor; [done|done].
    + destruct He as (-> & _). exists []. split; [by rewrite Hperm|done].
    + destruct He as (-> & _). eexists [_; _]. split.
      * rewrite !push_perm_001, Hperm. simpl.
        rewrite perm_swap. apply perm_skip. apply perm_swap.
      * constructor; [done|]. constructor; [done|done].
    + destruct He as (-> & _). eexists [_]. split.
      * rewrite push_perm_001, Hperm. simpl. apply perm_swap.
      * constructor; [done|done].
  - pose proof (dp_events _ _ _ _ _ Hpost) as He.
    destruct (queue s) as [|p rest].
    + destruct He as (_ & _ & ->). exists []. split; [by rewrite Hperm|done].
    + destruct He as (_ & _ & ->). eexists [_]. split.
      * rewrite push_perm_001, Hperm. simpl. apply perm_swap.
      * constructor; [done|done].
Qed.

(** The link rate stays at 10 Gbps. *)
Lemma reach_rate s0 events s :
  inv s0 -> reach rand s0 events s ->
  service_rate_bps (server s) = service_rate_bps (server s0).
Proof.
  intros Hinv Hreach.
  induction Hreach as [|events s e s' Hreach IH Hg Hbody]; [done|].
  pose proof (reach_inv_001 _ _ _ Hinv Hreach) as Hinvs.
  destruct (step_cases_001 s Hinvs Hg) as (e0 & h & s1 & Hpop & Hbody0 & Hcase).
  rewrite Hbody in Hbody0. injection Hbody0 as <- <-.
  destruct Hcase as [[Hty Hpost]|[Hty Hpost]].
  - by rewrite (ap_rate _ _ _ _ _ Hpost).
  - by rewrite (dp_rate _ _ _ _ _ Hpost).
Qed.

(** *** From a run to its invariants *)

Lemma prime_rate_001 npkts lambd s :
  prime rand (init npkts lambd) = Ok s -> ~ (lambd == 0)%Q.
Proof.
  unfold prime, generate_packet.
  rewrite draw_ok_001 by apply size_rate_nonzero.
  unfold draw, expovariate. cbn -[heappush].
  destruct (Qeq_bool lambd 0) eqn:E; [done|]. intros _.
  by apply Qeq_bool_neq.
Qed.

Lemma run_inv_001 npkts lambd fuel events s :
  run_events rand fuel (init npkts lambd) = Ok (events, s) ->
  inv s /\ hist events s.
Proof.
  unfold run_events.
  destruct (prime rand (init npkts lambd)) as [s1|] eqn:Hp; [|done].
  cbn [mbind result_bind]. intros Hloop. apply loop_reach_001 in Hloop.
  pose proof (prime_rate_001 _ _ _ Hp) as Hrate.
  destruct (prime_ok_001 npkts lambd Hrate) as (s1' & Hp' & Hinv & Hh & _).
  rewrite Hp in Hp'. injection Hp' as <-.
  split; [by eapply reach_inv_001|by eapply reach_hist_001].
Qed.

Lemma run_rate npkts lambd fuel events s :
  run_events rand fuel (init npkts lambd) = Ok (events, s) ->
  service_rate_bps (server s) = (10 * 10 ^ 9)%Z.
Proof.
  unfold run_events.
  destruct (prime rand (init npkts lambd)) as [s1|] eqn:Hp; [|done].
  cbn [mbind result_bind]. intros Hloop. apply loop_reach_001 in Hloop.
  pose proof (prime_rate_001 _ _ _ Hp) as Hrate.
  destruct (prime_ok_001 npkts lambd Hrate) as (s1' & Hp' & Hinv & _).
  rewrite Hp in Hp'. injection Hp' as <-.
  rewrite (reach_rate _ _ _ Hinv Hloop).
  revert Hp. unfold prime, generate_packet.
  rewrite draw_ok_001 by apply size_rate_nonzero.
  cbn -[draw heappush]. rewrite draw_ok_001 by done.
  cbn -[heappush]. by intros [= <-].
Qed.

End WithRandom.
End Facts001.

(** * The claims *)

(** C10.  In the count-bounded simulator of Lab1partA the main loop never
    finds the event list empty.  For every random source, packet count
    and non-zero rate, and for every number of iterations, the run
    raises nothing; the state it reaches has an arrival event pending, so
    its event list is not empty and the next [heappop] returns an
    event. *)
Theorem arrival_always_pending (rand : nat -> Q) (npkts : Z) (lambd : Q)
        (fuel : nat) :
  ~ (lambd == 0)%Q ->
  exists events s,
    Lab1partA.run rand fuel (Lab1partA.init npkts lambd) = Ok (events, s) /\
    (exists e, e ∈ Lab1partA.event_list s /\ type e = arrival) /\
    exists e h,
      Heapq.heappop Event_lt (Lab1partA.event_list s) = Ok (e, h).
Proof.
  intros Hrate.
  destruct (FactsA.run_total_a rand npkts lambd fuel Hrate) as (events & s & Hrun).
  exists events, s. split; [done|].
  destruct (FactsA.run_inv_a _ _ _ _ _ _ Hrun) as [Hinv _].
  pose proof (InvA.inv_arrival s Hinv) as Harr.
  assert (exists e, e ∈ Lab1partA.event_list s /\ type e = arrival) as Hpending.
  { unfold History.ids, History.of_type in Harr.
    destruct (filter _ (Lab1partA.event_list s)) as [|e l] eqn:Hf; [done|].
    assert (e ∈ filter (fun e => type e = arrival) (Lab1partA.event_list s))
      as Hin by (rewrite Hf; by left).
    apply list_elem_of_filter in Hin as [Hty Hin]. eauto. }
  split; [done|].
  apply HeapqFacts.heappop_nonempty.
  destruct Hpending as (e & Hin & _). intros Hnil. rewrite Hnil in Hin.
  by apply not_elem_of_nil in Hin.
Qed.

Lemma arrival_always_pending_witness :
  ~ (1 == 0)%Q /\
  exists events s,
    Lab1partA.run Scenario.rand_a 6 (Lab1partA.init 3 1) = Ok (events, s) /\
    (exists e, e ∈ Lab1partA.event_list s /\ type e = arrival) /\
    exists e h,
      Heapq.heappop Event_lt (Lab1partA.event_list s) = Ok (e, h).
Proof.
  split; [done|]. apply (arrival_always_pending Scenario.rand_a 3 1 6). done.
Defined.

(** C9.  In Lab1partA and Lab1partB, at every point a run can reach, at
    most one departure event is pending; every pending departure refers
    to the packet at the head of the queue; and the iteration that pops
    a departure removes exactly that head. *)
Theorem one_departure_pending :
  (forall rand npkts lambd fuel events s,
     Lab1partA.run rand fuel (Lab1partA.init npkts lambd) = Ok (events, s) ->
     (length (History.of_type departure (Lab1partA.event_list s)) <= 1)%nat /\
     (forall d, d ∈ Lab1partA.event_list s -> type d = departure ->
                exists t rest, Lab1partA.queue s = (pkt_id d, t) :: rest) /\
     (forall e s', Lab1partA.loop_body rand s = Ok (e, s') ->
                   type e = departure ->
                   exists t rest, Lab1partA.queue s = (pkt_id e, t) :: rest /\
                                  Lab1partA.queue s' = rest)) /\
  (forall trace fuel events s,
     Lab1partB.run fuel (Lab1partB.init trace) = Ok (events, s) ->
     (length (History.of_type departure (Lab1partB.event_list s)) <= 1)%nat /\
     (forall d, d ∈ Lab1partB.event_list s -> type d = departure ->
                exists entry rest, Lab1partB.queue s = entry :: rest /\
                                   InvB.entry_id entry = pkt_id d) /\
     (forall e s', Lab1partB.loop_body s = Ok (e, s') ->
                   type e = departure ->
                   exists entry rest, Lab1partB.queue s = entry :: rest /\
                                      InvB.entry_id entry = pkt_id e /\
                                      Lab1partB.queue s' = rest)).
Proof.
  split.
  - intros rand npkts lambd fuel events s Hrun.
    destruct (FactsA.run_inv_a _ _ _ _ _ _ Hrun) as [Hinv _].
    destruct (FactsA.service_ok_pending_a s (InvA.inv_service s Hinv))
      as [Hone Hhead].
    repeat split; [done|done|].
    intros e s' Hbody Hty. by eapply FactsA.departure_pops_head_a.
  - intros trace fuel events s Hrun.
    destruct (FactsB.run_inv_b _ _ _ _ Hrun) as (Hinv & _ & _).
    destruct (FactsB.service_ok_pending_b s (InvB.inv_service s Hinv))
      as [Hone Hhead].
    repeat split; [done|done|].
    intros e s' Hbody Hty. by eapply FactsB.departure_pops_head_b.
Qed.

Lemma one_departure_pending_witness :
  match scenario_run_a_busy, scenario_run_b_busy with
  | Ok (_, sa), Ok (_, sb) =>
      (length (History.of_type departure (Lab1partA.event_list sa)) <= 1)%nat /\
      (length (History.of_type departure (Lab1partB.event_list sb)) <= 1)%nat
  | _, _ => False
  end.
Proof.
  destruct one_departure_pending as [HA HB].
  destruct scenario_run_a_busy as [[ea sa]|] eqn:Ea; [|by vm_compute in Ea].
  destruct scenario_run_b_busy as [[eb sb]|] eqn:Eb; [|by vm_compute in Eb].
  split.
  - by destruct (HA _ _ _ _ _ _ Ea) as [? _].
  - by destruct (HB _ _ _ _ Eb) as [? _].
Defined.

(** C8.  Packets depart in the order in which they were enqueued.  In
    Lab1partA and Lab1partB every arrival is appended to the queue, and
    the ids of the departures popped so far, followed by the ids still
    in the queue, are exactly the ids of the arrivals popped so far, in
    the same order; so the i-th departure is the i-th packet enqueued.
    In 001.py the same holds with the packet in service and then the
    waiting sequence in place of the queue: a packet inserted into the
    waiting sequence earlier departs earlier. *)
Theorem fifo_departures :
  (forall rand npkts lambd fuel events s,
     Lab1partA.run rand fuel (Lab1partA.init npkts lambd) = Ok (events, s) ->
     History.ids arrival events
     = History.ids departure events ++ map fst (Lab1partA.queue s) /\
     forall i id, History.ids departure events !! i = Some id ->
                  History.ids arrival events !! i = Some id) /\
  (forall trace fuel events s,
     Lab1partB.run fuel (Lab1partB.init trace) = Ok (events, s) ->
     History.ids arrival events
     = History.ids departure events
       ++ map InvB.entry_id (Lab1partB.queue s) /\
     forall i id, History.ids departure events !! i = Some id ->
                  History.ids arrival events !! i = Some id) /\
  (forall rand npkts lambd fuel events s,
     Sim001.run_events rand fuel (Sim001.init npkts lambd) = Ok (events, s) ->
     History.ids arrival (Inv001.history events)
     = History.ids departure (Inv001.history events)
       ++ map Sim001.number (Inv001.in_system_packets s) /\
     forall i id,
       History.ids departure (Inv001.history events) !! i = Some id ->
       History.ids arrival (Inv001.history events) !! i = Some id).
Proof.
  split; [|split].
  - intros rand npkts lambd fuel events s Hrun.
    destruct (FactsA.run_inv_a _ _ _ _ _ _ Hrun) as [_ Hh].
    pose proof (InvA.hist_fifo _ _ Hh) as Hfifo. split; [done|].
    intros i id Hi. rewrite Hfifo. by apply lookup_app_l_Some.
  - intros trace fuel events s Hrun.
    destruct (FactsB.run_inv_b _ _ _ _ Hrun) as (_ & Hh & _).
    pose proof (InvB.hist_fifo _ _ Hh) as Hfifo. split; [done|].
    intros i id Hi. rewrite Hfifo. by apply lookup_app_l_Some.
  - intros rand npkts lambd fuel events s Hrun.
    destruct (Facts001.run_inv_001 _ _ _ _ _ _ Hrun) as [_ Hh].
    pose proof (Inv001.hist_fifo _ _ Hh) as Hfifo. split; [done|].
    intros i id Hi. rewrite Hfifo. by apply lookup_app_l_Some.
Qed.

Lemma fifo_departures_witness :
  match scenario_run_a, scenario_run_b, scenario_run_001 with
  | Ok (ea, sa), Ok (eb, sb), Ok (ec, sc) =>
      History.ids arrival ea
      = History.ids departure ea ++ map fst (Lab1partA.queue sa) /\
      History.ids arrival eb
      = History.ids departure eb ++ map InvB.entry_id (Lab1partB.queue sb) /\
      History.ids arrival (Inv001.history ec)
      = History.ids departure (Inv001.history ec)
        ++ map Sim001.number (Inv001.in_system_packets sc)
  | _, _, _ => False
  end.
Proof.
  destruct fifo_departures as (HA & HB & HC).
  destruct scenario_run_a as [[ea sa]|] eqn:Ea; [|by vm_compute in Ea].
  destruct scenario_run_b as [[eb sb]|] eqn:Eb; [|by vm_compute in Eb].
  destruct scenario_run_001 as [[ec sc]|] eqn:Ec; [|by vm_compute in Ec].
  split; [|split].
  - by destruct (HA _ _ _ _ _ _ Ea) as [? _].
  - by destruct (HB _ _ _ _ Eb) as [? _].
  - by destruct (HC _ _ _ _ _ _ Ec) as [? _].
Defined.

(** C5, as stated, fails: Lab1partA accepts a negative rate, at which
    [random.expovariate] returns negative gaps.  With gaps of -1 the
    first three events popped are the arrivals at -1, -2 and -3, and
    the clock goes down with them. *)
Lemma negative_rate_times_decrease :
  match Lab1partA.run Scenario.rand_neg 3 (Lab1partA.init 3 (-1)) with
  | Ok (events, s) =>
      map time events = [(-1)%Q; (-2)%Q; (-3)%Q] /\
      map type events = [arrival; arrival; arrival] /\
      (exists a b, events !! 0%nat = Some a /\ events !! 1%nat = Some b /\
                   ~ (time a <= time b)%Q) /\
      (Lab1partA.curr_time s < 0)%Q
  | Raise _ => False
  end.
Proof.
  vm_compute. split; [done|]. split; [done|]. split; [|done].
  eexists _, _. split; [done|]. split; [done|]. intros H. by apply H.
Qed.

(** C5, amended.  In Lab1partA, in every run in which every value
    returned by [random.expovariate] is non-negative, the events are
    popped in nondecreasing order of time: any two consecutively popped
    events satisfy first.time <= second.time, in fact any two popped
    events do; and the clock, which takes the time of each popped event
    in turn, starts at 0 and never decreases. *)
Theorem popped_times_nondecreasing (rand : nat -> Q) (npkts : Z) (lambd : Q)
        (fuel : nat) (events : list Event) (s : Lab1partA.MM1Simulator) :
  (forall k, (0 <= rand k)%Q) ->
  Lab1partA.run rand fuel (Lab1partA.init npkts lambd) = Ok (events, s) ->
  (forall i a b, events !! i = Some a -> events !! S i = Some b ->
                 (time a <= time b)%Q) /\
  StronglySorted History.time_le events /\
  (forall k, (History.clock (take k events)
              <= History.clock (take (S k) events))%Q) /\
  Lab1partA.curr_time s = History.clock events.
Proof.
  intros Hrand Hrun.
  destruct (FactsA.run_timed rand Hrand _ _ _ _ _ Hrun)
    as [Hsorted Hstart _ _ _].
  destruct (FactsA.run_inv_a _ _ _ _ _ _ Hrun) as [_ Hh].
  assert (forall i a b, events !! i = Some a -> events !! S i = Some b ->
                        (time a <= time b)%Q) as Hcons.
  { intros i a b Ha Hb.
    rewrite <- (take_drop_middle events i a Ha) in Hsorted.
    apply StronglySorted_app_1_r in Hsorted.
    apply StronglySorted_inv in Hsorted as [_ Hall].
    rewrite Forall_forall in Hall. apply Hall.
    apply list_elem_of_lookup. exists 0%nat.
    rewrite lookup_drop. by rewrite Nat.add_0_r. }
  repeat split; [done|done| |by destruct (InvA.hist_clock _ _ Hh)].
  intros k. destruct (events !! k) as [b|] eqn:Hb.
  - rewrite (take_S_r _ _ _ Hb), EventFacts.clock_snoc.
    destruct k as [|k].
    + rewrite take_0. unfold History.clock. simpl.
      rewrite Forall_forall in Hstart. apply Hstart.
      apply list_elem_of_lookup. eauto.
    + assert (is_Some (events !! k)) as [a Ha].
      { apply lookup_lt_is_Some. apply lookup_lt_Some in Hb. lia. }
      rewrite (take_S_r _ _ _ Ha), EventFacts.clock_snoc. by eapply Hcons.
  - apply lookup_ge_None in Hb.
    rewrite !firstn_all2 by lia. apply Qle_refl.
Qed.

Lemma rand_a_nonneg k : (0 <= Scenario.rand_a k)%Q.
Proof.
  do 4 (destruct k as [|k]; [done|]).
  unfold Scenario.rand_a, Qle. simpl. lia.
Qed.

Lemma popped_times_nondecreasing_witness :
  (forall k, (0 <= Scenario.rand_a k)%Q) /\
  match scenario_run_a with
  | Ok (events, s) =>
      StronglySorted History.time_le events /\
      Lab1partA.curr_time s = History.clock events
  | Raise _ => False
  end.
Proof.
  split; [apply rand_a_nonneg|].
  destruct scenario_run_a as [[events s]|] eqn:E; [|by vm_compute in E].
  destruct (popped_times_nondecreasing _ _ _ _ _ _ rand_a_nonneg E)
    as (_ & Hs & _ & Hc).
  exact (conj Hs Hc).
Defined.

(** Arrivals are never fewer than departures. *)
Lemma count_le_of_fifo (events : list Event) (waiting : list Z) :
  History.ids arrival events = History.ids departure events ++ waiting ->
  (History.count departure events <= History.count arrival events)%Z.
Proof.
  intros Hfifo. rewrite !EventFacts.count_ids, Hfifo, length_app. lia.
Qed.

(** C1.  For every run with at least one departed packet and positive
    elapsed time, the final statistics are N = area / elapsed time and
    T = total delay / departed count, where the area under the
    number-in-system step function, the elapsed time, the total delay
    and the departed count are those of the run's history.  Lab1partA
    and Lab1partB accumulate the area event by event; 001.py divides the
    total delay by the elapsed time, and once its event list is empty
    (the only way its loop ends) the total delay equals the area. *)
Theorem final_statistics :
  (forall rand npkts lambd fuel events s,
     Lab1partA.run rand fuel (Lab1partA.init npkts lambd) = Ok (events, s) ->
     (0 < History.count departure events)%Z ->
     (0 < History.clock events)%Q ->
     exists st,
       Lab1partA.print_stats s = Ok st /\
       (Lab1partA.N st == History.area events / History.clock events)%Q /\
       (Lab1partA.T st
        == History.sojourn_sum events
           / inject_Z (History.count departure events))%Q) /\
  (forall trace fuel events s,
     Lab1partB.run fuel (Lab1partB.init trace) = Ok (events, s) ->
     (0 < History.count departure events)%Z ->
     (0 < History.clock events)%Q ->
     exists st n t,
       Lab1partB.print_stats s = Ok st /\
       Lab1partB.N st = finite n /\
       (n == History.area events / History.clock events)%Q /\
       Lab1partB.T st = finite t /\
       (t == History.sojourn_sum events
             / inject_Z (History.count departure events))%Q) /\
  (forall rand npkts lambd fuel events s,
     Sim001.run_events rand fuel (Sim001.init npkts lambd) = Ok (events, s) ->
     Sim001.event_list s = [] ->
     (0 < History.count departure (Inv001.history events))%Z ->
     (0 < History.clock (Inv001.history events))%Q ->
     exists summary,
       Sim001.print_summary s = Ok summary /\
       (Sim001.avg_packets summary
        == History.area (Inv001.history events)
           / History.clock (Inv001.history events))%Q /\
       (Sim001.avg_delay summary
        == Inv001.delays events
           / inject_Z (History.count departure (Inv001.history events)))%Q).
Proof.
  split; [|split].
  - intros rand npkts lambd fuel events s Hrun Hdep Hclock.
    destruct (FactsA.run_inv_a _ _ _ _ _ _ Hrun) as [Hinv Hh].
    destruct Hh as [Hfifo _ _ _ [_ Hcur] Harea Hpk Hdl Hrec].
    pose proof (count_le_of_fifo _ _ Hfifo) as Hle.
    unfold Lab1partA.print_stats.
    rewrite (PyFacts.truediv_ok _ (Lab1partA.curr_time s)) by (rewrite Hcur; lra).
    cbn [mbind result_bind].
    rewrite (PyFacts.truediv_ok _ (inject_Z (Lab1partA.total_pkts s)))
      by (apply PyFacts.inject_Z_nonzero; lia).
    cbn [mbind result_bind].
    rewrite FactsA.distribution_ok_a
      by (first [apply (InvA.inv_record s Hinv) | lia]).
    cbn [mbind result_bind]. eexists. split; [done|]. simpl.
    split.
    + by rewrite Harea, Hcur.
    + by rewrite Hdl, Hpk.
  - intros trace fuel events s Hrun Hdep Hclock.
    destruct (FactsB.run_inv_b _ _ _ _ Hrun) as (Hinv & Hh & _).
    destruct Hh as [Hfifo _ _ _ [_ Hcur] Harea Hpk Hdl Hrec].
    pose proof (count_le_of_fifo _ _ Hfifo) as Hle.
    unfold Lab1partB.print_stats.
    rewrite (PyFacts.float_div_ok _ _ (Lab1partB.curr_time s))
      by (rewrite Hcur; lra).
    cbn [mbind result_bind].
    rewrite (PyFacts.float_div_ok _ _ (inject_Z (Lab1partB.total_pkts s)))
      by (apply PyFacts.inject_Z_nonzero; lia).
    cbn [mbind result_bind].
    rewrite FactsB.distribution_ok_b
      by (first [apply (InvB.inv_record s Hinv) | lia]).
    cbn [mbind result_bind]. eexists _, _, _. split; [done|]. simpl.
    split; [done|]. split; [by rewrite Harea, Hcur|].
    split; [done|]. by rewrite Hdl, Hpk.
  - intros rand npkts lambd fuel events s Hrun Hnil Hdep Hclock.
    destruct (Facts001.run_inv_001 _ _ _ _ _ _ Hrun) as [Hinv Hh].
    pose proof (Facts001.drained_empty s Hinv Hnil) as Hempty.
    destruct Hh as [Hfifo Hcur Hdl Hcount Harea Hctr].
    pose proof (count_le_of_fifo _ _ Hfifo) as Hle.
    rewrite Hempty in Harea. unfold Inv001.residence in Harea.
    simpl in Harea. rewrite Qplus_0_r in Harea.
    unfold Sim001.print_summary.
    rewrite (PyFacts.truediv_ok _ (inject_Z _))
      by (apply PyFacts.inject_Z_nonzero; lia).
    cbn [mbind result_bind].
    rewrite (PyFacts.truediv_ok _ (Sim001.sim_time s)) by (rewrite Hcur; lra).
    cbn [mbind result_bind].
    rewrite Facts001.probs_ok
      by (first [apply (Inv001.inv_counter s Hinv) | lia]).
    cbn [mbind result_bind].
    rewrite Facts001.bar_heights_ok by lia.
    cbn [mbind result_bind]. eexists. split; [done|]. simpl.
    split.
    + by rewrite Harea, Hcur.
    + by rewrite Hdl, Hcount.
Qed.

Lemma final_statistics_witness :
  match scenario_run_a, scenario_run_b, scenario_run_001 with
  | Ok (ea, sa), Ok (eb, sb), Ok (ec, sc) =>
      (exists st, Lab1partA.print_stats sa = Ok st /\
                  (Lab1partA.N st
                   == History.area ea / History.clock ea)%Q) /\
      (exists st n, Lab1partB.print_stats sb = Ok st /\
                    Lab1partB.N st = finite n /\
                    (n == History.area eb / History.clock eb)%Q) /\
      (exists summary,
         Sim001.print_summary sc = Ok summary /\
         (Sim001.avg_packets summary
          == History.area (Inv001.history ec)
             / History.clock (Inv001.history ec))%Q)
  | _, _, _ => False
  end.
Proof.
  destruct final_statistics as (HA & HB & HC).
  destruct scenario_run_a as [[ea sa]|] eqn:Ea; [|by vm_compute in Ea].
  destruct scenario_run_b as [[eb sb]|] eqn:Eb; [|by vm_compute in Eb].
  destruct scenario_run_001 as [[ec sc]|] eqn:Ec; [|by vm_compute in Ec].
  assert (Ok (ea, sa) = scenario_run_a) as Ea' by done.
  assert (Ok (eb, sb) = scenario_run_b) as Eb' by done.
  assert (Ok (ec, sc) = scenario_run_001) as Ec' by done.
  vm_compute in Ea', Eb', Ec'.
  injection Ea' as -> ->. injection Eb' as -> ->. injection Ec' as -> ->.
  split; [|split].
  - destruct (HA _ _ _ _ _ _ Ea) as (st & Hst & HN & _);
      [by vm_compute|by vm_compute|eauto].
  - destruct (HB _ _ _ _ Eb) as (st & n & t & Hst & Hn & HN & _);
      [by vm_compute|by vm_compute|eauto].
  - destruct (HC _ _ _ _ _ _ Ec) as (su & Hsu & HN & _);
      [by vm_compute|by vm_compute|by vm_compute|eauto].
Defined.



(** C3, as stated, fails twice.  In Lab1partB a row of 2^60 bytes in an
    integer column makes [pkt_size_bytes * 8] wrap around: the service
    time is negative, the departure is scheduled before the arrival,
    and it is not size * 8 / R.  In Lab1partA the packet has no size:
    [start_service] draws one when service starts, so two runs that
    agree on every arrival schedule the departure of the same packet at
    different times. *)
Lemma service_time_not_from_size :
  match Lab1partB.run 1 (Lab1partB.init Scenario.trace_huge) with
  | Ok (popped, s) =>
      match popped, Lab1partB.event_list s with
      | [e], [d] =>
          type e = arrival /\ type d = departure /\ pkt_id d = pkt_id e /\
          (time d < time e)%Q /\
          ~ (time d
             == time e + (inject_Z (2 ^ 60) * 8 / LINK_RATE_BPS) * 1000000)%Q
      | _, _ => False
      end
  | Raise _ => False
  end /\
  match Lab1partA.run (Scenario.rand_bits 10000) 1 (Lab1partA.init 3 1),
        Lab1partA.run (Scenario.rand_bits 20000) 1 (Lab1partA.init 3 1) with
  | Ok (popped1, s1), Ok (popped2, s2) =>
      popped1 = popped2 /\ Lab1partA.queue s1 = Lab1partA.queue s2 /\
      History.of_type arrival (Lab1partA.event_list s1)
      = History.of_type arrival (Lab1partA.event_list s2) /\
      match History.of_type departure (Lab1partA.event_list s1),
            History.of_type departure (Lab1partA.event_list s2) with
      | [d1], [d2] =>
          pkt_id d1 = pkt_id d2 /\ (time d1 == 2)%Q /\ (time d2 == 3)%Q
      | _, _ => False
      end
  | _, _ => False
  end.
Proof. vm_compute. repeat split; done. Qed.

(** C3, amended.  Whatever a loop iteration adds to the event list,
    every departure among the added events is timed at the clock (the
    time of the popped event) plus (bits / R) * 1e6 microseconds, with
    R the fixed link rate of 10^10 bit/s, where the number of bits is:
    - in Lab1partA a value drawn from the random source in this very
      iteration, the last draw made, by [start_service]: the service
      time is random at this layer and no function of the packet;
    - in Lab1partB [pkt_size_bytes * 8] for the size of the packet's
      trace row, computed in the type of the size column: exact in a
      float column, wrapped to 64 bits in an integer column, so equal
      to size * 8 when -2^60 <= size < 2^60 and different from it for
      every other 64-bit size;
    - in 001.py size * 8 for the integer size stored in the packet. *)
Theorem service_time_from_size :
  (forall rand npkts lambd fuel events s e s',
     Lab1partA.run rand fuel (Lab1partA.init npkts lambd) = Ok (events, s) ->
     Lab1partA.loop_body rand s = Ok (e, s') ->
     exists added,
       e :: Lab1partA.event_list s' ≡ₚ added ++ Lab1partA.event_list s /\
       Forall (fun d => type d = departure ->
                 exists k,
                   (Lab1partA.draws s <= k)%nat /\
                   Lab1partA.draws s' = S k /\
                   time d
                   = (time e + (rand k / LINK_RATE_BPS) * 1000000)%Q)
              added) /\
  (forall trace fuel events s e s',
     Lab1partB.run fuel (Lab1partB.init trace) = Ok (events, s) ->
     Lab1partB.loop_body s = Ok (e, s') ->
     exists added,
       e :: Lab1partB.event_list s' ≡ₚ added ++ Lab1partB.event_list s /\
       Forall (fun d => type d = departure /\
                 exists row,
                   trace !! Z.to_nat (pkt_id d) = Some row /\
                   time d
                   = (time e
                      + (scalar_float (scalar_mul (snd row) 8)
                         / LINK_RATE_BPS) * 1000000)%Q)
              added) /\
  (forall x, scalar_float (scalar_mul (float64 x) 8) = (x * 8)%Q) /\
  (forall n, (- 2 ^ 60 <= n < 2 ^ 60)%Z ->
             scalar_float (scalar_mul (int64 n) 8) = inject_Z (n * 8)) /\
  (forall n, (- 2 ^ 63 <= n < - 2 ^ 60)%Z \/ (2 ^ 60 <= n < 2 ^ 63)%Z ->
             ~ (scalar_float (scalar_mul (int64 n) 8)
                == inject_Z (n * 8))%Q) /\
  (forall rand npkts lambd fuel events s e s',
     Sim001.run_events rand fuel (Sim001.init npkts lambd) = Ok (events, s) ->
     Sim001.loop_body rand s = Ok (e, s') ->
     exists added,
       e :: Sim001.event_list s' ≡ₚ added ++ Sim001.event_list s /\
       Forall (fun d => Sim001.event_type d = departure ->
                 Sim001.time d
                 = (Sim001.time e
                    + (inject_Z (Sim001.size (Sim001.packet d) * 8)
                       / inject_Z (10 * 10 ^ 9)) * 1000000)%Q)
              added).
Proof.
  split; [|split; [|split; [|split; [|split]]]].
  - intros rand npkts lambd fuel events s e s' Hrun Hbody.
    destruct (FactsA.run_inv_a _ _ _ _ _ _ Hrun) as [Hinv _].
    destruct (FactsA.added_events_drawn rand s e s' Hinv Hbody)
      as (added & Hperm & Hall).
    exists added. split; [done|].
    eapply Forall_impl; [exact Hall|]. intros d Hd Hty.
    destruct (Hd Hty) as (k & Hle & Hk & Ht). by exists k.
  - intros trace fuel events s e s' Hrun Hbody.
    destruct (FactsB.run_inv_b _ _ _ _ Hrun) as (Hinv & Hh & Htr).
    destruct (FactsB.added_events_b events s e s' Hinv Hh Hbody)
      as (added & Hperm & Hall).
    exists added. split; [done|]. by rewrite <- Htr.
  - done.
  - intros n Hn. cbn [scalar_float scalar_mul].
    assert (2 ^ 63 = 8 * 2 ^ 60)%Z as Hpow by reflexivity.
    by rewrite PyFacts.wrap_int64_small by lia.
  - intros n Hn Heq. cbn [scalar_float scalar_mul] in Heq.
    apply (proj1 (inject_Z_injective _ _)) in Heq.
    assert (2 ^ 63 = 8 * 2 ^ 60)%Z as Hpow by reflexivity.
    destruct (PyFacts.wrap_int64_range (n * 8)) as [Hrange _]. lia.
  - intros rand npkts lambd fuel events s e s' Hrun Hbody.
    destruct (Facts001.run_inv_001 _ _ _ _ _ _ Hrun) as [Hinv _].
    pose proof (Facts001.run_rate _ _ _ _ _ _ Hrun) as Hrate.
    destruct (Facts001.added_events_001 rand s e s' Hinv Hbody)
      as (added & Hperm & Hall).
    exists added. split; [done|].
    eapply Forall_impl; [exact Hall|]. intros d Hd Hty.
    destruct (Hd Hty) as [Ht _]. by rewrite Ht, Hrate.
Qed.

Lemma service_time_from_size_witness :
  match scenario_run_a_busy, scenario_run_b_busy, scenario_busy_001 with
  | Ok (_, sa), Ok (_, sb), Ok (_, sc) =>
      (forall e s', Lab1partA.loop_body (fun _ => 1%Q) sa = Ok (e, s') ->
         exists added,
           e :: Lab1partA.event_list s' ≡ₚ added ++ Lab1partA.event_list sa) /\
      (forall e s', Lab1partB.loop_body sb = Ok (e, s') ->
         exists added,
           e :: Lab1partB.event_list s' ≡ₚ added ++ Lab1partB.event_list sb) /\
      scalar_float (scalar_mul (int64 1000) 8) = 8000%Q /\
      ~ (scalar_float (scalar_mul (int64 (2 ^ 60)) 8)
         == inject_Z (2 ^ 60 * 8))%Q /\
      (forall e s', Sim001.loop_body Scenario.rand_001 sc = Ok (e, s') ->
         exists added,
           e :: Sim001.event_list s' ≡ₚ added ++ Sim001.event_list sc)
  | _, _, _ => False
  end.
Proof.
  destruct service_time_from_size as (HA & HB & _ & Hsmall & Hbig & HC).
  destruct scenario_run_a_busy as [[ea sa]|] eqn:Ea; [|by vm_compute in Ea].
  destruct scenario_run_b_busy as [[eb sb]|] eqn:Eb; [|by vm_compute in Eb].
  destruct scenario_busy_001 as [[ec sc]|] eqn:Ec; [|by vm_compute in Ec].
  split; [|split; [|split; [|split]]].
  - intros e s' Hbody.
    destruct (HA _ _ _ _ _ _ _ _ Ea Hbody) as (added & Hp & _). eauto.
  - intros e s' Hbody.
    destruct (HB _ _ _ _ _ _ Eb Hbody) as (added & Hp & _). eauto.
  - apply (Hsmall 1000%Z). lia.
  - apply (Hbig (2 ^ 60)%Z). right. lia.
  - intros e s' Hbody.
    destruct (HC _ _ _ _ _ _ _ _ Ec Hbody) as (added & Hp & _). eauto.
Defined.




(** C7, as stated, fails: a trace whose rows have a zero or negative
    inter-arrival time and size is replayed to the end, both packets
    arrive and depart, and nothing is raised. *)
Lemma nonpositive_rows_processed :
  match Lab1partB.run 4 (Lab1partB.init Scenario.trace_bad) with
  | Ok (events, s) =>
      Lab1partB.total_pkts s = 2%Z /\ Lab1partB.event_list s = [] /\
      History.ids arrival events = [1%Z; 0%Z]
  | Raise _ => False
  end.
Proof. vm_compute. done. Qed.

(** C7, amended.  Lab1partB does not validate the rows of the trace.
    For every trace, whatever the values of its rows, the run raises
    nothing, however long it is followed; one arrival is scheduled per
    row; and within two iterations per row the event list is empty, every
    row has arrived once, every packet has departed in the order of
    arrival, and the departed count is the number of rows. *)
Theorem trace_rows_all_processed (trace : list Lab1partB.Row) :
  (forall fuel,
     exists events s,
       Lab1partB.run fuel (Lab1partB.init trace) = Ok (events, s)) /\
  length (Lab1partB.event_list (Lab1partB.prime (Lab1partB.init trace)))
  = length trace /\
  exists events s,
    Lab1partB.run (2 * length trace) (Lab1partB.init trace)
    = Ok (events, s) /\
    Lab1partB.event_list s = [] /\ Lab1partB.queue s = [] /\
    History.ids arrival events ≡ₚ map Z.of_nat (seq 0 (length trace)) /\
    History.ids departure events = History.ids arrival events /\
    Lab1partB.total_pkts s = Z.of_nat (length trace).
Proof.
  split; [intros fuel; apply FactsB.run_total_b|].
  split; [by destruct (FactsB.prime_spec trace) as (_ & _ & _ & ? & _)|].
  destruct (FactsB.run_drains trace (2 * length trace) ltac:(lia))
    as (events & s & Hrun & Hnil & _).
  exists events, s. split; [done|]. split; [done|].
  destruct (FactsB.run_inv_b _ _ _ _ Hrun) as (Hinv & Hh & Htr).
  destruct (FactsB.nil_idle s Hinv Hnil) as [Hq _].
  destruct Hh as [Hfifo Hrows _ _ _ _ Hpk _ _].
  rewrite Hnil, Htr in Hrows. simpl in Hrows. rewrite app_nil_r in Hrows.
  rewrite Hq in Hfifo. simpl in Hfifo. rewrite app_nil_r in Hfifo.
  repeat split; [done|done|done|].
  rewrite Hpk, EventFacts.count_ids, <- Hfifo, (Permutation_length Hrows).
  by rewrite length_map, length_seq.
Qed.

(** C2 fails in 001.py.  After the first arrival packet 0 is in service
    and nobody waits: one packet is in the system.  The next iteration
    pops the arrival of packet 1 and increments counter 0, the counter
    of arrivals that find the system empty, not counter 1. *)
Theorem arrival_snapshot_001_misses_service :
  match scenario_busy_001 with
  | Ok (_, s) =>
      Sim001.busy (Sim001.server s) = true /\ Sim001.queue s = [] /\
      length (Inv001.in_system_packets s) = 1%nat /\
      Sim001.pn_counter s !! 0%nat = Some 1%Z /\
      match Sim001.loop_body Scenario.rand_001 s with
      | Ok (e, s') =>
          Sim001.event_type e = arrival /\
          Sim001.pn_counter s' !! 0%nat = Some 2%Z /\
          Sim001.pn_counter s' !! 1%nat = Some 0%Z
      | Raise _ => False
      end
  | Raise _ => False
  end.
Proof. vm_compute. done. Qed.

(** * Further properties of the code *)

(** ** The event list *)




(** X1.  [schedule_event], which is [heapq.heappush] on the event list,
    adds the event and nothing else, and keeps the event list a heap
    for [Event.__lt__], in each of the three files. *)
Theorem schedule_event_keeps_heap :
  (forall e s,
     Heapq.heap_ok Event_lt (Lab1partA.event_list s) ->
     Lab1partA.event_list (Lab1partA.schedule_event e s)
       ≡ₚ e :: Lab1partA.event_list s /\
     Heapq.heap_ok Event_lt
       (Lab1partA.event_list (Lab1partA.schedule_event e s))) /\
  (forall e s,
     Heapq.heap_ok Event_lt (Lab1partB.event_list s) ->
     Lab1partB.event_list (Lab1partB.schedule_event e s)
       ≡ₚ e :: Lab1partB.event_list s /\
     Heapq.heap_ok Event_lt
       (Lab1partB.event_list (Lab1partB.schedule_event e s))) /\
  (forall e s,
     Heapq.heap_ok Sim001.Event_lt (Sim001.event_list s) ->
     Sim001.event_list (Sim001.schedule_event e s)
       ≡ₚ e :: Sim001.event_list s /\
     Heapq.heap_ok Sim001.Event_lt
       (Sim001.event_list (Sim001.schedule_event e s))).
Proof.
  split; [|split]; intros e s Hheap; split.
  - apply EventFacts.push_perm.
  - by apply EventFacts.push_ok.
  - apply EventFacts.push_perm.
  - by apply EventFacts.push_ok.
  - apply Facts001.push_perm_001.
  - by apply Facts001.push_ok_001.
Qed.

Lemma schedule_event_keeps_heap_witness :
  Lab1partA.event_list
    (Lab1partA.schedule_event (mkEvent 3 departure 0)
       (Lab1partA.schedule_event (mkEvent 5 arrival 1)
          (Lab1partA.init 3 1)))
  ≡ₚ [mkEvent 3 departure 0; mkEvent 5 arrival 1].
Proof.
  destruct schedule_event_keeps_heap as (HA & _ & _).
  destruct (HA (mkEvent 5 arrival 1) (Lab1partA.init 3 1)
               EventFacts.heap_ok_nil) as [Hp Hh].
  destruct (HA (mkEvent 3 departure 0) _ Hh) as [Hp' _].
  rewrite Hp'. by rewrite Hp.
Defined.



(** ** Rates and errors *)

Lemma expovariate_zero x rate :
  (rate == 0)%Q -> expovariate x rate = Raise ZeroDivisionError.
Proof.
  intros Hzero. apply Qeq_bool_iff in Hzero. unfold expovariate.
  by rewrite Hzero.
Qed.

(** X3.  A zero arrival rate stops the synthetic simulators before
    their loop: [random.expovariate] raises [ZeroDivisionError] at the
    first arrival of Lab1partA and at the first packet of 001.py, whose
    size has already been drawn at the rate 1/1250. *)
Theorem zero_rate_raises (rand : nat -> Q) (npkts : Z) (lambd : Q)
        (fuel : nat) :
  (lambd == 0)%Q ->
  Lab1partA.run rand fuel (Lab1partA.init npkts lambd)
  = Raise ZeroDivisionError /\
  Sim001.generate_packet rand (Sim001.init npkts lambd)
  = Raise ZeroDivisionError /\
  Sim001.run_events rand fuel (Sim001.init npkts lambd)
  = Raise ZeroDivisionError /\
  Sim001.run rand fuel (Sim001.init npkts lambd) = Raise ZeroDivisionError.
Proof.
  intros Hzero.
  assert (Sim001.generate_packet rand (Sim001.init npkts lambd)
          = Raise ZeroDivisionError) as Hgen.
  { unfold Sim001.generate_packet, Sim001.draw.
    rewrite PyFacts.expovariate_ok by done.
    cbn [mbind result_bind Sim001.lambd Sim001.set_draws Sim001.init].
    by rewrite expovariate_zero. }
  repeat split.
  - unfold Lab1partA.run, Lab1partA.prime, Lab1partA.draw.
    cbn [Lab1partA.lambd Lab1partA.init]. by rewrite expovariate_zero.
  - done.
  - unfold Sim001.run_events, Sim001.prime. by rewrite Hgen.
  - unfold Sim001.run, Sim001.run_events, Sim001.prime. by rewrite Hgen.
Qed.

Lemma zero_rate_raises_witness :
  Lab1partA.run Scenario.rand_a 6 (Lab1partA.init 3 0)
  = Raise ZeroDivisionError /\
  Sim001.run Scenario.rand_001 10 (Sim001.init 2 0)
  = Raise ZeroDivisionError.
Proof.
  destruct (zero_rate_raises Scenario.rand_a 3 0 6 (Qeq_refl 0))
    as (HA & _).
  destruct (zero_rate_raises Scenario.rand_001 2 0 10 (Qeq_refl 0))
    as (_ & _ & _ & HC).
  exact (conj HA HC).
Defined.

(** X4.  With a non-zero rate the event loop of 001.py raises nothing,
    however long it is followed: the event list is popped only when it
    is not empty, the counter index [min(len(queue), 10)] is in range,
    every departing packet carries its departure time, and the service
    rate is not zero. *)
Theorem event_loop_001_total (rand : nat -> Q) (npkts : Z) (lambd : Q)
        (fuel : nat) :
  ~ (lambd == 0)%Q ->
  exists events s,
    Sim001.run_events rand fuel (Sim001.init npkts lambd) = Ok (events, s) /\
    length (Sim001.pn_counter s) = 11%nat /\
    Sim001.service_rate_bps (Sim001.server s) = (10 * 10 ^ 9)%Z.
Proof.
  intros Hrate.
  destruct (Facts001.prime_ok_001 rand npkts lambd Hrate)
    as (s1 & Hp & Hinv & _).
  destruct (Facts001.loop_total_001 rand fuel s1 Hinv)
    as (events & s & Hloop & Hinv').
  assert (Sim001.run_events rand fuel (Sim001.init npkts lambd)
          = Ok (events, s)) as Hrun.
  { unfold Sim001.run_events. by rewrite Hp. }
  exists events, s. split; [done|]. split.
  - apply (Inv001.inv_counter s Hinv').
  - by eapply Facts001.run_rate.
Qed.

Lemma event_loop_001_total_witness :
  exists events s,
    Sim001.run_events Scenario.rand_001 10 (Sim001.init 2 1)
    = Ok (events, s) /\
    length (Sim001.pn_counter s) = 11%nat.
Proof.
  destruct (event_loop_001_total Scenario.rand_001 2 1 10)
    as (events & s & Hrun & Hlen & _); [done|].
  exists events, s. exact (conj Hrun Hlen).
Defined.

(** ** Bookkeeping along a run *)

(** X5.  In Lab1partA and Lab1partB the counter [pkts_in_system] is the
    length of the queue (which holds the packet in service too), it is
    the number of arrivals handled minus the number of departures
    handled, and it is never negative. *)
Theorem number_in_system_conserved :
  (forall rand npkts lambd fuel events s,
     Lab1partA.run rand fuel (Lab1partA.init npkts lambd) = Ok (events, s) ->
     Lab1partA.pkts_in_system s
     = Z.of_nat (length (Lab1partA.queue s)) /\
     Lab1partA.pkts_in_system s
     = (History.count arrival events - History.count departure events)%Z /\
     (0 <= Lab1partA.pkts_in_system s)%Z) /\
  (forall trace fuel events s,
     Lab1partB.run fuel (Lab1partB.init trace) = Ok (events, s) ->
     Lab1partB.pkts_in_system s
     = Z.of_nat (length (Lab1partB.queue s)) /\
     Lab1partB.pkts_in_system s
     = (History.count arrival events - History.count departure events)%Z /\
     (0 <= Lab1partB.pkts_in_system s)%Z).
Proof.
  split.
  - intros rand npkts lambd fuel events s Hrun.
    destruct (FactsA.run_inv_a _ _ _ _ _ _ Hrun) as [Hinv Hh].
    pose proof (InvA.inv_count s Hinv) as Hc.
    pose proof (FactsA.hist_in_system_a events s Hinv Hh) as Hn.
    unfold History.in_system in Hn. repeat split; [done|done|lia].
  - intros trace fuel events s Hrun.
    destruct (FactsB.run_inv_b _ _ _ _ Hrun) as (Hinv & Hh & _).
    pose proof (InvB.inv_count s Hinv) as Hc.
    pose proof (FactsB.hist_in_system_b events s Hinv Hh) as Hn.
    unfold History.in_system in Hn. repeat split; [done|done|lia].
Qed.

Lemma number_in_system_conserved_witness :
  match scenario_run_a_busy, scenario_run_b_busy with
  | Ok (ea, sa), Ok (eb, sb) =>
      Lab1partA.pkts_in_system sa
      = (History.count arrival ea - History.count departure ea)%Z /\
      Lab1partB.pkts_in_system sb
      = (History.count arrival eb - History.count departure eb)%Z
  | _, _ => False
  end.
Proof.
  destruct number_in_system_conserved as (HA & HB).
  destruct scenario_run_a_busy as [[ea sa]|] eqn:Ea;
    [|exfalso; revert Ea; vm_compute; discriminate].
  destruct scenario_run_b_busy as [[eb sb]|] eqn:Eb;
    [|exfalso; revert Eb; vm_compute; discriminate].
  exact (conj (proj1 (proj2 (HA _ _ _ _ _ _ Ea)))
              (proj1 (proj2 (HB _ _ _ _ Eb)))).
Defined.

(** X6.  Lab1partA numbers its packets 0, 1, 2, ... in the order of
    their arrival.  One arrival is always scheduled ahead, so
    [next_pkt_id], which [print_stats] reports as the number of packets
    arrived, is one more than the number of arrivals handled, and the
    pending arrival carries the id [next_pkt_id - 1]. *)
Theorem arrival_ids_consecutive (rand : nat -> Q) (npkts : Z) (lambd : Q)
        (fuel : nat) (events : list Event) (s : Lab1partA.MM1Simulator) :
  Lab1partA.run rand fuel (Lab1partA.init npkts lambd) = Ok (events, s) ->
  History.ids arrival events
  = map Z.of_nat (seq 0 (length (History.of_type arrival events))) /\
  Lab1partA.next_pkt_id s = (History.count arrival events + 1)%Z /\
  History.ids arrival (Lab1partA.event_list s)
  = [History.count arrival events].
Proof.
  intros Hrun. destruct (FactsA.run_inv_a _ _ _ _ _ _ Hrun) as [Hinv Hh].
  pose proof (InvA.hist_ids _ _ Hh) as Hids.
  pose proof (InvA.hist_next _ _ Hh) as Hnext.
  pose proof (InvA.inv_arrival s Hinv) as Hpending.
  repeat split; [done|done|].
  rewrite Hpending, Hnext. f_equal. lia.
Qed.

Lemma arrival_ids_consecutive_witness :
  match scenario_run_a with
  | Ok (events, s) =>
      Lab1partA.next_pkt_id s = (History.count arrival events + 1)%Z
  | Raise _ => False
  end.
Proof.
  destruct scenario_run_a as [[events s]|] eqn:E;
    [|exfalso; revert E; vm_compute; discriminate].
  exact (proj1 (proj2 (arrival_ids_consecutive _ _ _ _ _ _ E))).
Defined.

(** X7.  The counters behind P(n) add up to the number of arrivals
    handled: every arrival increments exactly one of them and a
    departure none, in each of the three files. *)
Theorem counters_total_arrivals :
  (forall rand npkts lambd fuel events s,
     Lab1partA.run rand fuel (Lab1partA.init npkts lambd) = Ok (events, s) ->
     sumZ (Lab1partA.queue_len_record s) = History.count arrival events /\
     length (Lab1partA.queue_len_record s) = 12%nat) /\
  (forall trace fuel events s,
     Lab1partB.run fuel (Lab1partB.init trace) = Ok (events, s) ->
     sumZ (Lab1partB.queue_len_record s) = History.count arrival events /\
     length (Lab1partB.queue_len_record s) = 12%nat) /\
  (forall rand npkts lambd fuel events s,
     Sim001.run_events rand fuel (Sim001.init npkts lambd) = Ok (events, s) ->
     sumZ (Sim001.pn_counter s)
     = History.count arrival (Inv001.history events) /\
     length (Sim001.pn_counter s) = 11%nat).
Proof.
  split; [|split].
  - intros rand npkts lambd fuel events s Hrun.
    destruct (FactsA.run_inv_a _ _ _ _ _ _ Hrun) as [Hinv Hh].
    split; [apply (InvA.hist_record _ _ Hh)|apply (InvA.inv_record s Hinv)].
  - intros trace fuel events s Hrun.
    destruct (FactsB.run_inv_b _ _ _ _ Hrun) as (Hinv & Hh & _).
    split; [apply (InvB.hist_record _ _ Hh)|apply (InvB.inv_record s Hinv)].
  - intros rand npkts lambd fuel events s Hrun.
    destruct (Facts001.run_inv_001 _ _ _ _ _ _ Hrun) as [Hinv Hh].
    split; [apply (Inv001.hist_counter _ _ Hh)
           |apply (Inv001.inv_counter s Hinv)].
Qed.

Lemma counters_total_arrivals_witness :
  match scenario_run_a, scenario_run_b, scenario_run_001 with
  | Ok (ea, sa), Ok (eb, sb), Ok (ec, sc) =>
      sumZ (Lab1partA.queue_len_record sa) = History.count arrival ea /\
      sumZ (Lab1partB.queue_len_record sb) = History.count arrival eb /\
      sumZ (Sim001.pn_counter sc)
      = History.count arrival (Inv001.history ec)
  | _, _, _ => False
  end.
Proof.
  destruct counters_total_arrivals as (HA & HB & HC).
  destruct scenario_run_a as [[ea sa]|] eqn:Ea;
    [|exfalso; revert Ea; vm_compute; discriminate].
  destruct scenario_run_b as [[eb sb]|] eqn:Eb;
    [|exfalso; revert Eb; vm_compute; discriminate].
  destruct scenario_run_001 as [[ec sc]|] eqn:Ec;
    [|exfalso; revert Ec; vm_compute; discriminate].
  exact (conj (proj1 (HA _ _ _ _ _ _ Ea))
              (conj (proj1 (HB _ _ _ _ Eb)) (proj1 (HC _ _ _ _ _ _ Ec)))).
Defined.

(** X8.  Every entry of the queue of Lab1partA and Lab1partB carries
    the time at which the arrival of its packet was handled; in
    Lab1partB it also carries the service time computed from the
    packet's trace row, [(pkt_size_bytes * 8 / LINK_RATE_BPS) * 1e6]
    with the product taken in the type of the size column (a 64-bit
    integer product wraps around). *)
Theorem queue_entries_stamped :
  (forall rand npkts lambd fuel events s,
     Lab1partA.run rand fuel (Lab1partA.init npkts lambd) = Ok (events, s) ->
     Forall (fun entry => History.arrival_stamp events (fst entry)
                          = Some (snd entry))
            (Lab1partA.queue s)) /\
  (forall trace fuel events s,
     Lab1partB.run fuel (Lab1partB.init trace) = Ok (events, s) ->
     Forall (fun entry =>
               History.arrival_stamp events (InvB.entry_id entry)
               = Some (InvB.entry_arrival entry) /\
               exists row,
                 trace !! Z.to_nat (InvB.entry_id entry) = Some row /\
                 InvB.entry_service entry
                 = ((scalar_float (scalar_mul (snd row) 8) / LINK_RATE_BPS)
                    * 1000000)%Q)
            (Lab1partB.queue s)).
Proof.
  split.
  - intros rand npkts lambd fuel events s Hrun.
    destruct (FactsA.run_inv_a _ _ _ _ _ _ Hrun) as [_ Hh].
    apply (InvA.hist_stamps _ _ Hh).
  - intros trace fuel events s Hrun.
    destruct (FactsB.run_inv_b _ _ _ _ Hrun) as (_ & Hh & Htr).
    pose proof (InvB.hist_stamps _ _ Hh) as Hst.
    pose proof (InvB.hist_service _ _ Hh) as Hsv.
    rewrite Htr in Hsv.
    rewrite Forall_forall in Hst. rewrite Forall_forall in Hsv.
    apply Forall_forall. intros entry Hin. split; [by apply Hst|].
    exact (Hsv entry Hin).
Qed.

Lemma queue_entries_stamped_witness :
  match scenario_run_a_busy, scenario_run_b_busy with
  | Ok (ea, sa), Ok (eb, sb) =>
      Forall (fun entry => History.arrival_stamp ea (fst entry)
                           = Some (snd entry))
             (Lab1partA.queue sa) /\
      Forall (fun entry =>
                History.arrival_stamp eb (InvB.entry_id entry)
                = Some (InvB.entry_arrival entry))
             (Lab1partB.queue sb) /\
      Lab1partA.queue sa <> [] /\ Lab1partB.queue sb <> []
  | _, _ => False
  end.
Proof.
  destruct queue_entries_stamped as (HA & HB).
  destruct scenario_run_a_busy as [[ea sa]|] eqn:Ea;
    [|exfalso; revert Ea; vm_compute; discriminate].
  destruct scenario_run_b_busy as [[eb sb]|] eqn:Eb;
    [|exfalso; revert Eb; vm_compute; discriminate].
  pose proof (HA _ _ _ _ _ _ Ea) as Ha.
  pose proof (HB _ _ _ _ Eb) as Hb.
  assert (Ok (ea, sa) = scenario_run_a_busy) as Ea' by (symmetry; exact Ea).
  assert (Ok (eb, sb) = scenario_run_b_busy) as Eb' by (symmetry; exact Eb).
  clear Ea Eb.
  vm_compute in Ea'. vm_compute in Eb'.
  injection Ea' as -> ->. injection Eb' as -> ->.
  split; [exact Ha|]. split.
  - eapply Forall_impl; [exact Hb|]. intros entry [H _]. exact H.
  - split; intros Hq; discriminate Hq.
Defined.

(** ** The end of a run *)

(** X9.  When the event list of 001.py is empty, which is how its loop
    ends, the server is idle, nobody waits, every packet that arrived
    has departed, in the order of arrival, and the departed count is the
    number of arrivals. *)
Theorem drained_server_idle_001 (rand : nat -> Q) (npkts : Z) (lambd : Q)
        (fuel : nat) (events : list Sim001.Event) (s : Sim001.Simulator) :
  Sim001.run_events rand fuel (Sim001.init npkts lambd) = Ok (events, s) ->
  Sim001.event_list s = [] ->
  Sim001.busy (Sim001.server s) = false /\ Sim001.queue s = [] /\
  History.ids departure (Inv001.history events)
  = History.ids arrival (Inv001.history events) /\
  Sim001.total_packets_in_system s
  = History.count arrival (Inv001.history events).
Proof.
  intros Hrun Hnil.
  destruct (Facts001.run_inv_001 _ _ _ _ _ _ Hrun) as [Hinv Hh].
  pose proof (Facts001.drained_empty s Hinv Hnil) as Hempty.
  pose proof (Inv001.hist_fifo _ _ Hh) as Hfifo.
  pose proof (Inv001.hist_count _ _ Hh) as Hcount.
  rewrite Hempty in Hfifo. simpl in Hfifo. rewrite app_nil_r in Hfifo.
  pose proof (Inv001.inv_busy s Hinv) as Hbusy.
  unfold Inv001.busy_ok in Hbusy. rewrite Hnil in Hbusy.
  unfold Inv001.in_system_packets in Hempty.
  apply app_eq_nil in Hempty as [_ Hq].
  repeat split.
  - destruct (Sim001.busy (Sim001.server s)); [|done].
    by destruct Hbusy as (d & Hd & _).
  - done.
  - done.
  - by rewrite Hcount, !EventFacts.count_ids, Hfifo.
Qed.

Lemma drained_server_idle_001_witness :
  match scenario_run_001 with
  | Ok (events, s) =>
      Sim001.event_list s = [] /\
      Sim001.busy (Sim001.server s) = false /\
      Sim001.total_packets_in_system s
      = History.count arrival (Inv001.history events)
  | Raise _ => False
  end.
Proof.
  destruct scenario_run_001 as [[events s]|] eqn:E;
    [|exfalso; revert E; vm_compute; discriminate].
  assert (Sim001.event_list s = []) as Hnil.
  { assert (Ok (events, s) = scenario_run_001) as E' by (symmetry; exact E).
    clear E. vm_compute in E'. injection E' as -> ->. reflexivity. }
  destruct (drained_server_idle_001 _ _ _ _ _ _ E Hnil)
    as (Hb & _ & _ & Ht).
  exact (conj Hnil (conj Hb Ht)).
Defined.

(** The loop of Lab1partA stops by its condition or by the bound. *)
Lemma loop_stops_a rand fuel : forall s events s',
  Lab1partA.loop rand fuel s = Ok (events, s') ->
  (length events <= fuel)%nat /\
  ((length events < fuel)%nat ->
   ~ (Lab1partA.total_pkts s' < Lab1partA.npkts s')%Z).
Proof.
  induction fuel as [|fuel IH]; intros s events s'; simpl.
  - intros [= <- <-]. simpl. split; lia.
  - destruct (decide (Lab1partA.total_pkts s < Lab1partA.npkts s)%Z)
      as [Hg|Hg].
    2:{ intros [= <- <-]. simpl. split; [lia|done]. }
    destruct (Lab1partA.loop_body rand s) as [[e s1]|]; [|done].
    cbn [mbind result_bind].
    destruct (Lab1partA.loop rand fuel s1) as [[events1 s2]|] eqn:Hloop;
      [|done].
    cbn. intros [= <- <-]. destruct (IH _ _ _ Hloop) as [Hle Hstop].
    simpl. split; [lia|]. intros Hlt. apply Hstop. lia.
Qed.

(** The departed count never passes the requested number. *)
Lemma reach_bounded_a rand s0 events s :
  InvA.inv s0 -> InvA.reach rand s0 events s ->
  Lab1partA.npkts s = Lab1partA.npkts s0 /\
  ((Lab1partA.total_pkts s0 <= Z.max 0 (Lab1partA.npkts s0))%Z ->
   (Lab1partA.total_pkts s <= Z.max 0 (Lab1partA.npkts s0))%Z).
Proof.
  intros Hinv Hreach.
  induction Hreach as [|events s e s' Hreach IH Hg Hbody];
    [by split|].
  destruct IH as [Hn Hb].
  pose proof (FactsA.reach_inv_a _ _ _ _ Hinv Hreach) as Hinvs.
  destruct (FactsA.step_cases_a rand s Hinvs)
    as (e0 & h & s1 & _ & Hbody0 & Hcase).
  rewrite Hbody in Hbody0. injection Hbody0 as <- <-.
  destruct Hcase as [[_ Hpost]|(_ & t & rest & _ & Hpost)].
  - rewrite (InvA.ap_npkts _ _ _ _ _ Hpost), (InvA.ap_pkts _ _ _ _ _ Hpost).
    split; [done|]. lia.
  - rewrite (InvA.dp_npkts _ _ _ _ _ _ _ Hpost),
            (InvA.dp_pkts _ _ _ _ _ _ _ Hpost).
    split; [done|]. lia.
Qed.

(** X10.  Lab1partA handles at most [npkts] departures.  Its departed
    count is the number of departure events popped; it never passes the
    requested number; and when the loop ends by its own condition
    (before the bound on the number of iterations is reached) exactly
    [npkts] packets have departed, none if [npkts] is not positive. *)
Theorem departures_bounded_by_request (rand : nat -> Q) (npkts : Z)
        (lambd : Q) (fuel : nat) (events : list Event)
        (s : Lab1partA.MM1Simulator) :
  Lab1partA.run rand fuel (Lab1partA.init npkts lambd) = Ok (events, s) ->
  Lab1partA.total_pkts s = History.count departure events /\
  (Lab1partA.total_pkts s <= Z.max 0 npkts)%Z /\
  (length events <= fuel)%nat /\
  ((length events < fuel)%nat ->
   Lab1partA.total_pkts s = Z.max 0 npkts).
Proof.
  intros Hrun.
  destruct (FactsA.run_inv_a _ _ _ _ _ _ Hrun) as [_ Hh].
  destruct (FactsA.run_reach _ _ _ _ _ _ Hrun) as (s1 & Hp & Hreach).
  pose proof (FactsA.prime_rate_a _ _ _ _ Hp) as Hrate.
  destruct (FactsA.prime_ok_a rand npkts lambd Hrate)
    as (s1' & Hp' & Hinv & _ & _ & _ & _ & _ & Hpk & _ & _ & _ & Hn).
  rewrite Hp in Hp'. injection Hp' as <-.
  destruct (reach_bounded_a _ _ _ _ Hinv Hreach) as [Hnp Hb].
  rewrite Hpk, Hn in Hb. rewrite Hn in Hnp.
  assert (Lab1partA.loop rand fuel s1 = Ok (events, s)) as Hloop.
  { revert Hrun. unfold Lab1partA.run. by rewrite Hp. }
  destruct (loop_stops_a _ _ _ _ _ Hloop) as [Hle Hstop].
  pose proof (InvA.hist_pkts _ _ Hh) as Hcnt.
  split; [done|]. unfold History.count in Hcnt.
  split; [lia|]. split; [done|].
  intros Hlt. specialize (Hstop Hlt). rewrite Hnp in Hstop. lia.
Qed.

Lemma departures_bounded_by_request_witness :
  match Lab1partA.run Scenario.rand_a 9 (Lab1partA.init 3 1) with
  | Ok (events, s) =>
      (length events < 9)%nat /\ Lab1partA.total_pkts s = 3%Z
  | Raise _ => False
  end.
Proof.
  destruct (Lab1partA.run Scenario.rand_a 9 (Lab1partA.init 3 1))
    as [[events s]|] eqn:E;
    [|exfalso; revert E; vm_compute; discriminate].
  assert (length events < 9)%nat as Hlt.
  { assert (Ok (events, s)
            = Lab1partA.run Scenario.rand_a 9 (Lab1partA.init 3 1)) as E'
      by (symmetry; exact E).
    clear E. vm_compute in E'. injection E' as -> ->. simpl. lia. }
  destruct (departures_bounded_by_request _ _ _ _ _ _ E)
    as (_ & _ & _ & Hstop).
  exact (conj Hlt (Hstop Hlt)).
Defined.

(** X11.  In Lab1partA, when the random source yields non-negative
    values, no event is ever scheduled in the past: at every point of a
    run the clock is not negative, every pending event is at or after
    the clock, and every popped event is at or before it. *)
Theorem no_event_in_the_past (rand : nat -> Q) (npkts : Z) (lambd : Q)
        (fuel : nat) (events : list Event) (s : Lab1partA.MM1Simulator) :
  (forall k, (0 <= rand k)%Q) ->
  Lab1partA.run rand fuel (Lab1partA.init npkts lambd) = Ok (events, s) ->
  (0 <= Lab1partA.curr_time s)%Q /\
  Forall (fun e => (Lab1partA.curr_time s <= time e)%Q)
         (Lab1partA.event_list s) /\
  Forall (fun e => (time e <= Lab1partA.curr_time s)%Q) events.
Proof.
  intros Hrand Hrun.
  destruct (FactsA.run_timed rand Hrand _ _ _ _ _ Hrun)
    as [_ _ Hpast Hclock Hfuture].
  done.
Qed.

Lemma no_event_in_the_past_witness :
  match scenario_run_a with
  | Ok (events, s) =>
      Forall (fun e => (Lab1partA.curr_time s <= time e)%Q)
             (Lab1partA.event_list s)
  | Raise _ => False
  end.
Proof.
  destruct scenario_run_a as [[events s]|] eqn:E;
    [|exfalso; revert E; vm_compute; discriminate].
  exact (proj1 (proj2 (no_event_in_the_past _ _ _ _ _ _ rand_a_nonneg E))).
Defined.

(** ** The trace-driven run *)

(** Once the event list is empty, more iterations change nothing. *)
Lemma loop_stable_b fuel : forall s events s',
  Lab1partB.loop fuel s = Ok (events, s') ->
  Lab1partB.event_list s' = [] ->
  forall k, Lab1partB.loop (fuel + k) s = Ok (events, s').
Proof.
  induction fuel as [|fuel IH]; intros s events s'; simpl.
  - intros [= <- <-] Hnil k. destruct k; simpl; [done|]. by rewrite Hnil.
  - destruct (Lab1partB.event_list s) as [|x l] eqn:Hl; [done|].
    destruct (Lab1partB.loop_body s) as [[e s1]|]; [|done].
    cbn [mbind result_bind].
    destruct (Lab1partB.loop fuel s1) as [[events1 s2]|] eqn:Hloop; [|done].
    cbn. intros [= <- <-] Hnil k.
    by rewrite (IH _ _ _ Hloop Hnil k).
Qed.

(** X12.  The loop of Lab1partB ends: after two iterations per row of
    the trace the event list is empty, and following the run any longer
    gives the same events and the same state. *)
Theorem trace_run_ends (trace : list Lab1partB.Row) (fuel : nat) :
  (2 * length trace <= fuel)%nat ->
  Lab1partB.run fuel (Lab1partB.init trace)
  = Lab1partB.run (2 * length trace) (Lab1partB.init trace) /\
  exists events s,
    Lab1partB.run fuel (Lab1partB.init trace) = Ok (events, s) /\
    length events = (2 * length trace)%nat /\
    Lab1partB.event_list s = [].
Proof.
  intros Hfuel.
  destruct (FactsB.run_drains trace (2 * length trace) ltac:(lia))
    as (events & s & Hrun & Hnil & Hlen).
  assert (Lab1partB.run fuel (Lab1partB.init trace) = Ok (events, s))
    as Hrun'.
  { rewrite FactsB.run_loop in Hrun. rewrite FactsB.run_loop.
    replace fuel with (2 * length trace + (fuel - 2 * length trace))%nat
      by lia.
    by apply loop_stable_b. }
  split; [by rewrite Hrun', Hrun|]. by exists events, s.
Qed.

Lemma trace_run_ends_witness :
  Lab1partB.run 10 (Lab1partB.init Scenario.trace_a)
  = Lab1partB.run 6 (Lab1partB.init Scenario.trace_a).
Proof.
  apply (trace_run_ends Scenario.trace_a 10). simpl. lia.
Defined.

(** What [schedule_rows] leaves in the event list: the events that
    were there, and for row [k] an arrival with the label of the row at
    the running sum of the inter-arrival values. *)
Lemma schedule_rows_times (rows : list Lab1partB.Row) : forall id t s,
  (forall e, e ∈ Lab1partB.event_list s ->
             e ∈ Lab1partB.event_list (Lab1partB.schedule_rows rows id t s)) /\
  forall k row, rows !! k = Some row ->
    exists e,
      e ∈ Lab1partB.event_list (Lab1partB.schedule_rows rows id t s) /\
      type e = arrival /\ pkt_id e = (id + Z.of_nat k)%Z /\
      (time e == t + sumQ (map fst (take (S k) rows)))%Q.
Proof.
  induction rows as [|r rows IH]; intros id t s.
  - split; [done|]. intros k row Hk. done.
  - cbn [Lab1partB.schedule_rows].
    set (a := mkEvent (t + r.1)%Q arrival id).
    destruct (IH (id + 1)%Z (t + r.1)%Q (Lab1partB.schedule_event a s))
      as [Hkeep Hrows].
    assert (forall e, e ∈ a :: Lab1partB.event_list s ->
                      e ∈ Lab1partB.event_list
                            (Lab1partB.schedule_event a s)) as Hpush.
    { intros e He. unfold Lab1partB.schedule_event. cbn.
      by rewrite EventFacts.push_perm. }
    split.
    + intros e He. apply Hkeep, Hpush. by right.
    + intros [|k] row Hk.
      * exists a. split; [apply Hkeep, Hpush; left|].
        split; [done|]. split; [simpl; lia|].
        simpl. unfold sumQ. simpl. lra.
      * destruct (Hrows k row Hk) as (e & Hin & Hty & Hid & Htime).
        exists e. split; [done|]. split; [done|]. split; [lia|].
        rewrite Htime. change (take (S (S k)) (r :: rows))
          with (r :: take (S k) rows).
        unfold sumQ. simpl. lra.
Qed.

(** X13.  Before its loop Lab1partB schedules, for every row of the
    trace, one arrival that carries the index of the row and whose time
    is the sum of the inter-arrival values up to and including that
    row; the head of the event list, whose time is printed as the first
    event, is the earliest of them. *)
Theorem trace_arrivals_scheduled (trace : list Lab1partB.Row) :
  let s := Lab1partB.prime (Lab1partB.init trace) in
  (forall k row, trace !! k = Some row ->
     exists e,
       e ∈ Lab1partB.event_list s /\ type e = arrival /\
       pkt_id e = Z.of_nat k /\
       (time e == sumQ (map fst (take (S k) trace)))%Q) /\
  (forall r, Lab1partB.event_list s !! 0%nat = Some r ->
     Forall (fun e => (time r <= time e)%Q) (Lab1partB.event_list s)).
Proof.
  intros s. split.
  - intros k row Hk.
    destruct (schedule_rows_times trace 0%Z 0%Q (Lab1partB.init trace))
      as [_ Hrows].
    destruct (Hrows k row Hk) as (e & Hin & Hty & Hid & Htime).
    exists e. split; [done|]. split; [done|]. split; [lia|].
    rewrite Htime. lra.
  - intros r Hr.
    destruct (FactsB.prime_spec trace) as (Hinv & _).
    pose proof (InvB.inv_heap _ Hinv) as Hheap.
    apply Forall_forall. intros e He.
    apply list_elem_of_lookup in He as [i Hi].
    apply EventFacts.Event_le_time.
    exact (HeapqFacts.heap_root_min Event_lt EventFacts.Event_lt_irrefl
             EventFacts.Event_le_trans _ r Hheap Hr i e Hi).
Qed.

Lemma trace_arrivals_scheduled_witness :
  exists e,
    e ∈ Lab1partB.event_list
          (Lab1partB.prime (Lab1partB.init Scenario.trace_a)) /\
    type e = arrival /\ pkt_id e = 2%Z /\ (time e == 10)%Q.
Proof.
  destruct (trace_arrivals_scheduled Scenario.trace_a) as [Hrows _].
  destruct (Hrows 2%nat (0%Q, int64 1000) eq_refl)
    as (e & Hin & Hty & Hid & Htime).
  exists e. split; [exact Hin|]. split; [exact Hty|].
  split; [exact Hid|]. rewrite Htime. reflexivity.
Defined.

(** ** 001.py: the waiting buffer and the packet generator *)

(** X14.  The [Queue] of 001.py is first in, first out.  [remove] on an
    empty buffer returns [None] and leaves it empty; otherwise it
    returns the packet inserted earliest and keeps the others in order;
    inserting a sequence of packets into the empty buffer gives that
    sequence, and [insert] makes the buffer one longer. *)
Theorem queue_first_in_first_out :
  Sim001.remove [] = (None, []) /\
  (forall p q,
     Sim001.remove (Sim001.insert p q)
     = match q with
       | [] => (Some p, [])
       | first :: rest => (Some first, Sim001.insert p rest)
       end) /\
  (forall ps, foldl (fun q p => Sim001.insert p q) [] ps = ps) /\
  (forall p q, length (Sim001.insert p q) = S (length q)).
Proof.
  split; [done|]. split; [by intros p [|first rest]|]. split.
  - intros ps.
    assert (forall q, foldl (fun q p => Sim001.insert p q) q ps = q ++ ps)
      as Hgen.
    { induction ps as [|p ps IH]; intros q; simpl.
      - by rewrite app_nil_r.
      - rewrite IH. unfold Sim001.insert. by rewrite <- app_assoc. }
    apply (Hgen []).
  - intros p q. unfold Sim001.insert. rewrite length_app. simpl. lia.
Qed.

(** The packet counter along a run of 001.py. *)
Lemma reach_generated_001 rand s0 events s :
  Inv001.inv s0 -> Inv001.reach rand s0 events s ->
  Sim001.npkts s = Sim001.npkts s0 /\
  (Sim001.packet_count s0 <= Sim001.packet_count s)%Z /\
  ((Sim001.packet_count s0 <= Z.max 1 (Sim001.npkts s0))%Z ->
   (Sim001.packet_count s <= Z.max 1 (Sim001.npkts s0))%Z).
Proof.
  intros Hinv Hreach.
  induction Hreach as [|events s e s' Hreach IH Hg Hbody].
  { split; [done|]. split; [lia|done]. }
  destruct IH as (Hn & Hlo & Hhi).
  pose proof (Facts001.reach_inv_001 _ _ _ _ Hinv Hreach) as Hinvs.
  destruct (Facts001.step_cases_001 rand s Hinvs Hg)
    as (e0 & h & s1 & _ & Hbody0 & Hcase).
  rewrite Hbody in Hbody0. injection Hbody0 as <- <-.
  destruct Hcase as [[_ Hpost]|[_ Hpost]].
  - rewrite (Inv001.ap_npkts _ _ _ _ _ Hpost).
    pose proof (Inv001.ap_events _ _ _ _ _ Hpost) as Hev. cbn zeta in Hev.
    destruct (decide (Sim001.packet_count s < Sim001.npkts s)%Z)
      as [Hlt|Hge].
    + destruct Hev as (_ & -> & _). split; [done|]. split; lia.
    + destruct Hev as (_ & -> & _). split; [done|]. split; [lia|done].
  - rewrite (Inv001.dp_npkts _ _ _ _ _ Hpost),
            (Inv001.dp_count _ _ _ _ _ Hpost). done.
Qed.

(** X15.  001.py generates its first packet before the loop, whatever
    [npkts] is, and further packets only while [packet_count < npkts]:
    the number of packets generated is at least 1 and at most
    [max(1, npkts)], so a run asked for no packet still simulates
    one. *)
Theorem packets_generated_bounded (rand : nat -> Q) (npkts : Z) (lambd : Q)
        (fuel : nat) (events : list Sim001.Event) (s : Sim001.Simulator) :
  Sim001.run_events rand fuel (Sim001.init npkts lambd) = Ok (events, s) ->
  Sim001.npkts s = npkts /\
  (1 <= Sim001.packet_count s <= Z.max 1 npkts)%Z.
Proof.
  unfold Sim001.run_events.
  destruct (Sim001.prime rand (Sim001.init npkts lambd)) as [s1|] eqn:Hp;
    [|done].
  cbn [mbind result_bind]. intros Hloop.
  apply Facts001.loop_reach_001 in Hloop.
  pose proof (Facts001.prime_rate_001 _ _ _ _ Hp) as Hrate.
  destruct (Facts001.prime_ok_001 rand npkts lambd Hrate)
    as (s1' & Hp' & Hinv & _ & Hn & Hc).
  rewrite Hp in Hp'. injection Hp' as <-.
  destruct (reach_generated_001 _ _ _ _ Hinv Hloop) as (Hnp & Hlo & Hhi).
  rewrite Hn in Hnp, Hhi. rewrite Hc in Hlo, Hhi.
  split; [done|]. lia.
Qed.

Lemma packets_generated_bounded_witness :
  match Sim001.run_events Scenario.rand_001 10 (Sim001.init 0 1) with
  | Ok (events, s) => Sim001.packet_count s = 1%Z
  | Raise _ => False
  end.
Proof.
  destruct (Sim001.run_events Scenario.rand_001 10 (Sim001.init 0 1))
    as [[events s]|] eqn:E;
    [|exfalso; revert E; vm_compute; discriminate].
  destruct (packets_generated_bounded _ _ _ _ _ _ E) as [_ Hc].
  simpl in Hc. lia.
Defined.

(** X16.  The heights of the bar chart of 001.py are the probabilities
    it prints: when at least one arrival has been counted and the
    summary is computed, both are the counters divided by their sum. *)
Theorem bars_are_probabilities (rand : nat -> Q) (npkts : Z) (lambd : Q)
        (fuel : nat) (events : list Sim001.Event) (s : Sim001.Simulator)
        (summary : Sim001.Summary) :
  Sim001.run_events rand fuel (Sim001.init npkts lambd) = Ok (events, s) ->
  Sim001.print_summary s = Ok summary ->
  (0 < sumZ (Sim001.pn_counter s))%Z ->
  Sim001.bars summary = Sim001.probs summary /\
  Sim001.probs summary
  = map (fun c => (inject_Z c / inject_Z (sumZ (Sim001.pn_counter s)))%Q)
        (Sim001.pn_counter s).
Proof.
  intros Hrun Hsum Hpos.
  destruct (Facts001.run_inv_001 _ _ _ _ _ _ Hrun) as [Hinv _].
  revert Hsum. unfold Sim001.print_summary.
  destruct (truediv (Sim001.total_delay s)
              (inject_Z (Sim001.total_packets_in_system s))) as [d|];
    [|done].
  cbn [mbind result_bind].
  destruct (truediv (Sim001.total_delay s) (Sim001.sim_time s)) as [n|];
    [|done].
  cbn [mbind result_bind].
  rewrite Facts001.probs_ok
    by (first [apply (Inv001.inv_counter s Hinv) | lia]).
  cbn [mbind result_bind].
  rewrite Facts001.bar_heights_ok by lia.
  cbn [mbind result_bind]. by intros [= <-].
Qed.

Lemma bars_are_probabilities_witness :
  match scenario_run_001 with
  | Ok (_, s) =>
      match Sim001.print_summary s with
      | Ok summary => Sim001.bars summary = Sim001.probs summary
      | Raise _ => False
      end
  | Raise _ => False
  end.
Proof.
  destruct scenario_run_001 as [[events s]|] eqn:E;
    [|exfalso; revert E; vm_compute; discriminate].
  assert (0 < sumZ (Sim001.pn_counter s))%Z as Hpos.
  { assert (Ok (events, s) = scenario_run_001) as E' by (symmetry; exact E).
    clear E. vm_compute in E'. injection E' as -> ->. reflexivity. }
  destruct (Sim001.print_summary s) as [summary|] eqn:Hs.
  - exact (proj1 (bars_are_probabilities _ _ _ _ _ _ _ E Hs Hpos)).
  - assert (Ok (events, s) = scenario_run_001) as E' by (symmetry; exact E).
    clear E. vm_compute in E'. injection E' as -> ->.
    revert Hs. vm_compute. discriminate.
Defined.

(** The state of 001.py when its loop starts. *)
Lemma prime_state_001 rand npkts lambd s :
  Sim001.prime rand (Sim001.init npkts lambd) = Ok s ->
  let p := Sim001.mkPacket 0 (0 + rand 1%nat)
                           (Sim001.py_int (rand 0%nat)) None in
  Sim001.event_list s = [Inv001.arrival_ev p] /\
  Sim001.busy (Sim001.server s) = false /\ Sim001.queue s = [] /\
  Sim001.total_packets_in_system s = 0%Z /\
  Sim001.packet_count s = 1%Z /\ Sim001.npkts s = npkts /\
  Sim001.service_rate_bps (Sim001.server s) = (10 * 10 ^ 9)%Z.
Proof.
  intros Hp. pose proof (Facts001.prime_rate_001 _ _ _ _ Hp) as Hrate.
  revert Hp. unfold Sim001.prime, Sim001.generate_packet.
  rewrite Facts001.draw_ok_001 by apply Facts001.size_rate_nonzero.
  cbn -[Sim001.draw Heapq.heappush]. rewrite Facts001.draw_ok_001 by done.
  cbn -[Heapq.heappush]. intros [= <-]. cbn. done.
Qed.

Lemma heappop_single_001 (e : Sim001.Event) :
  Heapq.heappop Sim001.Event_lt [e] = Ok (e, []).
Proof. reflexivity. Qed.

Lemma heappush_nil_001 (e : Sim001.Event) :
  Heapq.heappush Sim001.Event_lt [] e = [e].
Proof. reflexivity. Qed.

(** X17.  Asked for at most one packet (zero and negative numbers
    included), 001.py simulates exactly one: packet 0 arrives at the
    first inter-arrival value, finds the server idle, departs one
    service time later, and the loop ends with an empty event list and
    one packet counted. *)
Theorem one_packet_without_request (rand : nat -> Q) (npkts : Z) (lambd : Q)
        (fuel : nat) :
  (npkts <= 1)%Z -> ~ (lambd == 0)%Q ->
  exists a d s,
    Sim001.run_events rand (2 + fuel) (Sim001.init npkts lambd)
    = Ok ([a; d], s) /\
    Sim001.event_type a = arrival /\ Sim001.event_type d = departure /\
    Sim001.number (Sim001.packet a) = 0%Z /\
    Sim001.number (Sim001.packet d) = 0%Z /\
    Sim001.time a = (0 + rand 1%nat)%Q /\
    Sim001.time d
    = (Sim001.time a
       + Inv001.service_time (10 * 10 ^ 9) (Sim001.py_int (rand 0%nat)))%Q /\
    Sim001.total_packets_in_system s = 1%Z /\
    Sim001.packet_count s = 1%Z /\
    Sim001.event_list s = [] /\ Sim001.queue s = [] /\
    Sim001.busy (Sim001.server s) = false.
Proof.
  intros Hn Hrate.
  destruct (Facts001.prime_ok_001 rand npkts lambd Hrate)
    as (s1 & Hp & Hinv1 & _).
  destruct (prime_state_001 _ _ _ _ Hp)
    as (Hev1 & Hbusy1 & Hq1 & Htot1 & Hcount1 & Hn1 & Hrate1).
  set (p := Sim001.mkPacket 0 (0 + rand 1%nat)
                            (Sim001.py_int (rand 0%nat)) None) in *.
  (* first iteration: the arrival *)
  destruct (Facts001.step_cases_001 rand s1 Hinv1)
    as (a & h & s2 & Hpop1 & Hbody1 & Hcase1); [by rewrite Hev1|].
  rewrite Hev1, heappop_single_001 in Hpop1. injection Hpop1 as <- <-.
  destruct Hcase1 as [[_ Hpost1]|[Hty _]]; [|done].
  pose proof (Facts001.step_inv_001 rand _ _ _ Hinv1 Hbody1) as Hinv2.
  pose proof (Inv001.ap_events _ _ _ _ _ Hpost1) as Hev2. cbn zeta in Hev2.
  rewrite Hbusy1, heappush_nil_001, decide_False in Hev2 by lia.
  destruct Hev2 as (Hev2 & Hcount2 & _).
  pose proof (Inv001.ap_queue _ _ _ _ _ Hpost1) as Hq2.
  rewrite Hbusy1, Hq1 in Hq2.
  (* second iteration: the departure *)
  set (d := Inv001.departure_ev (Sim001.service_rate_bps (Sim001.server s1))
              (Sim001.time (Inv001.arrival_ev p))
              (Sim001.packet (Inv001.arrival_ev p))) in *.
  destruct (Facts001.step_cases_001 rand s2 Hinv2)
    as (d0 & h & s3 & Hpop2 & Hbody2 & Hcase2); [by rewrite Hev2|].
  rewrite Hev2, heappop_single_001 in Hpop2. injection Hpop2 as <- <-.
  destruct Hcase2 as [[Hty _]|[_ Hpost2]]; [done|].
  pose proof (Inv001.dp_events _ _ _ _ _ Hpost2) as Hev3.
  rewrite Hq2 in Hev3. destruct Hev3 as (Hbusy3 & Hq3 & Hev3).
  pose proof (Inv001.dp_total _ _ _ _ _ Hpost2) as Htot3.
  rewrite (Inv001.ap_total _ _ _ _ _ Hpost1), Htot1 in Htot3.
  pose proof (Inv001.dp_count _ _ _ _ _ Hpost2) as Hcount3.
  rewrite Hcount2, Hcount1 in Hcount3.
  pose proof (Inv001.dp_npkts _ _ _ _ _ Hpost2) as Hn3.
  rewrite (Inv001.ap_npkts _ _ _ _ _ Hpost1), Hn1 in Hn3.
  exists (Inv001.arrival_ev p), d, s3. split.
  - unfold Sim001.run_events. rewrite Hp. cbn [mbind result_bind].
    change (2 + fuel)%nat with (S (S fuel)). cbn [Sim001.loop].
    rewrite decide_True by (right; by rewrite Hev1).
    rewrite Hev1, Hbody1. cbn [mbind result_bind].
    rewrite decide_True by (right; by rewrite Hev2).
    rewrite Hev2, Hbody2. cbn [mbind result_bind].
    assert (Sim001.loop rand fuel s3 = Ok ([], s3)) as ->.
    { destruct fuel; [done|]. cbn [Sim001.loop].
      rewrite decide_False; [done|]. rewrite Hev3, Hcount3, Hn3.
      intros [?|?]; [lia|done]. }
    done.
  - subst d. rewrite Hrate1. cbn. done.
Qed.

Lemma one_packet_without_request_witness :
  exists a d s,
    Sim001.run_events Scenario.rand_001 10 (Sim001.init 0 1)
    = Ok ([a; d], s) /\
    Sim001.total_packets_in_system s = 1%Z.
Proof.
  destruct (one_packet_without_request Scenario.rand_001 0 1 8)
    as (a & d & s & Hrun & _ & _ & _ & _ & _ & _ & Htot & _); [lia|done|].
  exists a, d, s. exact (conj Hrun Htot).
Defined.

(** X18.  At every point of a run of 001.py the area under the
    number-in-system curve, up to the clock, is the accumulated
    [total_delay] plus the time spent so far by the packets that are
    still in the system (the one in service and the waiting ones).  So
    [total_delay / time], which 001.py reports as N, is the time
    average only when nobody is left in the system. *)
Theorem area_identity_001 (rand : nat -> Q) (npkts : Z) (lambd : Q)
        (fuel : nat) (events : list Sim001.Event) (s : Sim001.Simulator) :
  Sim001.run_events rand fuel (Sim001.init npkts lambd) = Ok (events, s) ->
  (History.area (Inv001.history events)
   == Sim001.total_delay s
      + Inv001.residence (Sim001.sim_time s) (Inv001.in_system_packets s))%Q /\
  Sim001.sim_time s = History.clock (Inv001.history events) /\
  (Sim001.total_delay s == Inv001.delays events)%Q.
Proof.
  intros Hrun.
  destruct (Facts001.run_inv_001 _ _ _ _ _ _ Hrun) as [_ Hh].
  split; [apply (Inv001.hist_area _ _ Hh)|].
  split; [apply (Inv001.hist_clock _ _ Hh)|apply (Inv001.hist_delay _ _ Hh)].
Qed.

Lemma area_identity_001_witness :
  match Sim001.run_events Scenario.rand_001 2 (Sim001.init 2 1) with
  | Ok (events, s) =>
      (History.area (Inv001.history events)
       == Sim001.total_delay s
          + Inv001.residence (Sim001.sim_time s)
                             (Inv001.in_system_packets s))%Q /\
      length (Inv001.in_system_packets s) = 2%nat
  | Raise _ => False
  end.
Proof.
  destruct (Sim001.run_events Scenario.rand_001 2 (Sim001.init 2 1))
    as [[events s]|] eqn:E;
    [|exfalso; revert E; vm_compute; discriminate].
  split; [exact (proj1 (area_identity_001 _ _ _ _ _ _ E))|].
  assert (Ok (events, s)
          = Sim001.run_events Scenario.rand_001 2 (Sim001.init 2 1)) as E'
    by (symmetry; exact E).
  clear E. vm_compute in E'. injection E' as -> ->. reflexivity.
Defined.
